(** * SafeRoute AI: the data-orchestration and view-reconciliation core

    A shallow embedding of the TypeScript sources

    - [services/geminiService.ts]  (retrying executor, the four inference
      stages, the chat session factory),
    - [App.tsx]                    (staged orchestrator [init], chat adapter
      [handleSendMessage]),
    - [components/MapComponent.tsx] (the React view reconciler),
    - the standalone script        (its own [withRetry] and [updateMap]),

    together with the properties the specification states about them
    and further properties that the code itself shows.

    Conventions.  Asynchronous code runs on one logical thread and every
    [await] is sequential, so an [async] function is a state transformer
    that either returns a value or throws: the monad [M].  The outside
    world (inference service, [Math.random], timers, console) is an
    explicit [World] plus an oracle [Env] that scripts what the outside
    answers.  Numbers that the code only stores, doubles or compares
    against exact constants are exact rationals ([Q]). *)

From Stdlib Require Import List String Ascii Bool Arith ZArith QArith Lia Lqa
  Sorted.
Import ListNotations.

Set Implicit Arguments.
Close Scope Q_scope.

(* ================================================================== *)
(** * JavaScript strings (code units below 256) *)
(* ================================================================== *)

Module Js.

Local Open Scope string_scope.

(** [String.prototype.toLowerCase] on one Latin-1 code unit: A-Z and
    the accented capitals U+00C0..U+00DE (except the multiplication
    sign U+00D7) move up by 32. *)
Definition lower (c : ascii) : ascii :=
  let n := nat_of_ascii c in
  if (((65 <=? n) && (n <=? 90))
      || ((192 <=? n) && (n <=? 222) && negb (n =? 215)))%nat
  then ascii_of_nat (n + 32) else c.

Fixpoint toLowerCase (s : string) : string :=
  match s with
  | EmptyString => EmptyString
  | String c r => String (lower c) (toLowerCase r)
  end.

(** [s.includes(needle)]: [needle] occurs in [s] as a substring. *)
Fixpoint includes (s needle : string) : bool :=
  if String.prefix needle s then true
  else match s with
       | EmptyString => false
       | String _ r => includes r needle
       end.

(** WhiteSpace and LineTerminator code units below 256: TAB, LF, VT,
    FF, CR, SP and NBSP. *)
Definition isWhiteSpace (c : ascii) : bool :=
  let n := nat_of_ascii c in
  (((9 <=? n) && (n <=? 13)) || (n =? 32) || (n =? 160))%nat.

Fixpoint trimStart (s : string) : string :=
  match s with
  | EmptyString => EmptyString
  | String c r => if isWhiteSpace c then trimStart r else s
  end.

(** [trimEnd] keeps a character exactly when something that is not
    white space follows or the character itself is not white space. *)
Fixpoint trimEnd (s : string) : string :=
  match s with
  | EmptyString => EmptyString
  | String c r =>
      match trimEnd r with
      | EmptyString => if isWhiteSpace c then EmptyString
                       else String c EmptyString
      | r' => String c r'
      end
  end.

Definition trim (s : string) : string := trimEnd (trimStart s).

(** JavaScript truthiness of a string: the empty string is falsy. *)
Definition truthy (s : string) : bool :=
  match s with EmptyString => false | _ => true end.

End Js.

(* ================================================================== *)
(** * Exceptions and the monad of asynchronous code *)
(* ================================================================== *)

(** What the code looks at in a thrown value is [error?.message] only:
    a string when the value carries one, [undefined] otherwise. *)
Record JsError : Type := mkError { message : option string }.

Inductive Outcome (A : Type) : Type :=
| Ok (a : A)
| Throw (e : JsError).
Arguments Ok {A} a.
Arguments Throw {A} e.

Definition M (S A : Type) : Type := S -> Outcome A * S.

Definition ret {S A} (a : A) : M S A := fun s => (Ok a, s).

Definition throw {S A} (e : JsError) : M S A := fun s => (Throw e, s).

Definition bind {S A B} (m : M S A) (k : A -> M S B) : M S B :=
  fun s =>
    match m s with
    | (Ok a, s') => k a s'
    | (Throw e, s') => (Throw e, s')
    end.

(** [try { m } catch (e) { h e }] *)
Definition try_catch {S A} (m : M S A) (h : JsError -> M S A) : M S A :=
  fun s =>
    match m s with
    | (Ok a, s') => (Ok a, s')
    | (Throw e, s') => h e s'
    end.

(** [try { m } finally { f }]: [f] runs on both exits; the outcome of
    [m] stands unless [f] itself throws. *)
Definition try_finally {S A} (m : M S A) (f : M S unit) : M S A :=
  fun s =>
    let (r, s') := m s in
    match f s' with
    | (Ok _, s'') => (r, s'')
    | (Throw e, s'') => (Throw e, s'')
    end.

(** A state update that cannot fail. *)
Definition modify {S} (f : S -> S) : M S unit := fun s => (Ok tt, f s).

Definition gets {S A} (f : S -> A) : M S A := fun s => (Ok (f s), s).

(** Running a computation on a component of a larger state. *)
Definition lift {S T A} (get : T -> S) (set : S -> T -> T) (m : M S A)
  : M T A :=
  fun t => let (r, s') := m (get t) in (r, set s' t).

Declare Scope js_scope.
Delimit Scope js_scope with js.
Notation "x <- m ;; k" := (bind m (fun x => k))
  (at level 61, m at next level, right associativity) : js_scope.
Notation "m ;; k" := (bind m (fun _ => k))
  (at level 61, right associativity) : js_scope.

(* ================================================================== *)
(** * [JSON.parse] *)
(* ================================================================== *)

(** The built-in parser the services hand every response to.  The input
    is a string of code units below 256; parsed strings are sequences of
    UTF-16 code units, since an escape [\uXXXX] can denote any of them.
    A number keeps the exact value of its literal. *)
Module JSON.

Local Open Scope char_scope.

Definition ustring : Type := list N.

(** The quotation mark, code unit 34. *)
Definition dquote : ascii := "034".

Definition units (s : string) : ustring :=
  map N_of_ascii (list_ascii_of_string s).

#[warnings="-register-all"]
Inductive value : Type :=
| JNull
| JBool (b : bool)
| JNumber (q : Q)
| JString (s : ustring)
| JArray (items : list value)
| JObject (members : list (ustring * value)).

Definition ustring_eqb (a b : ustring) : bool :=
  if list_eq_dec N.eq_dec a b then true else false.

(** Property read [v.key] on a parsed value: of duplicate members the
    last one wins; anything that is not an object has no members. *)
Fixpoint lookup (key : ustring) (ms : list (ustring * value))
  : option value :=
  match ms with
  | [] => None
  | (k, v) :: rest =>
      match lookup key rest with
      | Some v' => Some v'
      | None => if ustring_eqb k key then Some v else None
      end
  end.

Definition get (key : string) (v : value) : option value :=
  match v with
  | JObject ms => lookup (units key) ms
  | _ => None
  end.

(** ** Lexical layer *)

Definition is_ws (c : ascii) : bool :=
  let n := nat_of_ascii c in
  ((n =? 32) || (n =? 9) || (n =? 10) || (n =? 13))%nat.

Fixpoint skip_ws (cs : list ascii) : list ascii :=
  match cs with
  | c :: r => if is_ws c then skip_ws r else cs
  | [] => []
  end.

Definition digit (c : ascii) : option Z :=
  let n := nat_of_ascii c in
  if ((48 <=? n) && (n <=? 57))%nat then Some (Z.of_nat (n - 48)) else None.

Definition hex (c : ascii) : option N :=
  let n := nat_of_ascii c in
  if ((48 <=? n) && (n <=? 57))%nat then Some (N.of_nat (n - 48))
  else if ((65 <=? n) && (n <=? 70))%nat then Some (N.of_nat (n - 55))
  else if ((97 <=? n) && (n <=? 102))%nat then Some (N.of_nat (n - 87))
  else None.

(** The longest run of decimal digits: its value continuing [acc], its
    length, and what follows. *)
Fixpoint digits (acc : Z) (len : nat) (cs : list ascii)
  : Z * nat * list ascii :=
  match cs with
  | c :: r =>
      match digit c with
      | Some d => digits (acc * 10 + d) (S len) r
      | None => (acc, len, cs)
      end
  | [] => (acc, len, cs)
  end.

(** [m * 10 ^ e] as a rational in lowest terms. *)
Definition decimal (m e : Z) : Q :=
  if (0 <=? e)%Z then inject_Z (m * 10 ^ e)
  else Qred (Qmake m (Z.to_pos (10 ^ (- e)))).

(** int: a single [0], or a non-empty run of digits not starting with
    [0]. *)
Definition int_part (cs : list ascii) : option (Z * list ascii) :=
  match cs with
  | "0" :: r => Some (0%Z, r)
  | _ =>
      match digits 0 0 cs with
      | (_, O, _) => None
      | (n, _, r) => Some (n, r)
      end
  end.

(** frac: [.] and at least one digit; returns the mantissa extended by
    the fraction digits and their number. *)
Definition frac_part (m : Z) (cs : list ascii)
  : option (Z * nat * list ascii) :=
  match cs with
  | "." :: r =>
      match digits m 0 r with
      | (_, O, _) => None
      | res => Some res
      end
  | _ => Some (m, O, cs)
  end.

(** exp: [e] or [E], an optional sign, at least one digit. *)
Definition exp_digits (neg : bool) (cs : list ascii)
  : option (Z * list ascii) :=
  match digits 0 0 cs with
  | (_, O, _) => None
  | (e, _, r) => Some (if neg then (- e)%Z else e, r)
  end.

Definition exp_part (cs : list ascii) : option (Z * list ascii) :=
  match cs with
  | c :: r =>
      if (c =? "e") || (c =? "E") then
        match r with
        | "+" :: r' => exp_digits false r'
        | "-" :: r' => exp_digits true r'
        | _ => exp_digits false r
        end
      else Some (0%Z, cs)
  | [] => Some (0%Z, cs)
  end.

Definition unsigned_number (cs : list ascii) : option (Q * list ascii) :=
  match int_part cs with
  | None => None
  | Some (i, r1) =>
      match frac_part i r1 with
      | None => None
      | Some (m, places, r2) =>
          match exp_part r2 with
          | None => None
          | Some (e, r3) => Some (decimal m (e - Z.of_nat places), r3)
          end
      end
  end.

Definition number (cs : list ascii) : option (Q * list ascii) :=
  match cs with
  | "-" :: r =>
      match unsigned_number r with
      | Some (q, r') => Some (Qopp q, r')
      | None => None
      end
  | _ => unsigned_number cs
  end.

(** The characters after an opening quote, up to and including the
    closing one.  Control characters must be escaped; the escapes are
    the eight single letters and [\u] with four hexadecimal digits. *)
Fixpoint string_body (cs : list ascii) : option (ustring * list ascii) :=
  let cons_to (u : N) (res : option (ustring * list ascii)) :=
    match res with
    | Some (s, r) => Some (u :: s, r)
    | None => None
    end in
  match cs with
  | [] => None
  | c :: r =>
      if c =? dquote then Some ([], r)
      else if c =? "\" then
        match r with
        | [] => None
        | e :: r' =>
            if e =? dquote then cons_to 34%N (string_body r')
            else if e =? "\" then cons_to 92%N (string_body r')
            else if e =? "/" then cons_to 47%N (string_body r')
            else if e =? "b" then cons_to 8%N (string_body r')
            else if e =? "f" then cons_to 12%N (string_body r')
            else if e =? "n" then cons_to 10%N (string_body r')
            else if e =? "r" then cons_to 13%N (string_body r')
            else if e =? "t" then cons_to 9%N (string_body r')
            else if e =? "u" then
              match r' with
              | h1 :: h2 :: h3 :: h4 :: r'' =>
                  match hex h1, hex h2, hex h3, hex h4 with
                  | Some a, Some b, Some c', Some d =>
                      cons_to (((a * 16 + b) * 16 + c') * 16 + d)%N
                              (string_body r'')
                  | _, _, _, _ => None
                  end
              | _ => None
              end
            else None
        end
      else if (nat_of_ascii c <? 32)%nat then None
      else cons_to (N_of_ascii c) (string_body r)
  end.

Definition literal (word : list ascii) (cs : list ascii)
  : option (list ascii) :=
  if list_eq_dec ascii_dec (firstn (List.length word) cs) word
  then Some (skipn (List.length word) cs) else None.

(** ** Values *)

Fixpoint parse_value (fuel : nat) (cs : list ascii) {struct fuel}
  : option (value * list ascii) :=
  match fuel with
  | O => None
  | S fuel' =>
      match skip_ws cs with
      | [] => None
      | c :: r =>
          if c =? "{" then
            match skip_ws r with
            | "}" :: r' => Some (JObject [], r')
            | r0 =>
                match parse_members fuel' r0 with
                | Some (ms, r') => Some (JObject ms, r')
                | None => None
                end
            end
          else if c =? "[" then
            match skip_ws r with
            | "]" :: r' => Some (JArray [], r')
            | r0 =>
                match parse_elements fuel' r0 with
                | Some (vs, r') => Some (JArray vs, r')
                | None => None
                end
            end
          else if c =? dquote then
            match string_body r with
            | Some (s, r') => Some (JString s, r')
            | None => None
            end
          else if c =? "t" then
            match literal ["r"; "u"; "e"] r with
            | Some r' => Some (JBool true, r')
            | None => None
            end
          else if c =? "f" then
            match literal ["a"; "l"; "s"; "e"] r with
            | Some r' => Some (JBool false, r')
            | None => None
            end
          else if c =? "n" then
            match literal ["u"; "l"; "l"] r with
            | Some r' => Some (JNull, r')
            | None => None
            end
          else
            match number (c :: r) with
            | Some (q, r') => Some (JNumber q, r')
            | None => None
            end
      end
  end

with parse_elements (fuel : nat) (cs : list ascii) {struct fuel}
  : option (list value * list ascii) :=
  match fuel with
  | O => None
  | S fuel' =>
      match parse_value fuel' cs with
      | None => None
      | Some (v, r) =>
          match skip_ws r with
          | c :: r' =>
              if c =? "," then
                match parse_elements fuel' r' with
                | Some (vs, r'') => Some (v :: vs, r'')
                | None => None
                end
              else if c =? "]" then Some ([v], r')
              else None
          | [] => None
          end
      end
  end

with parse_members (fuel : nat) (cs : list ascii) {struct fuel}
  : option (list (ustring * value) * list ascii) :=
  match fuel with
  | O => None
  | S fuel' =>
      match skip_ws cs with
      | q :: r =>
          if negb (q =? dquote) then None else
          match string_body r with
          | None => None
          | Some (k, r1) =>
              match skip_ws r1 with
              | ":" :: r2 =>
                  match parse_value fuel' r2 with
                  | None => None
                  | Some (v, r3) =>
                      match skip_ws r3 with
                      | c :: r4 =>
                          if c =? "," then
                            match parse_members fuel' r4 with
                            | Some (ms, r5) => Some ((k, v) :: ms, r5)
                            | None => None
                            end
                          else if c =? "}" then Some ([(k, v)], r4)
                          else None
                      | [] => None
                      end
                  end
              | _ => None
              end
          end
      | [] => None
      end
  end.

(** [JSON.parse(text)]: [None] stands for the SyntaxError it throws.
    Every recursive call is made after at least one character was
    consumed and costs at most two units of fuel. *)
Definition parse (text : string) : option value :=
  let cs := list_ascii_of_string text in
  match parse_value (2 * List.length cs + 2) cs with
  | Some (v, r) =>
      match skip_ws r with
      | [] => Some v
      | _ => None
      end
  | None => None
  end.

End JSON.

(* ================================================================== *)
(** * The outside world *)
(* ================================================================== *)

(** The coordinate type [[number, number]]. *)
Definition LatLng : Type := (Q * Q)%type.

(** The four request shapes sent to [ai.models.generateContent], each
    with the arguments the stage interpolates into its prompt. *)
Inductive Request : Type :=
| ReqScore (locationName : string)
| ReqRoute (start finish : LatLng)
| ReqTrend (lat lng : Q)
| ReqZones (lat lng : Q).

(** [GenerateContentResponse]: [response.text] is a string or
    [undefined]. *)
Record Response : Type := mkResponse { text : option string }.

Inductive LogEntry : Type :=
| WarnRetrying (delay : Q)      (* console.warn in withRetry *)
| ErrorParseFallback             (* console.error in analyzeRouteSafety *)
| ErrorInitialization (e : JsError).

Record World : Type := mkWorld {
  requests : list Request;  (* generateContent calls so far, oldest first *)
  draws : nat;              (* Math.random() calls so far *)
  timers : list Q;          (* awaited setTimeout durations, oldest first *)
  console : list LogEntry;
  sessions : nat;           (* chat sessions created by ai.chats.create *)
  sent : list (nat * string) (* chat.sendMessage calls: (session, message) *)
}.

Definition world0 : World :=
  {| requests := []; draws := 0; timers := []; console := [];
     sessions := 0; sent := [] |}.

(** What the outside answers: the outcome of the [i]-th call of
    [generateContent], the value of the [i]-th [Math.random()], the
    outcome of the [i]-th [sendMessage], and the messages the engine
    puts in the errors it raises itself. *)
Record Env : Type := mkEnv {
  service : nat -> Outcome Response;
  random : nat -> Q;
  chatReply : nat -> Outcome Response;
  syntaxErrorMessage : string -> string;
  typeErrorMessage : string
}.

(** [Math.random()] lies in [0, 1). *)
Definition random_ok (env : Env) : Prop :=
  forall i, (0 <= random env i /\ random env i < 1)%Q.

Section Runtime.

Variable env : Env.
Local Open Scope js_scope.

(** An operation whose [i]-th invocation (counted over the whole run)
    has outcome [op i], and which leaves [req] in the request log. *)
Definition perform {T} (req : Request) (op : nat -> Outcome T)
  : M World T :=
  fun w =>
    (op (List.length (requests w)),
     {| requests := requests w ++ [req]; draws := draws w;
        timers := timers w; console := console w;
        sessions := sessions w; sent := sent w |}).

Definition generateContent (req : Request) : M World Response :=
  perform req (service env).

Definition Math_random : M World Q :=
  fun w =>
    (Ok (random env (draws w)),
     {| requests := requests w; draws := S (draws w);
        timers := timers w; console := console w;
        sessions := sessions w; sent := sent w |}).

(** [await new Promise(r => setTimeout(r, ms))] *)
Definition sleep (ms : Q) : M World unit :=
  modify (fun w =>
    {| requests := requests w; draws := draws w;
       timers := timers w ++ [ms]; console := console w;
       sessions := sessions w; sent := sent w |}).

Definition console_log (l : LogEntry) : M World unit :=
  modify (fun w =>
    {| requests := requests w; draws := draws w;
       timers := timers w; console := console w ++ [l];
       sessions := sessions w; sent := sent w |}).

End Runtime.

(* ================================================================== *)
(** * services/geminiService.ts: the retrying executor *)
(* ================================================================== *)

Module Service.

Local Open Scope string_scope.
Local Open Scope js_scope.

(** The rate-limit signature:
[[
 const errorMsg = error?.message?.toLowerCase() || '';
 const isRateLimit = errorMsg.includes('429') || errorMsg.includes('quota')
                  || errorMsg.includes('exhausted');
]] *)
Definition isRateLimit (error : JsError) : bool :=
  let errorMsg :=
    match message error with
    | Some m => Js.toLowerCase m
    | None => EmptyString
    end in
  Js.includes errorMsg "429" || Js.includes errorMsg "quota"
  || Js.includes errorMsg "exhausted".

Section WithRetry.

Variable env : Env.
Context {T : Type}.

Fixpoint withRetry (fn : M World T) (retries : nat) (delay : Q)
  : M World T :=
  try_catch fn (fun error =>
    match retries with
    | S retries' =>
        if isRateLimit error then
          console_log (WarnRetrying delay) ;;
          r <- Math_random env ;;
          sleep (delay + r * 1000)%Q ;;
          withRetry fn retries' (delay * 2)%Q
        else throw error
    | O => throw error
    end).

End WithRetry.

(** The defaults of [withRetry(fn, retries = 4, delay = 2000)]. *)
Definition default_retries : nat := 4.
Definition default_delay : Q := 2000%Q.

(** ** The four inference stages *)

Import JSON.

(** The object literal returned when the score response does not
    parse. *)
Definition fallback_score : value :=
  JObject
    [ (units "total", JNumber 82);
      (units "lighting", JNumber 85);
      (units "safetyHistory", JNumber 90);
      (units "crowdActivity", JNumber 75);
      (units "description",
       JString (units
         "Standard safe urban zone with consistent lighting and moderate traffic.")) ].

Section Stages.

Variable env : Env.

(** [JSON.parse(response.text.trim())]: a TypeError when
    [response.text] is undefined, a SyntaxError when the trimmed
    text is not JSON. *)
Definition parse_response (response : Response) : M World value :=
  match text response with
  | None => throw (mkError (Some (typeErrorMessage env)))
  | Some t =>
      match JSON.parse (Js.trim t) with
      | Some v => ret v
      | None =>
          throw (mkError (Some (syntaxErrorMessage env (Js.trim t))))
      end
  end.

(** The parse of the score stage sits in a [try] whose [catch] logs
    and returns the fallback. *)
Definition parse_score (response : Response) : M World value :=
  try_catch (parse_response response)
    (fun _ => console_log ErrorParseFallback ;; ret fallback_score).

(** The operation [analyzeRouteSafety] wraps. *)
Definition score_attempt (locationName : string) : M World value :=
  response <- generateContent env (ReqScore locationName) ;;
  parse_score response.

Definition analyzeRouteSafety (locationName : string) : M World value :=
  withRetry env (score_attempt locationName)
    default_retries default_delay.

Definition route_attempt (start finish : LatLng) : M World value :=
  response <- generateContent env (ReqRoute start finish) ;;
  parse_response response.

Definition generateSafeRoute (start finish : LatLng) : M World value :=
  withRetry env (route_attempt start finish)
    default_retries default_delay.

Definition trend_attempt (lat lng : Q) : M World value :=
  response <- generateContent env (ReqTrend lat lng) ;;
  parse_response response.

Definition getRiskTrend (lat lng : Q) : M World value :=
  withRetry env (trend_attempt lat lng) default_retries default_delay.

Definition zones_attempt (lat lng : Q) : M World value :=
  response <- generateContent env (ReqZones lat lng) ;;
  parse_response response.

Definition getThreatZones (lat lng : Q) : M World value :=
  withRetry env (zones_attempt lat lng) default_retries default_delay.

(** [ai.chats.create(...)]: a new session object, here its index. *)
Definition createSafetyChat : M World nat :=
  fun w =>
    (Ok (sessions w),
     {| requests := requests w; draws := draws w; timers := timers w;
        console := console w; sessions := S (sessions w);
        sent := sent w |}).

(** [chat.sendMessage({ message })] on session [chat]. *)
Definition sendMessage (chat : nat) (msg : string) : M World Response :=
  fun w =>
    (chatReply env (List.length (sent w)),
     {| requests := requests w; draws := draws w; timers := timers w;
        console := console w; sessions := sessions w;
        sent := sent w ++ [(chat, msg)] |}).

End Stages.

End Service.

(* ================================================================== *)
(** * App.tsx: staged orchestrator and chat adapter *)
(* ================================================================== *)

Module App.

Local Open Scope string_scope.
Local Open Scope js_scope.
Import JSON.

Inductive Speaker : Type := user | model.

(** A transcript entry [{role, text}]; [text] is [response.text] for a
    reply, which may be undefined. *)
Record ChatMessage : Type := mkMsg { role : Speaker; msg_text : option string }.

(** The [useState] cells and the [useRef] of the component.  Whatever
    [JSON.parse] returned is stored as it is: the TypeScript types are
    erased at run time. *)
Record AppState : Type := mkApp {
  currentLocation : LatLng;
  destinationCoord : LatLng;
  safetyScore : value;       (* null until the first success *)
  threatZones : value;       (* [] until the first success *)
  riskTrend : value;         (* [] until the first success *)
  safeRoute : value;         (* null until the first success *)
  showThreats : bool;
  isSOSActive : bool;
  isLoading : bool;
  isRateLimited : bool;
  chatMessages : list ChatMessage;
  chatInput : string;
  chatInstance : option nat
}.

Definition initial : AppState :=
  {| currentLocation := (407484 # 10000, - (740010 # 10000))%Q;
     destinationCoord := (407580 # 10000, - (739855 # 10000))%Q;
     safetyScore := JNull;
     threatZones := JArray [];
     riskTrend := JArray [];
     safeRoute := JNull;
     showThreats := true;
     isSOSActive := false;
     isLoading := false;
     isRateLimited := false;
     chatMessages := [];
     chatInput := EmptyString;
     chatInstance := None |}.

(** The component state together with the world it runs in. *)
Record St : Type := mkSt { app : AppState; world : World }.

Definition io {A} (m : M World A) : M St A :=
  lift world (fun w s => {| app := app s; world := w |}) m.

Definition update (f : AppState -> AppState) : M St unit :=
  modify (fun s => {| app := f (app s); world := world s |}).

(** Field updates of the component state. *)

Definition with_safetyScore (v : value) (a : AppState) : AppState :=
  mkApp (currentLocation a) (destinationCoord a) v (threatZones a)
        (riskTrend a) (safeRoute a) (showThreats a) (isSOSActive a)
        (isLoading a) (isRateLimited a) (chatMessages a) (chatInput a)
        (chatInstance a).

Definition with_threatZones (v : value) (a : AppState) : AppState :=
  mkApp (currentLocation a) (destinationCoord a) (safetyScore a) v
        (riskTrend a) (safeRoute a) (showThreats a) (isSOSActive a)
        (isLoading a) (isRateLimited a) (chatMessages a) (chatInput a)
        (chatInstance a).

Definition with_riskTrend (v : value) (a : AppState) : AppState :=
  mkApp (currentLocation a) (destinationCoord a) (safetyScore a)
        (threatZones a) v (safeRoute a) (showThreats a) (isSOSActive a)
        (isLoading a) (isRateLimited a) (chatMessages a) (chatInput a)
        (chatInstance a).

Definition with_safeRoute (v : value) (a : AppState) : AppState :=
  mkApp (currentLocation a) (destinationCoord a) (safetyScore a)
        (threatZones a) (riskTrend a) v (showThreats a) (isSOSActive a)
        (isLoading a) (isRateLimited a) (chatMessages a) (chatInput a)
        (chatInstance a).

Definition with_isLoading (b : bool) (a : AppState) : AppState :=
  mkApp (currentLocation a) (destinationCoord a) (safetyScore a)
        (threatZones a) (riskTrend a) (safeRoute a) (showThreats a)
        (isSOSActive a) b (isRateLimited a) (chatMessages a) (chatInput a)
        (chatInstance a).

Definition with_isRateLimited (b : bool) (a : AppState) : AppState :=
  mkApp (currentLocation a) (destinationCoord a) (safetyScore a)
        (threatZones a) (riskTrend a) (safeRoute a) (showThreats a)
        (isSOSActive a) (isLoading a) b (chatMessages a) (chatInput a)
        (chatInstance a).

Definition with_chatMessages (ms : list ChatMessage) (a : AppState) : AppState :=
  mkApp (currentLocation a) (destinationCoord a) (safetyScore a)
        (threatZones a) (riskTrend a) (safeRoute a) (showThreats a)
        (isSOSActive a) (isLoading a) (isRateLimited a) ms (chatInput a)
        (chatInstance a).

Definition with_chatInput (t : string) (a : AppState) : AppState :=
  mkApp (currentLocation a) (destinationCoord a) (safetyScore a)
        (threatZones a) (riskTrend a) (safeRoute a) (showThreats a)
        (isSOSActive a) (isLoading a) (isRateLimited a) (chatMessages a) t
        (chatInstance a).

Definition with_chatInstance (c : option nat) (a : AppState) : AppState :=
  mkApp (currentLocation a) (destinationCoord a) (safetyScore a)
        (threatZones a) (riskTrend a) (safeRoute a) (showThreats a)
        (isSOSActive a) (isLoading a) (isRateLimited a) (chatMessages a)
        (chatInput a) c.

Definition setSafetyScore (v : value) : M St unit :=
  update (with_safetyScore v).
Definition setThreatZones (v : value) : M St unit :=
  update (with_threatZones v).
Definition setRiskTrend (v : value) : M St unit :=
  update (with_riskTrend v).
Definition setSafeRoute (v : value) : M St unit :=
  update (with_safeRoute v).
Definition setIsLoading (b : bool) : M St unit :=
  update (with_isLoading b).
Definition setIsRateLimited (b : bool) : M St unit :=
  update (with_isRateLimited b).
Definition setChatInput (t : string) : M St unit :=
  update (with_chatInput t).
Definition setChatInstance (c : option nat) : M St unit :=
  update (with_chatInstance c).

(** [setChatMessages(prev => [...prev, m])] *)
Definition pushChatMessage (m : ChatMessage) : M St unit :=
  update (fun a => with_chatMessages (chatMessages a ++ [m])%list a).

(** [err?.message?.includes('429')], case sensitive. *)
Definition mentions429 (err : JsError) : bool :=
  match message err with
  | Some m => Js.includes m "429"
  | None => false
  end.

Section Orchestrator.

Variable env : Env.

(** The body of the [try] block of [init]: the four stages in
    order, two seconds apart, each result stored as it arrives. *)
Definition stages : M St unit :=
  here <- gets (fun s => currentLocation (app s)) ;;
  dest <- gets (fun s => destinationCoord (app s)) ;;
  score <- io (Service.analyzeRouteSafety env "Chelsea District") ;;
  setSafetyScore score ;;
  io (sleep 2000%Q) ;;
  zones <- io (Service.getThreatZones env (fst here) (snd here)) ;;
  setThreatZones zones ;;
  io (sleep 2000%Q) ;;
  route <- io (Service.generateSafeRoute env here dest) ;;
  setSafeRoute route ;;
  io (sleep 2000%Q) ;;
  trend <- io (Service.getRiskTrend env (fst here) (snd here)) ;;
  setRiskTrend trend.

Definition init : M St unit :=
  setIsLoading true ;;
  setIsRateLimited false ;;
  try_finally
    (try_catch stages
       (fun err =>
          io (console_log (ErrorInitialization err)) ;;
          if mentions429 err then setIsRateLimited true else ret tt))
    (setIsLoading false).

(** ** Chat adapter *)

Definition busy_reply : string :=
  "Service busy. I'm still watching your route locally.".
Definition weak_reply : string :=
  "Signal weak, but SOS links are active.".

Definition handleSendMessage : M St unit :=
  input <- gets (fun s => chatInput (app s)) ;;
  if negb (Js.truthy (Js.trim input)) then ret tt
  else
    current <- gets (fun s => chatInstance (app s)) ;;
    chat <- match current with
            | Some c => ret c
            | None =>
                c <- io (Service.createSafetyChat) ;;
                setChatInstance (Some c) ;;
                ret c
            end ;;
    let userMsg := input in
    setChatInput EmptyString ;;
    pushChatMessage (mkMsg user (Some userMsg)) ;;
    try_catch
      (response <- io (Service.sendMessage env chat userMsg) ;;
       pushChatMessage (mkMsg model (text response)))
      (fun err =>
         if mentions429 err
         then pushChatMessage (mkMsg model (Some busy_reply))
         else pushChatMessage (mkMsg model (Some weak_reply))).

(** One turn of the chat panel: the user types [t] and sends. *)
Definition sendTurn (t : string) : M St unit :=
  setChatInput t ;; handleSendMessage.

(** Turns sent one after the other, each awaited; an exception ends
    the sequence. *)
Fixpoint sendTurns (ts : list string) : M St unit :=
  match ts with
  | [] => ret tt
  | t :: rest => sendTurn t ;; sendTurns rest
  end.

End Orchestrator.

End App.

(* ================================================================== *)
(** * The mapping view service (Leaflet) *)
(* ================================================================== *)

(** A layer object is known by its identity, a [Handle] drawn from an
    allocation counter.  A map holds the layers currently added to it,
    in the order they were added. *)
Module Leaflet.

Abbreviation Handle := nat (only parsing).

(** [L.divIcon({className, html, iconSize, iconAnchor})]; [html]
    keeps the interpolated fragments of the template, the rest of the
    markup being constant. *)
Record Icon : Type := mkIcon {
  className : string;
  html : list string;
  iconSize : Z * Z;
  iconAnchor : Z * Z
}.

(** Path options; a field the call site leaves out is [None]. *)
Record PathOptions : Type := mkPath {
  color : string;
  fillColor : option string;
  fillOpacity : option Q;
  weight : Q;
  opacity : option Q;
  lineJoin : option string;
  lineCap : option string;
  dashArray : option string
}.

Inductive Layer : Type :=
| TileLayer (url : string)
| Marker (latlng : LatLng) (icon : Icon)
| Polyline (latlngs : list LatLng) (options : PathOptions)
| Circle (center : LatLng) (radius : Q) (options : PathOptions).

Record LMap : Type := mkMap {
  layers : list (Handle * Layer);
  view_center : LatLng;
  view_zoom : Q
}.

Definition with_layers (ls : list (Handle * Layer)) (m : LMap) : LMap :=
  {| layers := ls; view_center := view_center m; view_zoom := view_zoom m |}.

(** [layer.addTo(map)] for a layer object that was just created. *)
Definition addLayer (h : Handle) (l : Layer) (m : LMap) : LMap :=
  with_layers (layers m ++ [(h, l)]) m.

(** [map.removeLayer(layer)]; nothing happens when the layer is not on
    the map. *)
Definition removeLayer (h : Handle) (m : LMap) : LMap :=
  with_layers (filter (fun e => negb (fst e =? h)%nat) (layers m)) m.

(** [marker.setLatLng(pos)], seen from the map the marker is on. *)
Definition setLatLng (h : Handle) (pos : LatLng) (m : LMap) : LMap :=
  with_layers
    (map (fun e =>
            if (fst e =? h)%nat then
              match snd e with
              | Marker _ icon => (fst e, Marker pos icon)
              | _ => e
              end
            else e)
         (layers m)) m.

Definition is_marker (l : Layer) : bool :=
  match l with Marker _ _ => true | _ => false end.
Definition is_polyline (l : Layer) : bool :=
  match l with Polyline _ _ => true | _ => false end.
Definition is_circle (l : Layer) : bool :=
  match l with Circle _ _ _ => true | _ => false end.

(** The layers of one kind on a map, with their handles. *)
Definition of_kind (k : Layer -> bool) (m : LMap) : list (Handle * Layer) :=
  filter (fun e => k (snd e)) (layers m).

Definition tiles_url : string :=
  "https://{s}.tile.basemaps.cartocdn.com/dark_all/{z}/{x}/{y}{r}.png".

End Leaflet.

(** The [ThreatZone] interface of types.ts; [intensity] is the string
    the code compares with ['High'] and ['Medium']. *)
Record ThreatZone : Type := mkZone {
  zone_id : string;
  zone_lat : Q;
  zone_lng : Q;
  zone_radius : Q;
  intensity : string;
  reason : string
}.

(* ================================================================== *)
(** * components/MapComponent.tsx: the React view reconciler *)
(* ================================================================== *)

Module MapComponent.

Import Leaflet.
Local Open Scope string_scope.

(** The props after their defaults were applied. *)
Record Props : Type := mkProps {
  center : LatLng;
  destination : option LatLng;
  routePoints : list LatLng;
  zoom : Q;
  threatZones : list ThreatZone;
  showThreats : bool;
  safetyScore : Q;
  isDistress : bool
}.

(** The four refs that survive between renders, and the allocation
    counter of layer objects. *)
Record Refs : Type := mkRefs {
  next : Handle;
  leafletMap : option LMap;
  userMarkerRef : option Handle;
  routeLayerRef : option Handle;
  threatLayersRef : list Handle
}.

Definition mounted : Refs :=
  {| next := 0; leafletMap := None; userMarkerRef := None;
     routeLayerRef := None; threatLayersRef := [] |}.

Definition userIcon (isDistress : bool) : Icon :=
  {| className := "custom-user-icon";
     html := [ if isDistress then "bg-red-500/40 animate-ping"
               else "bg-pink-500/30 animate-pulse";
               if isDistress then "bg-red-600" else "bg-pink-500" ];
     iconSize := (48, 48)%Z;
     iconAnchor := (24, 24)%Z |}.

Definition routeOptions (isDistress : bool) : PathOptions :=
  let routeColor := if isDistress then "#ef4444" else "#ff007f" in
  {| color := routeColor;
     fillColor := None;
     fillOpacity := None;
     weight := 7%Q;
     opacity := Some (9 # 10)%Q;
     lineJoin := Some "round";
     lineCap := Some "round";
     dashArray := Some (if isDistress then "1, 10" else EmptyString) |}.

Definition zoneColor (zone : ThreatZone) : string :=
  if String.eqb (intensity zone) "High" then "#ef4444"
  else if String.eqb (intensity zone) "Medium" then "#f59e0b"
  else "#3b82f6".

Definition zoneOptions (zone : ThreatZone) : PathOptions :=
  let color := zoneColor zone in
  {| color := color;
     fillColor := Some color;
     fillOpacity := Some (15 # 100)%Q;
     weight := 2%Q;
     opacity := None;
     lineJoin := None;
     lineCap := None;
     dashArray := Some "5, 10" |}.

Definition zoneCircle (zone : ThreatZone) : Layer :=
  Circle (zone_lat zone, zone_lng zone) (zone_radius zone)
         (zoneOptions zone).

(** The points the route line is drawn from:
[[
 routePoints.length > 0 ? routePoints
                        : (destination ? [center, destination] : [])
]] *)
Definition effectivePoints (p : Props) : list LatLng :=
  match routePoints p with
  | _ :: _ => routePoints p
  | [] =>
      match destination p with
      | Some d => [center p; d]
      | None => []
      end
  end.

Section Effect.

(** [window.L] is defined; [mapRef.current] is attached. *)
Variable L_loaded : bool.
Variable container : bool.
Variable p : Props.

(** First block: create the map and its tile layer once. *)
Definition ensureMap (c : Refs) : Refs :=
  match leafletMap c with
  | None =>
      if container then
        {| next := S (next c);
           leafletMap :=
             Some (addLayer (next c) (TileLayer tiles_url)
                     {| layers := []; view_center := center p;
                        view_zoom := zoom p |});
           userMarkerRef := userMarkerRef c;
           routeLayerRef := routeLayerRef c;
           threatLayersRef := threatLayersRef c |}
      else c
  | Some _ => c
  end.

(** Second block: move the marker when there is one, else create
    it with the icon of the current distress flag. *)
Definition syncMarker (c : Refs) : Refs :=
  match leafletMap c with
  | None => c
  | Some m =>
      match userMarkerRef c with
      | Some h =>
          {| next := next c;
             leafletMap := Some (setLatLng h (center p) m);
             userMarkerRef := Some h;
             routeLayerRef := routeLayerRef c;
             threatLayersRef := threatLayersRef c |}
      | None =>
          {| next := S (next c);
             leafletMap :=
               Some (addLayer (next c)
                       (Marker (center p) (userIcon (isDistress p))) m);
             userMarkerRef := Some (next c);
             routeLayerRef := routeLayerRef c;
             threatLayersRef := threatLayersRef c |}
      end
  end.

(** Third block: remove the old line, draw a new one when there are
    points.  The ref keeps its old value when nothing is drawn. *)
Definition syncRoute (c : Refs) : Refs :=
  match leafletMap c with
  | None => c
  | Some m =>
      let m1 := match routeLayerRef c with
                | Some h => removeLayer h m
                | None => m
                end in
      let points := effectivePoints p in
      match points with
      | _ :: _ =>
          {| next := S (next c);
             leafletMap :=
               Some (addLayer (next c)
                       (Polyline points (routeOptions (isDistress p))) m1);
             userMarkerRef := userMarkerRef c;
             routeLayerRef := Some (next c);
             threatLayersRef := threatLayersRef c |}
      | [] =>
          {| next := next c;
             leafletMap := Some m1;
             userMarkerRef := userMarkerRef c;
             routeLayerRef := routeLayerRef c;
             threatLayersRef := threatLayersRef c |}
      end
  end.

(** One iteration of [threatZones.forEach(zone => ...)]. *)
Definition addZone (c : Refs) (zone : ThreatZone) : Refs :=
  match leafletMap c with
  | None => c
  | Some m =>
      {| next := S (next c);
         leafletMap := Some (addLayer (next c) (zoneCircle zone) m);
         userMarkerRef := userMarkerRef c;
         routeLayerRef := routeLayerRef c;
         threatLayersRef := (threatLayersRef c ++ [next c])%list |}
  end.

(** Fourth block: remove every overlay, then draw one per zone when
    [showThreats] is set. *)
Definition syncThreats (c : Refs) : Refs :=
  match leafletMap c with
  | None => c
  | Some m =>
      let cleared :=
        {| next := next c;
           leafletMap :=
             Some (fold_left (fun m' layer => removeLayer layer m')
                             (threatLayersRef c) m);
           userMarkerRef := userMarkerRef c;
           routeLayerRef := routeLayerRef c;
           threatLayersRef := [] |} in
      if showThreats p then fold_left addZone (threatZones p) cleared
      else cleared
  end.

(** The body of the [useEffect]. *)
Definition effect (c : Refs) : Refs :=
  if negb L_loaded then c
  else syncThreats (syncRoute (syncMarker (ensureMap c))).

End Effect.

(** The states the component can be in: freshly mounted, or after
    another run of the effect with any props. *)
Inductive reachable : Refs -> Prop :=
| reach_mounted : reachable mounted
| reach_effect : forall L_loaded container p c,
    reachable c -> reachable (effect L_loaded container p c).

End MapComponent.

(* ================================================================== *)
(** * The standalone script: its executor and its reconciler *)
(* ================================================================== *)

Module Vanilla.

Import Leaflet.
Local Open Scope string_scope.
Local Open Scope js_scope.

Definition isRateLimit (error : JsError) : bool :=
  let msg :=
    match message error with
    | Some m => Js.toLowerCase m
    | None => EmptyString
    end in
  Js.includes msg "429" || Js.includes msg "quota"
  || Js.includes msg "exhausted".

(** [withRetry(fn, retries = 3, delay = 2000)]: the same executor
    without jitter. *)
Fixpoint withRetry {T} (fn : M World T) (retries : nat) (delay : Q)
  : M World T :=
  try_catch fn (fun error =>
    match retries with
    | S retries' =>
        if isRateLimit error then
          console_log (WarnRetrying delay) ;;
          sleep delay ;;
          withRetry fn retries' (delay * 2)%Q
        else throw error
    | O => throw error
    end).

(** The fields of the global [state] the map engine reads, and the
    four globals it keeps its layer objects in. *)
Record State : Type := mkState {
  isSOSActive : bool;
  currentLocation : LatLng;
  safeRoute : option (list LatLng);
  threatZones : list ThreatZone;
  next : Handle;
  map : option LMap;
  userMarker : option Handle;
  routeLine : option Handle;
  threatOverlays : list Handle
}.

Definition start : State :=
  {| isSOSActive := false;
     currentLocation := (407484 # 10000, - (740010 # 10000))%Q;
     safeRoute := None;
     threatZones := [];
     next := 0; map := None; userMarker := None; routeLine := None;
     threatOverlays := [] |}.

Definition icon (sos : bool) : Icon :=
  {| className := "custom-div-icon";
     html := [ if sos then "bg-red-600 shadow-[0_0_20px_#ef4444]"
               else EmptyString ];
     iconSize := (24, 24)%Z;
     iconAnchor := (12, 12)%Z |}.

Definition routeOptions (sos : bool) : PathOptions :=
  {| color := if sos then "#ef4444" else "#ff007f";
     fillColor := None; fillOpacity := None;
     weight := 6%Q; opacity := Some (8 # 10)%Q;
     lineJoin := None; lineCap := None; dashArray := None |}.

Definition zoneColor (z : ThreatZone) : string :=
  if String.eqb (intensity z) "High" then "#ef4444" else "#f59e0b".

Definition zoneCircle (z : ThreatZone) : Layer :=
  let color := zoneColor z in
  Circle (zone_lat z, zone_lng z) (zone_radius z)
    {| color := color; fillColor := Some color;
       fillOpacity := Some (1 # 10)%Q; weight := 1%Q; opacity := None;
       lineJoin := None; lineCap := None; dashArray := None |}.

Definition remove_opt (h : option Handle) (m : LMap) : LMap :=
  match h with Some x => removeLayer x m | None => m end.

(** One iteration of [state.threatZones.forEach(z => ...)]: the map,
    the counter and [threatOverlays] after it. *)
Definition addZone (acc : LMap * Handle * list Handle) (z : ThreatZone)
  : LMap * Handle * list Handle :=
  let '(m, n, overlays) := acc in
  (addLayer n (zoneCircle z) m, S n, (overlays ++ [n])%list).

Definition updateMap (s : State) : State :=
  match map s with
  | None => s
  | Some m =>
      let m1 := remove_opt (userMarker s) m in
      let m2 := remove_opt (routeLine s) m1 in
      let m3 := fold_left (fun m' o => removeLayer o m')
                          (threatOverlays s) m2 in
      let hm := next s in
      let m4 := addLayer hm
                  (Marker (currentLocation s) (icon (isSOSActive s))) m3 in
      let '(m5, n5, line) :=
        match safeRoute s with
        | Some pts =>
            (addLayer (S hm) (Polyline pts (routeOptions (isSOSActive s))) m4,
             S (S hm), Some (S hm))
        | None => (m4, S hm, routeLine s)
        end in
      let '(m6, n6, overlays) :=
        fold_left addZone (threatZones s) (m5, n5, []) in
      {| isSOSActive := isSOSActive s;
         currentLocation := currentLocation s;
         safeRoute := safeRoute s;
         threatZones := threatZones s;
         next := n6; map := Some m6; userMarker := Some hm;
         routeLine := line; threatOverlays := overlays |}
  end.

(** [initMap]: nothing without the container or when the map exists;
    otherwise create the map with its tile layer and reconcile. *)
Definition initMap (container : bool) (s : State) : State :=
  if negb container then s
  else match map s with
       | Some _ => s
       | None =>
           updateMap
             {| isSOSActive := isSOSActive s;
                currentLocation := currentLocation s;
                safeRoute := safeRoute s;
                threatZones := threatZones s;
                next := S (next s);
                map := Some (addLayer (next s) (TileLayer tiles_url)
                               {| layers := [];
                                  view_center := currentLocation s;
                                  view_zoom := 14%Q |});
                userMarker := userMarker s;
                routeLine := routeLine s;
                threatOverlays := threatOverlays s |}
       end.

(** [window.triggerSOS]: flip the flag and, with a map, reconcile. *)
Definition triggerSOS (s : State) : State :=
  let s' :=
    {| isSOSActive := negb (isSOSActive s);
       currentLocation := currentLocation s;
       safeRoute := safeRoute s;
       threatZones := threatZones s;
       next := next s; map := map s; userMarker := userMarker s;
       routeLine := routeLine s; threatOverlays := threatOverlays s |} in
  match map s' with Some _ => updateMap s' | None => s' end.

(** What the orchestrator stores before it reconciles. *)
Definition setData (route : option (list LatLng)) (zones : list ThreatZone)
           (s : State) : State :=
  {| isSOSActive := isSOSActive s;
     currentLocation := currentLocation s;
     safeRoute := route;
     threatZones := zones;
     next := next s; map := map s; userMarker := userMarker s;
     routeLine := routeLine s; threatOverlays := threatOverlays s |}.

Inductive reachable : State -> Prop :=
| reach_start : reachable start
| reach_initMap : forall container s,
    reachable s -> reachable (initMap container s)
| reach_updateMap : forall s, reachable s -> reachable (updateMap s)
| reach_triggerSOS : forall s, reachable s -> reachable (triggerSOS s)
| reach_setData : forall route zones s,
    reachable s -> reachable (setData route zones s).

End Vanilla.

(* ================================================================== *)
(** * Specification vocabulary and sample data *)
(* ================================================================== *)

Unset Implicit Arguments.

(** ** For the retrying executor *)

(** An attempt calls for a retry when it failed with the rate-limit
    signature. *)
Definition rate_limited {T} (isRL : JsError -> bool) (o : Outcome T) : bool :=
  match o with
  | Throw e => isRL e
  | Ok _ => false
  end.

(** How many retries a budget of [retries] buys against the script
    [op] from its [c]-th invocation on. *)
Fixpoint retries_taken {T} (isRL : JsError -> bool) (op : nat -> Outcome T)
         (c retries : nat) : nat :=
  match retries with
  | O => O
  | S r =>
      if rate_limited isRL (op c) then S (retries_taken isRL op (S c) r)
      else O
  end.

(** The first [k] waits of the jittered executor. *)
Fixpoint jittered (rnd : nat -> Q) (d : nat) (delay : Q) (k : nat) : list Q :=
  match k with
  | O => []
  | S k' =>
      (delay + rnd d * 1000)%Q :: jittered rnd (S d) (delay * 2)%Q k'
  end.

(** The first [k] waits of the executor without jitter. *)
Fixpoint doubling (delay : Q) (k : nat) : list Q :=
  match k with
  | O => []
  | S k' => delay :: doubling (delay * 2)%Q k'
  end.

Fixpoint warnings (delay : Q) (k : nat) : list LogEntry :=
  match k with
  | O => []
  | S k' => WarnRetrying delay :: warnings (delay * 2)%Q k'
  end.

(** [2 ^ j] as a rational. *)
Definition pow2 (j : nat) : Q := inject_Z (2 ^ Z.of_nat j).

(** The contract of an executor [run] whose retryable failures are
    recognised by [isRL], over every operation (script [op], logged as
    [req]), budget, initial delay and starting world:
    - between one and [retries + 1] attempts are made, one more than
      the number of waits;
    - the outcome is that of the last attempt, as it is;
    - when the first [n] attempts are rate limited and either the next
      one is not or the budget is at most [n], exactly
      [min retries n] retries are made;
    - a failure without the signature on the first attempt gives one
      attempt and that failure;
    - when the budget runs out on rate-limited failures, the last of
      them is the failure thrown. *)
Definition retry_contract (isRL : JsError -> bool)
           (run : forall T, M World T -> nat -> Q -> M World T) : Prop :=
  forall (T : Type) (req : Request) (op : nat -> Outcome T)
         (retries : nat) (delay : Q) (w : World),
    let first := List.length (requests w) in
    let out := run T (perform req op) retries delay w in
    let attempts := List.length (requests (snd out)) - first in
    let retried := List.length (timers (snd out)) - List.length (timers w) in
    (1 <= attempts <= retries + 1) /\
    attempts = retried + 1 /\
    fst out = op (first + retried) /\
    (forall n,
        (forall i, i < n -> rate_limited isRL (op (first + i)) = true) ->
        rate_limited isRL (op (first + n)) = false \/ retries <= n ->
        retried = Nat.min retries n) /\
    (forall e,
        op first = Throw e -> isRL e = false ->
        attempts = 1 /\ fst out = Throw e) /\
    (forall e,
        (forall i, i < retries ->
                   rate_limited isRL (op (first + i)) = true) ->
        op (first + retries) = Throw e ->
        attempts = retries + 1 /\ fst out = Throw e).

(** An executor [run] hands on what any operation [fn] whatsoever
    gives it: a result at once, and a failure at once when it lacks the
    rate-limit signature or no retry is left. *)
Definition passes_through (isRL : JsError -> bool)
           (run : forall T, M World T -> nat -> Q -> M World T) : Prop :=
  forall (T : Type) (fn : M World T) (retries : nat) (delay : Q)
         (w w' : World),
    (forall a, fn w = (Ok a, w') -> run T fn retries delay w = (Ok a, w'))
    /\ (forall e,
           fn w = (Throw e, w') ->
           isRL e = false \/ retries = 0 ->
           run T fn retries delay w = (Throw e, w')).

Module Sample.

Local Open Scope string_scope.

Definition quota_error : JsError :=
  mkError (Some "429 RESOURCE_EXHAUSTED: You exceeded your current quota").

Definition server_error : JsError :=
  mkError (Some "500 Internal Server Error").

(** Two rate-limited failures, then success. *)
Definition flaky (i : nat) : Outcome nat :=
  if (i <? 2)%nat then Throw quota_error else Ok 7.

(** A failure without the signature at once. *)
Definition broken (i : nat) : Outcome nat := Throw server_error.

(** Rate limited for ever. *)
Definition throttled (i : nat) : Outcome nat := Throw quota_error.

Definition silent (i : nat) : Outcome Response := Throw server_error.

(** An engine with V8's messages, every service call failing, and
    [Math.random()] stuck at one half. *)
Definition env0 : Env :=
  {| service := silent;
     random := fun _ => (1 # 2)%Q;
     chatReply := silent;
     syntaxErrorMessage := fun _ => "Unexpected token in JSON";
     typeErrorMessage :=
       "Cannot read properties of undefined (reading 'trim')" |}.

(** [Math.random()] gives 0.9 first and 0 afterwards. *)
Definition env_jitter : Env :=
  {| service := silent;
     random := fun i => match i with O => (9 # 10)%Q | _ => 0%Q end;
     chatReply := silent;
     syntaxErrorMessage := fun _ => "Unexpected token in JSON";
     typeErrorMessage :=
       "Cannot read properties of undefined (reading 'trim')" |}.

End Sample.

(** ** For the stage parsers *)

Definition numeric_fields : list string :=
  ["total"; "lighting"; "safetyHistory"; "crowdActivity"]%string.

(** The response schema of the score request: the four numeric fields
    and the description are present with their types. *)
Definition score_shape (v : JSON.value) : Prop :=
  Forall (fun k => exists q, JSON.get k v = Some (JSON.JNumber q))
         numeric_fields
  /\ exists d, JSON.get "description" v = Some (JSON.JString d).

(** The four numeric fields are numbers between 0 and 100. *)
Definition in_range (v : JSON.value) : Prop :=
  Forall (fun k => exists q, JSON.get k v = Some (JSON.JNumber q)
                             /\ (0 <= q /\ q <= 100)%Q)
         numeric_fields.

(** The response carries a text that [JSON.parse] turns into [v]. *)
Definition parses_to (response : Response) (v : JSON.value) : Prop :=
  exists t, text response = Some t /\ JSON.parse (Js.trim t) = Some v.

(** The response has no text, or one that is not JSON. *)
Definition unparseable (response : Response) : Prop :=
  match text response with
  | None => True
  | Some t => JSON.parse (Js.trim t) = None
  end.

Definition logged (l : LogEntry) (w : World) : World :=
  {| requests := requests w; draws := draws w; timers := timers w;
     console := console w ++ [l]; sessions := sessions w; sent := sent w |}.

Definition requested (req : Request) (w : World) : World :=
  {| requests := requests w ++ [req]; draws := draws w; timers := timers w;
     console := console w; sessions := sessions w; sent := sent w |}.

Module SampleText.

Local Open Scope string_scope.

(** [s] between quotation marks. *)
Definition quoted (s : string) : string :=
  String JSON.dquote (s ++ String JSON.dquote EmptyString).

(** A score object with the given [total] literal. *)
Definition score_text (total : string) : string :=
  " {" ++ quoted "total" ++ ": " ++ total ++ ", "
       ++ quoted "lighting" ++ ": 85, "
       ++ quoted "safetyHistory" ++ ": 90, "
       ++ quoted "crowdActivity" ++ ": 75, "
       ++ quoted "description" ++ ": " ++ quoted "Busy avenue" ++ "} ".

Definition score_value (total : Q) : JSON.value :=
  JSON.JObject
    [ (JSON.units "total", JSON.JNumber total);
      (JSON.units "lighting", JSON.JNumber 85);
      (JSON.units "safetyHistory", JSON.JNumber 90);
      (JSON.units "crowdActivity", JSON.JNumber 75);
      (JSON.units "description", JSON.JString (JSON.units "Busy avenue")) ].

Definition good : Response := mkResponse (Some (score_text "64")).
Definition hot : Response := mkResponse (Some (score_text "150")).
Definition prose : Response :=
  mkResponse (Some "Sorry, I cannot help with that.").
Definition empty : Response := mkResponse None.

Definition zones_text : string :=
  "[{" ++ quoted "id" ++ ":" ++ quoted "z1" ++ ","
       ++ quoted "lat" ++ ":40.75,"
       ++ quoted "lng" ++ ":-74.0,"
       ++ quoted "radius" ++ ":300,"
       ++ quoted "intensity" ++ ":" ++ quoted "High" ++ ","
       ++ quoted "reason" ++ ":" ++ quoted "Poor lighting" ++ "}]".

Definition trend_text : string :=
  "[{" ++ quoted "time" ++ ":" ++ quoted "18:00" ++ ","
       ++ quoted "score" ++ ":70}]".

(** The service answers every request with [r]. *)
Definition answering (r : Response) : Env :=
  {| service := fun _ => Ok r;
     random := random Sample.env0;
     chatReply := fun _ => Ok r;
     syntaxErrorMessage := syntaxErrorMessage Sample.env0;
     typeErrorMessage := typeErrorMessage Sample.env0 |}.

End SampleText.

(** ** For the staged orchestrator *)

(** The world after an awaited timer of [ms] milliseconds. *)
Definition slept (ms : Q) (w : World) : World :=
  {| requests := requests w; draws := draws w; timers := timers w ++ [ms];
     console := console w; sessions := sessions w; sent := sent w |}.

(** A start-up in which the score and the zones arrive, the route
    request is refused with a server error, and a trend is ready for
    whoever asks next. *)
Module Scenario.

Definition script (i : nat) : Outcome Response :=
  match i with
  | 0 => Ok SampleText.good
  | 1 => Ok (mkResponse (Some SampleText.zones_text))
  | 2 => Throw Sample.server_error
  | _ => Ok (mkResponse (Some SampleText.trend_text))
  end.

Definition env : Env :=
  {| service := script;
     random := random Sample.env0;
     chatReply := chatReply Sample.env0;
     syntaxErrorMessage := syntaxErrorMessage Sample.env0;
     typeErrorMessage := typeErrorMessage Sample.env0 |}.

Definition boot : App.St := {| App.app := App.initial; App.world := world0 |}.

Definition here : LatLng := App.currentLocation App.initial.
Definition dest : LatLng := App.destinationCoord App.initial.

End Scenario.

(** ** For the chat adapter *)

(** The guard of [handleSendMessage]: the input is not blank. *)
Definition sendable (t : string) : bool := Js.truthy (Js.trim t).

(** The session a turn sent from [s] talks to: the one the ref holds,
    else the one [createSafetyChat] is about to make. *)
Definition session_of (s : App.St) : nat :=
  match App.chatInstance (App.app s) with
  | Some c => c
  | None => sessions (App.world s)
  end.

(** How many sessions a turn sent from [s] creates. *)
Definition sessions_made (s : App.St) : nat :=
  match App.chatInstance (App.app s) with
  | Some _ => 0
  | None => 1
  end.

(** The transcript entry that answers the [i]-th [sendMessage]: the
    reply, or one of the two canned texts chosen by the error. *)
Definition answer (env : Env) (i : nat) : App.ChatMessage :=
  match chatReply env i with
  | Ok response => App.mkMsg App.model (text response)
  | Throw err =>
      App.mkMsg App.model
        (Some (if App.mentions429 err then App.busy_reply
               else App.weak_reply))
  end.

(** The state a sendable turn [t] leaves behind. *)
Definition after_turn (env : Env) (t : string) (s : App.St) : App.St :=
  let a := App.app s in
  let w := App.world s in
  {| App.app :=
       App.with_chatMessages
         (App.chatMessages a
            ++ [App.mkMsg App.user (Some t);
                answer env (List.length (sent w))])
         (App.with_chatInput EmptyString
            (App.with_chatInstance (Some (session_of s)) a));
     App.world :=
       {| requests := requests w; draws := draws w; timers := timers w;
          console := console w;
          sessions := sessions w + sessions_made s;
          sent := sent w ++ [(session_of s, t)] |} |}.

(** The state a blank turn leaves behind: only the input box differs. *)
Definition after_blank (t : string) (s : App.St) : App.St :=
  {| App.app := App.with_chatInput t (App.app s); App.world := App.world s |}.

Module Talk.

Local Open Scope string_scope.

(** The first reply arrives, the second call is throttled, every
    later one fails otherwise. *)
Definition replies (i : nat) : Outcome Response :=
  match i with
  | 0 => Ok (mkResponse (Some "Stay on the lit side of 8th Avenue."))
  | 1 => Throw Sample.quota_error
  | _ => Throw Sample.server_error
  end.

Definition env : Env :=
  {| service := service Sample.env0;
     random := random Sample.env0;
     chatReply := replies;
     syntaxErrorMessage := syntaxErrorMessage Sample.env0;
     typeErrorMessage := typeErrorMessage Sample.env0 |}.

Definition turns : list string :=
  ["Is 8th Avenue safe?"; "   "; "And 9th?"; "Hello?"].

End Talk.

(** ** For the view reconcilers *)

Import Leaflet.
Import MapComponent.

(** The handles of a list of layers. *)
Definition handles (ls : list (Handle * Layer)) : list Handle := map fst ls.

(** The handle of an entry is none of [hs]. *)
Definition keep (hs : list Handle) (e : Handle * Layer) : bool :=
  negb (existsb (Nat.eqb (fst e)) hs).

(** What the reconciler owns on a map [m] whose markers, polylines and
    circles are [mks], [pls] and [cis]: handles are distinct and below
    the allocation counter [n]; the only marker is the one of the
    marker ref; the only polyline is the one of the route ref, which
    otherwise names nothing on the map; and the circles are those of
    the overlay refs, in order. *)
Definition Owned (n : Handle) (m : LMap) (marker route : option Handle)
           (overlays : list Handle) (mks pls cis : list (Handle * Layer))
  : Prop :=
  NoDup (handles (layers m))
  /\ Forall (fun e => fst e < n) (layers m)
  /\ of_kind is_marker m = mks
  /\ of_kind is_polyline m = pls
  /\ of_kind is_circle m = cis
  /\ match marker with
     | None => mks = []
     | Some h => exists pos ic, mks = [(h, Marker pos ic)]
     end
  /\ match route with
     | None => pls = []
     | Some h =>
         h < n
         /\ ((exists pts o, pls = [(h, Polyline pts o)])
             \/ (pls = [] /\ ~ In h (handles (layers m))))
     end
  /\ handles cis = overlays.

Definition moved (h : nat) (pos : LatLng) (e : nat * Layer) : nat * Layer :=
  if fst e =? h then
    match snd e with
    | Marker _ icon => (fst e, Marker pos icon)
    | _ => e
    end
  else e.

(** The refs of [c] own the map [m], whose markers, polylines and
    circles are [mks], [pls] and [cis]. *)
Definition owned (c : Refs) (m : LMap) (mks pls cis : list (nat * Layer))
  : Prop :=
  leafletMap c = Some m
  /\ Owned (next c) m (userMarkerRef c) (routeLayerRef c)
           (threatLayersRef c) mks pls cis.

(** Without a map the refs are empty; with one they own it. *)
Definition inv (c : Refs) : Prop :=
  match leafletMap c with
  | None =>
      userMarkerRef c = None /\ routeLayerRef c = None
      /\ threatLayersRef c = []
  | Some m => exists mks pls cis, owned c m mks pls cis
  end.

(** The marker after a run: the old one moved, or a new one with
    handle [n]. *)
Definition marker_after (p : Props) (n : nat) (mks : list (nat * Layer))
  : nat * Layer :=
  match mks with
  | (h, Marker _ ic) :: _ => (h, Marker (center p) ic)
  | _ => (n, Marker (center p) (userIcon (isDistress p)))
  end.

(** The polylines after a run whose new line, if any, gets handle [n]. *)
Definition route_after (p : Props) (n : nat) : list (nat * Layer) :=
  match effectivePoints p with
  | [] => []
  | pts => [(n, Polyline pts (routeOptions (isDistress p)))]
  end.

(** The circles after a run whose overlays get the handles from [n]
    on. *)
Definition circles_after (p : Props) (n : nat) : list (nat * Layer) :=
  if showThreats p
  then combine (seq n (List.length (threatZones p)))
               (map zoneCircle (threatZones p))
  else [].

(** The globals of [s] own the map [m]. *)
Definition vowned (s : Vanilla.State) (m : LMap)
           (mks pls cis : list (nat * Layer)) : Prop :=
  Vanilla.map s = Some m
  /\ Owned (Vanilla.next s) m (Vanilla.userMarker s) (Vanilla.routeLine s)
           (Vanilla.threatOverlays s) mks pls cis.

Definition vinv (s : Vanilla.State) : Prop :=
  match Vanilla.map s with
  | None =>
      Vanilla.userMarker s = None /\ Vanilla.routeLine s = None
      /\ Vanilla.threatOverlays s = []
  | Some m => exists mks pls cis, vowned s m mks pls cis
  end.

(** The polylines after [updateMap]; the new line gets handle [n]. *)
Definition vroute_after (s : Vanilla.State) (n : nat) : list (nat * Layer) :=
  match Vanilla.safeRoute s with
  | Some pts =>
      [(n, Polyline pts (Vanilla.routeOptions (Vanilla.isSOSActive s)))]
  | None => []
  end.

(** The visible content of a map: its markers, polylines and circles
    without their handles. *)
Definition visible (m : LMap) : list Layer * list Layer * list Layer :=
  (map snd (of_kind is_marker m),
   map snd (of_kind is_polyline m),
   map snd (of_kind is_circle m)).

(** The props after the distress flag was flipped. *)
Definition toggleDistress (p : Props) : Props :=
  {| center := center p; destination := destination p;
     routePoints := routePoints p; zoom := zoom p;
     threatZones := threatZones p; showThreats := showThreats p;
     safetyScore := safetyScore p; isDistress := negb (isDistress p) |}.

Module Demo.

Local Open Scope string_scope.

Definition here : LatLng := (407484 # 10000, - (740010 # 10000))%Q.
Definition dest : LatLng := (407580 # 10000, - (739855 # 10000))%Q.

Definition zone (name level : string) : ThreatZone :=
  {| zone_id := name; zone_lat := (4075 # 100)%Q;
     zone_lng := (- (74 # 1))%Q; zone_radius := 300%Q;
     intensity := level; reason := "Poor lighting" |}.

Definition zones : list ThreatZone :=
  [zone "z1" "High"; zone "z2" "Medium"; zone "z3" "Low"].

(** Scenario A: a destination, no route points, no zones. *)
Definition scenarioA : Props :=
  {| center := here; destination := Some dest; routePoints := [];
     zoom := 14%Q; threatZones := []; showThreats := true;
     safetyScore := 85%Q; isDistress := false |}.

(** Three zones, shown or hidden. *)
Definition threats (shown : bool) : Props :=
  {| center := here; destination := Some dest; routePoints := [];
     zoom := 14%Q; threatZones := zones; showThreats := shown;
     safetyScore := 85%Q; isDistress := false |}.

(** The standalone script once its map is up, holding three zones. *)
Definition script : Vanilla.State :=
  Vanilla.updateMap
    (Vanilla.setData (Some [here; dest]) zones
                     (Vanilla.initMap true Vanilla.start)).

End Demo.

(** ** For the stages of the service module *)

(** An operation that behaves as the script [op] does and leaves
    [req] in the request log, whatever it writes to the console. *)
Definition scripted {T} (req : Request) (op : nat -> Outcome T)
           (fn : M World T) : Prop :=
  forall w,
    fst (fn w) = op (List.length (requests w))
    /\ requests (snd (fn w)) = (requests w ++ [req])%list
    /\ draws (snd (fn w)) = draws w
    /\ timers (snd (fn w)) = timers w
    /\ sessions (snd (fn w)) = sessions w
    /\ sent (snd (fn w)) = sent w.

(** The error [JSON.parse(response.text.trim())] throws on a response
    it cannot read: a TypeError without a text, a SyntaxError
    otherwise. *)
Definition parse_error (env : Env) (response : Response) : JsError :=
  match text response with
  | None => mkError (Some (typeErrorMessage env))
  | Some t => mkError (Some (syntaxErrorMessage env (Js.trim t)))
  end.

(** What [JSON.parse(response.text.trim())] gives or throws. *)
Definition response_outcome (env : Env) (response : Response)
  : Outcome JSON.value :=
  match text response with
  | None => Throw (parse_error env response)
  | Some t =>
      match JSON.parse (Js.trim t) with
      | Some v => Ok v
      | None => Throw (parse_error env response)
      end
  end.

(** The outcome of the attempt of a zones, route or trend stage that
    makes the [i]-th request. *)
Definition plain_outcome (env : Env) (i : nat) : Outcome JSON.value :=
  match service env i with
  | Throw e => Throw e
  | Ok response => response_outcome env response
  end.

(** The same for the score stage, whose parse failures turn into the
    fallback. *)
Definition score_outcome (env : Env) (i : nat) : Outcome JSON.value :=
  match service env i with
  | Throw e => Throw e
  | Ok response =>
      match response_outcome env response with
      | Ok v => Ok v
      | Throw _ => Ok Service.fallback_score
      end
  end.

(** The stage that sends the request [req], and the outcome of its
    attempt that makes the [i]-th request. *)
Definition stage_of (env : Env) (req : Request) : M World JSON.value :=
  match req with
  | ReqScore locationName => Service.analyzeRouteSafety env locationName
  | ReqRoute start finish => Service.generateSafeRoute env start finish
  | ReqTrend lat lng => Service.getRiskTrend env lat lng
  | ReqZones lat lng => Service.getThreatZones env lat lng
  end.

Definition attempt_outcome (env : Env) (req : Request) (i : nat)
  : Outcome JSON.value :=
  match req with
  | ReqScore _ => score_outcome env i
  | _ => plain_outcome env i
  end.

Definition is_score (req : Request) : bool :=
  match req with ReqScore _ => true | _ => false end.

(** The sum of a list of durations. *)
Definition total (l : list Q) : Q := fold_right Qplus 0%Q l.

(** The three signatures of a rate-limited failure. *)
Definition signatures : list string := ["429"; "quota"; "exhausted"]%string.

Module SampleEnv.

(** Every service call is refused for quota. *)
Definition env_throttled : Env :=
  {| service := fun _ => Throw Sample.quota_error;
     random := random Sample.env0;
     chatReply := chatReply Sample.env0;
     syntaxErrorMessage := syntaxErrorMessage Sample.env0;
     typeErrorMessage := typeErrorMessage Sample.env0 |}.

(** An engine that quotes the offending text in its SyntaxError, as V8
    does, and a service that answers the text [t] every time. *)
Definition env_quoting (t : string) : Env :=
  {| service := fun _ => Ok (mkResponse (Some t));
     random := random Sample.env0;
     chatReply := chatReply Sample.env0;
     syntaxErrorMessage :=
       fun s => ("Unexpected token in JSON: " ++ s)%string;
     typeErrorMessage := typeErrorMessage Sample.env0 |}.

End SampleEnv.

(** ** For a whole run of the orchestrator *)

(** The state a run of [stages] from [s] ends in, and its outcome,
    spelled out stage by stage. *)
Definition stages_result (env : Env) (s : App.St) : Outcome unit * App.St :=
  let a := App.app s in
  let here := App.currentLocation a in
  let dest := App.destinationCoord a in
  match Service.analyzeRouteSafety env "Chelsea District" (App.world s) with
  | (Throw e, w1) => (Throw e, App.mkSt a w1)
  | (Ok score, w1) =>
      let a1 := App.with_safetyScore score a in
      match Service.getThreatZones env (fst here) (snd here)
                                   (slept 2000 w1) with
      | (Throw e, w2) => (Throw e, App.mkSt a1 w2)
      | (Ok zones, w2) =>
          let a2 := App.with_threatZones zones a1 in
          match Service.generateSafeRoute env here dest (slept 2000 w2) with
          | (Throw e, w3) => (Throw e, App.mkSt a2 w3)
          | (Ok route, w3) =>
              let a3 := App.with_safeRoute route a2 in
              match Service.getRiskTrend env (fst here) (snd here)
                                         (slept 2000 w3) with
              | (Throw e, w4) => (Throw e, App.mkSt a3 w4)
              | (Ok trend, w4) =>
                  (Ok tt, App.mkSt (App.with_riskTrend trend a3) w4)
              end
          end
      end
  end.

(** The state [init] starts its [try] block in. *)
Definition init_entry (s : App.St) : App.St :=
  App.mkSt (App.with_isRateLimited false
              (App.with_isLoading true (App.app s)))
           (App.world s).

(** The state a run of [init] from [s] ends in. *)
Definition init_result (env : Env) (s : App.St) : App.St :=
  match stages_result env (init_entry s) with
  | (Ok _, s') =>
      App.mkSt (App.with_isLoading false (App.app s')) (App.world s')
  | (Throw e, s') =>
      App.mkSt
        (App.with_isLoading false
           (if App.mentions429 e
            then App.with_isRateLimited true (App.app s')
            else App.app s'))
        (logged (ErrorInitialization e) (App.world s'))
  end.

(** The state of the component outside the four inference fields and
    the two flags of [init]. *)
Definition bystanders (a : App.AppState)
  : LatLng * LatLng * bool * bool * list App.ChatMessage * string
    * option nat :=
  (App.currentLocation a, App.destinationCoord a, App.showThreats a,
   App.isSOSActive a, App.chatMessages a, App.chatInput a,
   App.chatInstance a).

(** The four inference fields and the two flags. *)
Definition inferred (a : App.AppState)
  : JSON.value * JSON.value * JSON.value * JSON.value * bool * bool :=
  (App.safetyScore a, App.threatZones a, App.riskTrend a, App.safeRoute a,
   App.isLoading a, App.isRateLimited a).

(** The transcript entries a conversation adds when its first message
    is the [i]-th ever sent. *)
Fixpoint transcript (env : Env) (i : nat) (ts : list string)
  : list App.ChatMessage :=
  match ts with
  | [] => []
  | t :: rest =>
      if sendable t
      then App.mkMsg App.user (Some t) :: answer env i
             :: transcript env (S i) rest
      else transcript env i rest
  end.

(** ** For the map under the overlays *)

Definition is_tile (l : Layer) : bool :=
  match l with TileLayer _ => true | _ => false end.

(** What a map is created with: its tile layers and its view. *)
Definition base (m : LMap) : list (nat * Layer) * LatLng * Q :=
  (of_kind is_tile m, view_center m, view_zoom m).

(** How many lines and circles the props ask for. *)
Definition lines_wanted (p : Props) : nat :=
  match effectivePoints p with [] => 0 | _ => 1 end.

Definition circles_wanted (p : Props) : nat :=
  if showThreats p then List.length (threatZones p) else 0.

(* ================================================================== *)
(** * Properties of the retrying executor *)
(* ================================================================== *)

Lemma retries_taken_le {T} isRL (op : nat -> Outcome T) retries :
  forall c, retries_taken isRL op c retries <= retries.
Proof.
  induction retries as [|r IH]; intros c; simpl.
  - lia.
  - destruct (rate_limited isRL (op c)); [specialize (IH (S c))|]; lia.
Qed.

Lemma retries_taken_min {T} isRL (op : nat -> Outcome T) retries :
  forall c n,
    (forall i, i < n -> rate_limited isRL (op (c + i)) = true) ->
    rate_limited isRL (op (c + n)) = false \/ retries <= n ->
    retries_taken isRL op c retries = Nat.min retries n.
Proof.
  induction retries as [|r IH]; intros c n Hpre Hstop; simpl.
  - reflexivity.
  - destruct n as [|n].
    + destruct Hstop as [Hstop|Hstop]; [|lia].
      rewrite Nat.add_0_r in Hstop. rewrite Hstop. reflexivity.
    + rewrite <- (Nat.add_0_r c) at 1. rewrite (Hpre 0) by lia.
      f_equal. apply IH.
      * intros i Hi. replace (S c + i) with (c + S i) by lia.
        apply Hpre. lia.
      * replace (S c + n) with (c + S n) by lia.
        destruct Hstop; [left; assumption | right; lia].
Qed.

Lemma jittered_length rnd k : forall d delay,
  List.length (jittered rnd d delay k) = k.
Proof. induction k; intros; simpl; [|rewrite IHk]; reflexivity. Qed.

Lemma doubling_length k : forall delay, List.length (doubling delay k) = k.
Proof. induction k; intros; simpl; [|rewrite IHk]; reflexivity. Qed.

(** What a run of the jittered executor returns and leaves behind. *)
Lemma service_withRetry_run env T req (op : nat -> Outcome T) retries :
  forall delay w,
    let k := retries_taken Service.isRateLimit op
                           (List.length (requests w)) retries in
    Service.withRetry env (perform req op) retries delay w =
    (op (List.length (requests w) + k),
     {| requests := requests w ++ repeat req (S k);
        draws := draws w + k;
        timers := timers w ++ jittered (random env) (draws w) delay k;
        console := console w ++ warnings delay k;
        sessions := sessions w;
        sent := sent w |}).
Proof.
  induction retries as [|r IH]; intros delay w.
  - simpl. unfold try_catch, perform.
    rewrite !Nat.add_0_r, !app_nil_r.
    destruct (op (List.length (requests w))); reflexivity.
  - cbn [Service.withRetry retries_taken]. unfold try_catch at 1.
    unfold perform at 1.
    destruct (op (List.length (requests w))) as [a|e] eqn:Hop; cbn [rate_limited].
    + simpl. rewrite !Nat.add_0_r, Hop, !app_nil_r. reflexivity.
    + destruct (Service.isRateLimit e) eqn:Hrl.
      * unfold bind at 1. unfold console_log at 1, modify at 1.
        unfold bind at 1. unfold Math_random at 1.
        unfold bind at 1. unfold sleep at 1, modify at 1.
        rewrite IH. cbn [requests draws timers console sessions sent].
        rewrite length_app. cbn [List.length].
        replace (List.length (requests w) + 1) with (S (List.length (requests w))) by lia.
        set (k := retries_taken _ _ _ _).
        f_equal.
        -- f_equal. lia.
        -- cbn [jittered warnings repeat].
           rewrite <- !app_assoc. cbn [app].
           f_equal. lia.
      * unfold throw. simpl. rewrite !Nat.add_0_r, Hop, !app_nil_r.
        reflexivity.
Qed.

(** The same for the executor of the standalone script. *)
Lemma vanilla_withRetry_run T req (op : nat -> Outcome T) retries :
  forall delay w,
    let k := retries_taken Vanilla.isRateLimit op
                           (List.length (requests w)) retries in
    Vanilla.withRetry (perform req op) retries delay w =
    (op (List.length (requests w) + k),
     {| requests := requests w ++ repeat req (S k);
        draws := draws w;
        timers := timers w ++ doubling delay k;
        console := console w ++ warnings delay k;
        sessions := sessions w;
        sent := sent w |}).
Proof.
  induction retries as [|r IH]; intros delay w.
  - simpl. unfold try_catch, perform.
    rewrite !Nat.add_0_r, !app_nil_r.
    destruct (op (List.length (requests w))); reflexivity.
  - cbn [Vanilla.withRetry retries_taken]. unfold try_catch at 1.
    unfold perform at 1.
    destruct (op (List.length (requests w))) as [a|e] eqn:Hop; cbn [rate_limited].
    + simpl. rewrite !Nat.add_0_r, Hop, !app_nil_r. reflexivity.
    + destruct (Vanilla.isRateLimit e) eqn:Hrl.
      * unfold bind at 1. unfold console_log at 1, modify at 1.
        unfold bind at 1. unfold sleep at 1, modify at 1.
        rewrite IH. cbn [requests draws timers console sessions sent].
        rewrite length_app. cbn [List.length].
        replace (List.length (requests w) + 1) with (S (List.length (requests w))) by lia.
        set (k := retries_taken _ _ _ _).
        f_equal.
        -- f_equal. lia.
        -- cbn [doubling warnings repeat].
           rewrite <- !app_assoc. cbn [app].
           reflexivity.
      * unfold throw. simpl. rewrite !Nat.add_0_r, Hop, !app_nil_r.
        reflexivity.
Qed.

(** The contract follows from the shape of a run. *)
Lemma retry_contract_of_run (isRL : JsError -> bool)
      (run : forall T, M World T -> nat -> Q -> M World T) :
  (forall T req (op : nat -> Outcome T) retries delay w,
      let k := retries_taken isRL op (List.length (requests w)) retries in
      fst (run T (perform req op) retries delay w)
      = op (List.length (requests w) + k)
      /\ requests (snd (run T (perform req op) retries delay w))
         = requests w ++ repeat req (S k)
      /\ List.length (timers (snd (run T (perform req op) retries delay w)))
         = List.length (timers w) + k) ->
  retry_contract isRL run.
Proof.
  intros Hrun T req op retries delay w first out attempts retried.
  destruct (Hrun T req op retries delay w) as (Hres & Hreq & Htim).
  fold first in Hres, Hreq, Htim. fold out in Hres, Hreq, Htim.
  set (k := retries_taken isRL op first retries) in *.
  assert (Hk : k <= retries) by apply retries_taken_le.
  assert (Ha : attempts = S k).
  { unfold attempts. rewrite Hreq, length_app, repeat_length.
    unfold first. lia. }
  assert (Hr : retried = k) by (unfold retried; rewrite Htim; lia).
  rewrite Ha, Hr, Hres.
  repeat split; try lia.
  - intros n Hpre Hstop. apply retries_taken_min; assumption.
  - assert (Hz : k = 0).
    { unfold k. rewrite (@retries_taken_min T isRL op retries first 0).
      - apply Nat.min_0_r.
      - intros i Hi; lia.
      - left. rewrite Nat.add_0_r, H. exact H0. }
    lia.
  - assert (Hz : k = 0).
    { unfold k. rewrite (@retries_taken_min T isRL op retries first 0).
      - apply Nat.min_0_r.
      - intros i Hi; lia.
      - left. rewrite Nat.add_0_r, H. exact H0. }
    rewrite Hz, Nat.add_0_r. exact H.
  - assert (Hz : k = retries).
    { unfold k. rewrite (@retries_taken_min T isRL op retries first retries).
      - apply Nat.min_id.
      - assumption.
      - right; lia. }
    lia.
  - assert (Hz : k = retries).
    { unfold k. rewrite (@retries_taken_min T isRL op retries first retries).
      - apply Nat.min_id.
      - assumption.
      - right; lia. }
    rewrite Hz. assumption.
Qed.

Lemma service_passes_through env :
  passes_through Service.isRateLimit (fun T => @Service.withRetry env T).
Proof.
  intros T fn retries delay w w'. split.
  - intros a Hfn. destruct retries; simpl; unfold try_catch;
      rewrite Hfn; reflexivity.
  - intros e Hfn [Hrl | ->]; [destruct retries|]; simpl; unfold try_catch;
      rewrite Hfn, ?Hrl; reflexivity.
Qed.

Lemma vanilla_passes_through :
  passes_through Vanilla.isRateLimit (@Vanilla.withRetry).
Proof.
  intros T fn retries delay w w'. split.
  - intros a Hfn. destruct retries; simpl; unfold try_catch;
      rewrite Hfn; reflexivity.
  - intros e Hfn [Hrl | ->]; [destruct retries|]; simpl; unfold try_catch;
      rewrite Hfn, ?Hrl; reflexivity.
Qed.

(** C3.  Both executors, the jittered one of the service module and
    the one of the standalone script, keep the retry contract: at most
    [retries + 1] attempts; exactly [min retries n] retries when [n]
    rate-limited failures come first; one attempt when the first
    failure lacks the rate-limit signature; and the failure of the last
    attempt is the failure thrown, unchanged, also when the budget ran
    out.  Whatever the wrapped operation, its result, its failure
    without the signature and its failure on an empty budget come back
    as they are. *)
Theorem withRetry_contract (env : Env) :
  (retry_contract Service.isRateLimit (fun T => @Service.withRetry env T)
   /\ passes_through Service.isRateLimit
                     (fun T => @Service.withRetry env T))
  /\ (retry_contract Vanilla.isRateLimit (@Vanilla.withRetry)
      /\ passes_through Vanilla.isRateLimit (@Vanilla.withRetry)).
Proof.
  split; (split; [apply retry_contract_of_run;
                  intros T req op retries delay w k|]).
  - rewrite service_withRetry_run. cbn [fst snd requests timers].
    fold k. rewrite length_app, jittered_length. auto.
  - apply service_passes_through.
  - rewrite vanilla_withRetry_run. cbn [fst snd requests timers].
    fold k. rewrite length_app, doubling_length. auto.
  - apply vanilla_passes_through.
Qed.


Lemma env_jitter_random_ok : random_ok Sample.env_jitter.
Proof.
  intros [|i]; simpl; split; try discriminate; reflexivity.
Defined.

(** The contract of C3 at work on the jittered executor with the
    default budget of four: two rate-limited failures cost two retries;
    a server error costs none and is thrown; endless throttling costs
    five attempts and throws the throttling error. *)
Lemma withRetry_contract_witness :
  let run op := Service.withRetry Sample.env0
                  (perform (ReqScore "Chelsea District") op) 4 2000%Q world0 in
  List.length (timers (snd (run Sample.flaky))) - 0 = Nat.min 4 2
  /\ (List.length (requests (snd (run Sample.broken))) - 0 = 1
      /\ fst (run Sample.broken) = Throw Sample.server_error)
  /\ (List.length (requests (snd (run Sample.throttled))) - 0 = 4 + 1
      /\ fst (run Sample.throttled) = Throw Sample.quota_error)
  /\ @Service.withRetry Sample.env0 nat (throw Sample.server_error) 4
                        2000%Q world0
     = (Throw Sample.server_error, world0).
Proof.
  intros run.
  destruct (withRetry_contract Sample.env0) as [[Hservice Hpass] _].
  split; [|split; [|split]].
  - destruct (Hservice nat (ReqScore "Chelsea District"%string) Sample.flaky
                       4 2000%Q world0) as (_ & _ & _ & Hmin & _).
    apply (Hmin 2).
    + intros [|[|i]] Hi; [reflexivity | reflexivity | lia].
    + left; reflexivity.
  - destruct (Hservice nat (ReqScore "Chelsea District"%string) Sample.broken
                       4 2000%Q world0) as (_ & _ & _ & _ & Hfirst & _).
    apply Hfirst; reflexivity.
  - destruct (Hservice nat (ReqScore "Chelsea District"%string)
                       Sample.throttled 4 2000%Q world0)
      as (_ & _ & _ & _ & _ & Hlast).
    apply Hlast; [intros i Hi|]; reflexivity.
  - destruct (Hpass nat (throw Sample.server_error) 4 2000%Q world0 world0)
      as [_ Hfail].
    apply Hfail; [reflexivity | left; reflexivity].
Defined.

(** ** The backoff schedule *)

Lemma pow2_S j : (pow2 (S j) == 2 * pow2 j)%Q.
Proof.
  unfold pow2. rewrite Nat2Z.inj_succ, Z.pow_succ_r by lia.
  rewrite inject_Z_mult. reflexivity.
Qed.

Lemma pow2_0 : (pow2 0 == 1)%Q.
Proof. reflexivity. Qed.







(* ================================================================== *)
(** * Properties of the stage parsers *)
(* ================================================================== *)

Lemma parse_response_ok env response v w :
  parses_to response v ->
  Service.parse_response env response w = (Ok v, w).
Proof.
  intros (t & Ht & Hp). unfold Service.parse_response.
  rewrite Ht, Hp. reflexivity.
Qed.

Lemma parse_response_throws env response w :
  unparseable response ->
  exists e, Service.parse_response env response w = (Throw e, w).
Proof.
  unfold unparseable, Service.parse_response.
  destruct (text response) as [t|]; intros H.
  - rewrite H. eexists; reflexivity.
  - eexists; reflexivity.
Qed.

Lemma fallback_in_range : in_range Service.fallback_score.
Proof.
  unfold in_range, numeric_fields.
  repeat constructor; eexists; (split; [reflexivity|]); split; discriminate.
Qed.

Lemma fallback_shape : score_shape Service.fallback_score.
Proof.
  split.
  - unfold numeric_fields. repeat constructor; eexists; reflexivity.
  - eexists; reflexivity.
Qed.

(** C5, as the code has it.  The score stage returns what [JSON.parse]
    returned, untouched, so its numeric fields are in range exactly
    when those of the response are; a response that does not parse
    gives the one fixed fallback score, which is in range; and in the
    zones, route and trend stages the same response makes the attempt
    throw instead. *)
Theorem score_parser (env : Env) :
  (forall response v w,
      parses_to response v ->
      Service.parse_score env response w = (Ok v, w))
  /\ (forall response w,
         unparseable response ->
         Service.parse_score env response w
         = (Ok Service.fallback_score, logged ErrorParseFallback w))
  /\ (in_range Service.fallback_score /\ score_shape Service.fallback_score)
  /\ (forall response w,
         service env (List.length (requests w)) = Ok response ->
         unparseable response ->
         (forall loc,
             Service.score_attempt env loc w
             = (Ok Service.fallback_score,
                logged ErrorParseFallback (requested (ReqScore loc) w)))
         /\ (forall lat lng, exists e,
                Service.zones_attempt env lat lng w
                = (Throw e, requested (ReqZones lat lng) w))
         /\ (forall start finish, exists e,
                Service.route_attempt env start finish w
                = (Throw e, requested (ReqRoute start finish) w))
         /\ (forall lat lng, exists e,
                Service.trend_attempt env lat lng w
                = (Throw e, requested (ReqTrend lat lng) w))).
Proof.
  assert (Hfb : forall response w,
             unparseable response ->
             Service.parse_score env response w
             = (Ok Service.fallback_score, logged ErrorParseFallback w)).
  { intros response w Hun. unfold Service.parse_score, try_catch.
    destruct (@parse_response_throws env response w Hun) as [e He].
    rewrite He. reflexivity. }
  split; [|split; [exact Hfb|split]].
  - intros response v w Hp. unfold Service.parse_score, try_catch.
    rewrite (@parse_response_ok env response v w Hp). reflexivity.
  - split; [apply fallback_in_range | apply fallback_shape].
  - intros response w Hsvc Hun.
    split; [|split; [|split]]; intros.
    + unfold Service.score_attempt, bind, generateContent, perform.
      rewrite Hsvc. apply Hfb. exact Hun.
    + destruct (@parse_response_throws env response
                  (requested (ReqZones lat lng) w) Hun)
        as [e He].
      exists e. unfold Service.zones_attempt, bind, generateContent, perform.
      rewrite Hsvc. exact He.
    + destruct (@parse_response_throws env response
                  (requested (ReqRoute start finish) w) Hun) as [e He].
      exists e. unfold Service.route_attempt, bind, generateContent, perform.
      rewrite Hsvc. exact He.
    + destruct (@parse_response_throws env response
                  (requested (ReqTrend lat lng) w) Hun)
        as [e He].
      exists e. unfold Service.trend_attempt, bind, generateContent, perform.
      rewrite Hsvc. exact He.
Qed.

Lemma good_parses : parses_to SampleText.good (SampleText.score_value 64).
Proof. eexists; split; [reflexivity | vm_compute; reflexivity]. Defined.

Lemma hot_parses : parses_to SampleText.hot (SampleText.score_value 150).
Proof. eexists; split; [reflexivity | vm_compute; reflexivity]. Defined.

Lemma prose_unparseable : unparseable SampleText.prose.
Proof. vm_compute; reflexivity. Defined.

Lemma score_parser_witness :
  Service.parse_score Sample.env0 SampleText.good world0
  = (Ok (SampleText.score_value 64), world0)
  /\ Service.parse_score Sample.env0 SampleText.prose world0
     = (Ok Service.fallback_score, logged ErrorParseFallback world0)
  /\ exists e,
       Service.route_attempt (SampleText.answering SampleText.prose)
                             (0, 0)%Q (1, 1)%Q world0
       = (Throw e, requested (ReqRoute (0, 0)%Q (1, 1)%Q) world0).
Proof.
  destruct (score_parser Sample.env0) as (Hok & Hfb & _ & _).
  split; [|split].
  - apply Hok. exact good_parses.
  - apply Hfb. exact prose_unparseable.
  - destruct (score_parser (SampleText.answering SampleText.prose))
      as (_ & _ & _ & Hstage).
    destruct (Hstage SampleText.prose world0 eq_refl
                     prose_unparseable)
      as (_ & _ & Hroute & _).
    destruct (Hroute (0, 0)%Q (1, 1)%Q) as [e He].
    exists e. exact He.
Defined.

(** C5 as stated fails: a response of the expected shape whose [total]
    is 150 is returned as it is, with [total] out of range. *)
Lemma score_out_of_range :
  parses_to SampleText.hot (SampleText.score_value 150)
  /\ score_shape (SampleText.score_value 150)
  /\ Service.parse_score Sample.env0 SampleText.hot world0
     = (Ok (SampleText.score_value 150), world0)
  /\ ~ in_range (SampleText.score_value 150).
Proof.
  split; [exact hot_parses|]. split; [|split].
  - split.
    + unfold numeric_fields. repeat constructor; eexists; reflexivity.
    + eexists; reflexivity.
  - vm_compute. reflexivity.
  - intros Hr. unfold in_range, numeric_fields in Hr.
    inversion Hr as [|k ks (q & Hq & _ & Hle) _]; subst.
    vm_compute in Hq. injection Hq as <-.
    apply Hle. reflexivity.
Qed.

(* ================================================================== *)
(** * Properties of the staged orchestrator *)
(* ================================================================== *)

(** ** Stepping through sequential code *)

Lemma bind_ok {S A B} (m : M S A) (k : A -> M S B) s a s' :
  m s = (Ok a, s') -> bind m k s = k a s'.
Proof. intros H. unfold bind. rewrite H. reflexivity. Qed.

Lemma bind_throw {S A B} (m : M S A) (k : A -> M S B) s e s' :
  m s = (Throw e, s') -> bind m k s = (Throw e, s').
Proof. intros H. unfold bind. rewrite H. reflexivity. Qed.

Lemma io_run {A} (m : M World A) (s : App.St) r w' :
  m (App.world s) = (r, w') ->
  App.io m s = (r, {| App.app := App.app s; App.world := w' |}).
Proof. intros H. unfold App.io, lift. rewrite H. reflexivity. Qed.

Lemma sleep_run ms w : sleep ms w = (Ok tt, slept ms w).
Proof. reflexivity. Qed.

(** The [try] block when the third stage throws. *)
Lemma stages_route_failure (env : Env) (s : App.St)
      (score zones : JSON.value) (e : JsError) (w1 w2 w3 : World) :
  let here := App.currentLocation (App.app s) in
  let dest := App.destinationCoord (App.app s) in
  Service.analyzeRouteSafety env "Chelsea District" (App.world s)
  = (Ok score, w1) ->
  Service.getThreatZones env (fst here) (snd here) (slept 2000 w1)
  = (Ok zones, w2) ->
  Service.generateSafeRoute env here dest (slept 2000 w2)
  = (Throw e, w3) ->
  App.stages env s
  = (Throw e,
     {| App.app := App.with_threatZones zones
                     (App.with_safetyScore score (App.app s));
        App.world := w3 |}).
Proof.
  intros here dest H1 H2 H3. unfold App.stages.
  erewrite bind_ok by reflexivity.
  erewrite bind_ok by reflexivity.
  erewrite bind_ok by (apply io_run; exact H1).
  erewrite bind_ok by reflexivity.
  erewrite bind_ok by (apply io_run; apply sleep_run).
  erewrite bind_ok by (apply io_run; exact H2).
  erewrite bind_ok by reflexivity.
  erewrite bind_ok by (apply io_run; apply sleep_run).
  erewrite bind_throw by (apply io_run; exact H3).
  reflexivity.
Qed.

(** C1, as the code has it.  When the score and zones stages succeed
    and the route stage throws, the run of [init] still ends normally
    with the loading flag cleared and the route field as it was, the
    score and the zones stored; but the failure leaves the [try] block:
    no inter-stage wait and no request follow it, and the trend field
    keeps its old value. *)
Theorem init_route_failure (env : Env) (s : App.St)
        (score zones : JSON.value) (e : JsError) (w1 w2 w3 : World) :
  let here := App.currentLocation (App.app s) in
  let dest := App.destinationCoord (App.app s) in
  Service.analyzeRouteSafety env "Chelsea District" (App.world s)
  = (Ok score, w1) ->
  Service.getThreatZones env (fst here) (snd here) (slept 2000 w1)
  = (Ok zones, w2) ->
  Service.generateSafeRoute env here dest (slept 2000 w2)
  = (Throw e, w3) ->
  let out := App.init env s in
  let a := App.app (snd out) in
  fst out = Ok tt
  /\ App.safeRoute a = App.safeRoute (App.app s)
  /\ App.isLoading a = false
  /\ App.safetyScore a = score
  /\ App.threatZones a = zones
  /\ App.riskTrend a = App.riskTrend (App.app s)
  /\ requests (App.world (snd out)) = requests w3
  /\ timers (App.world (snd out)) = timers w3.
Proof.
  intros here dest H1 H2 H3 out a.
  pose (s0 := {| App.app := App.with_isRateLimited false
                              (App.with_isLoading true (App.app s));
                 App.world := App.world s |}).
  assert (Hst := @stages_route_failure env s0 score zones e w1 w2 w3
                   H1 H2 H3).
  assert (Hout : out =
    (Ok tt,
     {| App.app :=
          App.with_isLoading false
            ((if App.mentions429 e then App.with_isRateLimited true
              else fun x => x)
               (App.with_threatZones zones
                  (App.with_safetyScore score (App.app s0))));
        App.world := logged (ErrorInitialization e) w3 |})).
  { unfold out, App.init.
    erewrite bind_ok by reflexivity.
    erewrite bind_ok by reflexivity.
    unfold try_finally, try_catch.
    match goal with
    | |- context [App.stages env ?x] => change x with s0
    end.
    rewrite Hst.
    erewrite bind_ok by (apply io_run; reflexivity).
    destruct (App.mentions429 e); reflexivity. }
  unfold a. rewrite Hout.
  destruct (App.mentions429 e); repeat split; reflexivity.
Qed.

Lemma init_route_failure_witness :
  let out := App.init Scenario.env Scenario.boot in
  fst out = Ok tt
  /\ App.safeRoute (App.app (snd out)) = JSON.JNull
  /\ App.isLoading (App.app (snd out)) = false
  /\ App.safetyScore (App.app (snd out)) = SampleText.score_value 64
  /\ App.riskTrend (App.app (snd out)) = JSON.JArray [].
Proof.
  edestruct (@init_route_failure Scenario.env Scenario.boot)
    as (Hok & Hroute & Hload & Hscore & _ & Htrend & _).
  - vm_compute. reflexivity.
  - vm_compute. reflexivity.
  - vm_compute. reflexivity.
  - repeat split; assumption.
Defined.

(** C1 as stated fails: in that start-up the route request fails once,
    without the rate-limit signature; the run ends with the route
    [null] and the loading flag cleared, but the trend request, which
    would have been answered, is never sent and the trend stays
    empty. *)
Lemma init_skips_trend_after_route_failure :
  let out := App.init Scenario.env Scenario.boot in
  let a := App.app (snd out) in
  (service Scenario.env 2 = Throw Sample.server_error
   /\ Service.isRateLimit Sample.server_error = false)
  /\ (exists r v, service Scenario.env 3 = Ok r /\ parses_to r v)
  /\ App.safeRoute a = JSON.JNull
  /\ App.isLoading a = false
  /\ requests (App.world (snd out))
     = [ ReqScore "Chelsea District";
         ReqZones (fst Scenario.here) (snd Scenario.here);
         ReqRoute Scenario.here Scenario.dest ]
  /\ ~ In (ReqTrend (fst Scenario.here) (snd Scenario.here))
          (requests (App.world (snd out)))
  /\ App.riskTrend a = JSON.JArray [].
Proof.
  assert (Hreq :
    requests (App.world (snd (App.init Scenario.env Scenario.boot)))
    = [ ReqScore "Chelsea District";
        ReqZones (fst Scenario.here) (snd Scenario.here);
        ReqRoute Scenario.here Scenario.dest ])
    by (vm_compute; reflexivity).
  cbv zeta. rewrite Hreq.
  split; [split; vm_compute; reflexivity|].
  split.
  { eexists; eexists. split; [reflexivity|].
    eexists; split; [reflexivity | vm_compute; reflexivity]. }
  repeat split; try (vm_compute; reflexivity).
  intros [H|[H|[H|[]]]]; discriminate H.
Qed.

(* ================================================================== *)
(** * Properties of the chat adapter *)
(* ================================================================== *)

Lemma sendTurn_blank env t s :
  sendable t = false ->
  App.sendTurn env t s = (Ok tt, after_blank t s).
Proof.
  intros H. unfold App.sendTurn.
  erewrite bind_ok by reflexivity.
  unfold App.handleSendMessage.
  erewrite bind_ok by reflexivity.
  cbn [App.app App.chatInput App.with_chatInput].
  unfold sendable in H. rewrite H. reflexivity.
Qed.

Lemma sendTurn_sendable env t s :
  sendable t = true ->
  App.sendTurn env t s = (Ok tt, after_turn env t s).
Proof.
  intros H. unfold App.sendTurn.
  erewrite bind_ok by reflexivity.
  unfold App.handleSendMessage.
  erewrite bind_ok by reflexivity.
  cbn [App.app App.chatInput App.with_chatInput].
  unfold sendable in H. rewrite H. cbn [negb].
  erewrite bind_ok by reflexivity.
  unfold after_turn, answer, session_of, sessions_made.
  destruct s as [a w]. cbn [App.app App.world].
  destruct a as [loc dst sc tz rt sr st sos ld rl msgs inp inst].
  cbn [App.chatInstance App.with_chatInput App.chatMessages].
  destruct inst as [c|]; unfold bind, try_catch, App.io, lift, ret,
    App.setChatInput, App.setChatInstance, App.pushChatMessage,
    App.update, modify, Service.sendMessage, Service.createSafetyChat;
    cbn [App.app App.world sent sessions];
    (destruct (chatReply env (List.length (sent w))) as [r|err];
     [|destruct (App.mentions429 err)]);
    unfold App.update, modify, App.with_chatMessages, App.with_chatInput,
      App.with_chatInstance;
    cbn [App.app App.world App.chatMessages App.chatInput
         App.chatInstance App.currentLocation App.destinationCoord
         App.safetyScore App.threatZones App.riskTrend App.safeRoute
         App.showThreats App.isSOSActive App.isLoading App.isRateLimited];
    rewrite ?Nat.add_0_r, ?Nat.add_1_r, <- ?app_assoc;
    reflexivity.
Qed.

Lemma session_of_after_turn env t s :
  session_of (after_turn env t s) = session_of s.
Proof. reflexivity. Qed.

Lemma sessions_made_after_turn env t s :
  sessions_made (after_turn env t s) = 0.
Proof. reflexivity. Qed.

(** A whole conversation: it never throws, talks to one session, makes
    at most that one, and leaves requests and timers alone. *)
Lemma sendTurns_run env ts :
  forall s,
    let out := App.sendTurns env ts s in
    fst out = Ok tt
    /\ sent (App.world (snd out))
       = sent (App.world s)
         ++ map (pair (session_of s)) (filter sendable ts)
    /\ sessions (App.world (snd out))
       = sessions (App.world s)
         + (if existsb sendable ts then sessions_made s else 0)
    /\ requests (App.world (snd out)) = requests (App.world s)
    /\ timers (App.world (snd out)) = timers (App.world s).
Proof.
  induction ts as [|t ts IH]; intros s.
  - simpl. rewrite app_nil_r, Nat.add_0_r. repeat split; reflexivity.
  - cbn [App.sendTurns filter existsb map].
    destruct (sendable t) eqn:Ht.
    + cbv zeta. erewrite bind_ok by (apply sendTurn_sendable; exact Ht).
      destruct (IH (after_turn env t s)) as (H1 & H2 & H3 & H4 & H5).
      rewrite H1, H2, H3, H4, H5.
      rewrite session_of_after_turn, sessions_made_after_turn.
      cbn [after_turn App.world sent sessions requests timers orb map].
      rewrite <- app_assoc.
      destruct (existsb sendable ts); rewrite ?Nat.add_0_r;
        repeat split; reflexivity.
    + cbv zeta. erewrite bind_ok by (apply sendTurn_blank; exact Ht).
      destruct (IH (after_blank t s)) as (H1 & H2 & H3 & H4 & H5).
      rewrite H1, H2, H3, H4, H5.
      repeat split; reflexivity.
Qed.

(** C9, as the code has it.  A turn whose text is not blank talks to
    the session of the ref, creating it when the ref is empty; sends
    the text once; appends the user turn and then the reply or, on
    failure, the canned text the error selects; and touches neither the
    inference requests nor the timers.  A blank turn only rewrites the
    input box.  A conversation from the start creates one session if
    any of its turns is sent, none otherwise, and sends every turn to
    that session. *)
Theorem chat_adapter (env : Env) :
  (forall t s,
      sendable t = true ->
      let out := App.sendTurn env t s in
      let s' := snd out in
      fst out = Ok tt
      /\ App.chatInstance (App.app s') = Some (session_of s)
      /\ sessions (App.world s') = sessions (App.world s) + sessions_made s
      /\ sent (App.world s') = sent (App.world s) ++ [(session_of s, t)]
      /\ App.chatMessages (App.app s')
         = App.chatMessages (App.app s)
           ++ [App.mkMsg App.user (Some t);
               answer env (List.length (sent (App.world s)))]
      /\ requests (App.world s') = requests (App.world s)
      /\ timers (App.world s') = timers (App.world s))
  /\ (forall t s,
         sendable t = false ->
         App.sendTurn env t s = (Ok tt, after_blank t s))
  /\ (forall ts,
         let out := App.sendTurns env ts Scenario.boot in
         fst out = Ok tt
         /\ sessions (App.world (snd out))
            = (if existsb sendable ts then 1 else 0)
         /\ sent (App.world (snd out))
            = map (pair 0) (filter sendable ts)).
Proof.
  split; [|split].
  - intros t s Ht out s'. unfold s', out.
    rewrite (@sendTurn_sendable env t s Ht).
    repeat split; reflexivity.
  - intros t s Ht. apply sendTurn_blank. exact Ht.
  - intros ts out.
    destruct (@sendTurns_run env ts Scenario.boot) as (H1 & H2 & H3 & _).
    fold out in H1, H2, H3. rewrite H1, H2, H3.
    repeat split; reflexivity.
Qed.

Lemma chat_adapter_witness :
  let out := App.sendTurns Talk.env Talk.turns Scenario.boot in
  sessions (App.world (snd out)) = 1
  /\ sent (App.world (snd out))
     = [(0, "Is 8th Avenue safe?"); (0, "And 9th?"); (0, "Hello?")]%string
  /\ App.sendTurn Talk.env "   " Scenario.boot
     = (Ok tt, after_blank "   " Scenario.boot)
  /\ App.chatMessages
       (App.app (snd (App.sendTurn Talk.env "Is 8th Avenue safe?"
                                   Scenario.boot)))
     = [ App.mkMsg App.user (Some "Is 8th Avenue safe?"%string);
         App.mkMsg App.model
                   (Some "Stay on the lit side of 8th Avenue."%string) ].
Proof.
  destruct (chat_adapter Talk.env) as (Hturn & Hblank & Hall).
  destruct (Hall Talk.turns) as (_ & Hs & Hsent).
  destruct (Hturn "Is 8th Avenue safe?"%string Scenario.boot eq_refl)
    as (_ & _ & _ & _ & Hmsgs & _).
  split; [exact Hs|]. split; [exact Hsent|]. split.
  - apply Hblank. reflexivity.
  - exact Hmsgs.
Defined.

(** C9 as stated fails for a blank turn: nothing is appended to the
    transcript and no session is created. *)
Lemma blank_turn_appends_nothing :
  let out := App.sendTurn Talk.env "   " Scenario.boot in
  sendable "   " = false
  /\ fst out = Ok tt
  /\ App.chatMessages (App.app (snd out)) = []
  /\ sessions (App.world (snd out)) = 0
  /\ sent (App.world (snd out)) = [].
Proof. vm_compute. repeat split; reflexivity. Qed.

(** The canned text depends on the error alone: the throttled call of
    the sample conversation gets the busy text, the failed one the
    weak-signal text. *)
Lemma chat_fallbacks :
  App.chatMessages
    (App.app (snd (App.sendTurns Talk.env Talk.turns Scenario.boot)))
  = [ App.mkMsg App.user (Some "Is 8th Avenue safe?"%string);
      App.mkMsg App.model
                (Some "Stay on the lit side of 8th Avenue."%string);
      App.mkMsg App.user (Some "And 9th?"%string);
      App.mkMsg App.model (Some App.busy_reply);
      App.mkMsg App.user (Some "Hello?"%string);
      App.mkMsg App.model (Some App.weak_reply) ].
Proof. vm_compute. reflexivity. Qed.

(* ================================================================== *)
(** * Properties of the view reconcilers *)
(* ================================================================== *)

(** ** Lists of layers *)

Lemma filter_keep_comm (k : Layer -> bool) hs ls :
  filter (fun e => k (snd e)) (filter (keep hs) ls)
  = filter (keep hs) (filter (fun e => k (snd e)) ls).
Proof.
  induction ls as [|e ls IH]; simpl; [reflexivity|].
  destruct (keep hs e) eqn:Hk, (k (snd e)) eqn:Hs; simpl;
    rewrite ?Hk, ?Hs, IH; reflexivity.
Qed.

Lemma removeLayer_layers h m :
  layers (removeLayer h m) = filter (keep [h]) (layers m).
Proof.
  unfold removeLayer, keep. simpl. apply filter_ext.
  intros e. rewrite orb_false_r. reflexivity.
Qed.

Lemma keep_cons a hs e : keep (a :: hs) e = keep [a] e && keep hs e.
Proof.
  unfold keep. simpl. rewrite orb_false_r, negb_orb. reflexivity.
Qed.

Lemma filter_keep_cons a hs (ls : list (Handle * Layer)) :
  filter (keep hs) (filter (keep [a]) ls) = filter (keep (a :: hs)) ls.
Proof.
  induction ls as [|e ls IH]; simpl; [reflexivity|].
  rewrite (keep_cons a hs e).
  destruct (keep [a] e); simpl; [destruct (keep hs e)|]; rewrite IH;
    reflexivity.
Qed.

Lemma removeAll_layers hs :
  forall m,
    layers (fold_left (fun m' h => removeLayer h m') hs m)
    = filter (keep hs) (layers m).
Proof.
  induction hs as [|a hs IH]; intros m; simpl.
  - symmetry. apply forallb_filter_id. apply forallb_forall. reflexivity.
  - rewrite IH, removeLayer_layers. apply filter_keep_cons.
Qed.

Lemma of_kind_layers k ls m :
  of_kind k (with_layers ls m) = filter (fun e => k (snd e)) ls.
Proof. reflexivity. Qed.

Lemma of_kind_addLayer k h l m :
  of_kind k (addLayer h l m)
  = of_kind k m ++ (if k l then [(h, l)] else []).
Proof.
  unfold of_kind, addLayer. simpl. rewrite filter_app. simpl.
  destruct (k l); reflexivity.
Qed.

Lemma of_kind_removeLayer k h m :
  of_kind k (removeLayer h m) = filter (keep [h]) (of_kind k m).
Proof.
  unfold of_kind. rewrite removeLayer_layers. apply filter_keep_comm.
Qed.

Lemma of_kind_removeAll k hs m :
  of_kind k (fold_left (fun m' h => removeLayer h m') hs m)
  = filter (keep hs) (of_kind k m).
Proof.
  unfold of_kind. rewrite removeAll_layers. apply filter_keep_comm.
Qed.

Lemma keep_true_iff hs e : keep hs e = true <-> ~ In (fst e) hs.
Proof.
  unfold keep. rewrite negb_true_iff. split.
  - intros H Hin. assert (existsb (Nat.eqb (fst e)) hs = true).
    { apply existsb_exists. exists (fst e). split; [assumption|].
      apply Nat.eqb_refl. }
    congruence.
  - intros H. destruct (existsb (Nat.eqb (fst e)) hs) eqn:He; [|reflexivity].
    apply existsb_exists in He. destruct He as (x & Hx & Heq).
    apply Nat.eqb_eq in Heq. subst x. contradiction.
Qed.

Lemma filter_keep_id hs (ls : list (Handle * Layer)) :
  (forall e, In e ls -> ~ In (fst e) hs) ->
  filter (keep hs) ls = ls.
Proof.
  intros H. apply forallb_filter_id. apply forallb_forall.
  intros e He. apply keep_true_iff. auto.
Qed.

Lemma filter_keep_nil hs (ls : list (Handle * Layer)) :
  (forall e, In e ls -> In (fst e) hs) ->
  filter (keep hs) ls = [].
Proof.
  induction ls as [|e ls IH]; intros H; simpl; [reflexivity|].
  destruct (keep hs e) eqn:Hk.
  - apply keep_true_iff in Hk. exfalso. apply Hk. apply H. left; reflexivity.
  - apply IH. intros e' He'. apply H. right; assumption.
Qed.

Lemma NoDup_handles_inj (ls : list (Handle * Layer)) h l1 l2 :
  NoDup (handles ls) -> In (h, l1) ls -> In (h, l2) ls -> l1 = l2.
Proof.
  induction ls as [|[h' l'] ls IH]; simpl; intros Hnd H1 H2; [contradiction|].
  inversion Hnd as [|? ? Hnot Hnd']; subst.
  destruct H1 as [H1|H1], H2 as [H2|H2].
  - congruence.
  - inversion H1; subst. exfalso. apply Hnot.
    change h with (fst (h, l2)). apply in_map. assumption.
  - inversion H2; subst. exfalso. apply Hnot.
    change h with (fst (h, l1)). apply in_map. assumption.
  - apply IH; assumption.
Qed.

Lemma in_of_kind k m e :
  In e (of_kind k m) <-> In e (layers m) /\ k (snd e) = true.
Proof. unfold of_kind. apply filter_In. Qed.

Lemma fresh_not_in n (ls : list (Handle * Layer)) :
  Forall (fun e => fst e < n) ls -> ~ In n (handles ls).
Proof.
  intros H Hin. unfold handles in Hin. apply in_map_iff in Hin.
  destruct Hin as (e & He & Hin).
  rewrite Forall_forall in H. specialize (H e Hin). simpl in H. lia.
Qed.

Lemma bound_weaken n n' (ls : list (Handle * Layer)) :
  n <= n' -> Forall (fun e => fst e < n) ls -> Forall (fun e => fst e < n') ls.
Proof.
  intros Hle H. eapply Forall_impl; [|exact H]. simpl. intros; lia.
Qed.

Lemma handles_app (a b : list (Handle * Layer)) :
  handles (a ++ b) = handles a ++ handles b.
Proof. apply map_app. Qed.

Lemma NoDup_snoc (n : Handle) (hs : list Handle) :
  NoDup hs -> ~ In n hs -> NoDup (hs ++ [n]).
Proof.
  intros Hnd Hn. apply NoDup_app; [assumption | repeat constructor; simpl; tauto |].
  intros x Hx [Hx'|[]]; subst. contradiction.
Qed.

(** Adding a fresh layer. *)
Lemma addLayer_fresh n l m :
  NoDup (handles (layers m)) ->
  Forall (fun e => fst e < n) (layers m) ->
  NoDup (handles (layers (addLayer n l m)))
  /\ Forall (fun e => fst e < S n) (layers (addLayer n l m)).
Proof.
  intros Hnd Hb. unfold addLayer; simpl. split.
  - rewrite handles_app. simpl. apply NoDup_snoc; [assumption|].
    apply fresh_not_in; assumption.
  - apply Forall_app. split.
    + apply bound_weaken with n; [lia | assumption].
    + repeat constructor.
Qed.

Lemma stale_after_add h n l m :
  h < n -> ~ In h (handles (layers m)) ->
  ~ In h (handles (layers (addLayer n l m))).
Proof.
  intros Hlt Hn. unfold addLayer; simpl. rewrite handles_app. simpl.
  intros Hin. apply in_app_or in Hin. destruct Hin as [Hin|[Hin|[]]].
  - contradiction.
  - lia.
Qed.

(** The route ref survives the addition of a layer that is no
    polyline. *)
Lemma route_after_add n l m route pls :
  is_polyline l = false ->
  match route with
  | None => pls = []
  | Some h =>
      h < n
      /\ ((exists pts o, pls = [(h, Polyline pts o)])
          \/ (pls = [] /\ ~ In h (handles (layers m))))
  end ->
  match route with
  | None => pls = []
  | Some h =>
      h < S n
      /\ ((exists pts o, pls = [(h, Polyline pts o)])
          \/ (pls = [] /\ ~ In h (handles (layers (addLayer n l m)))))
  end.
Proof.
  intros Hl. destruct route as [h|]; [|tauto].
  intros (Hlt & [Hp|[Hp Hn]]); split; try lia.
  - left; assumption.
  - right. split; [assumption|]. apply stale_after_add; assumption.
Qed.

Lemma Owned_add_marker n m rt ov pls cis pos ic :
  Owned n m None rt ov [] pls cis ->
  Owned (S n) (addLayer n (Marker pos ic) m) (Some n) rt ov
        [(n, Marker pos ic)] pls cis.
Proof.
  intros (Hnd & Hb & Hm & Hp & Hc & _ & Hr & Ho).
  destruct (addLayer_fresh n (Marker pos ic) m Hnd Hb) as [Hnd' Hb'].
  unfold Owned. rewrite !of_kind_addLayer, Hm, Hp, Hc. simpl.
  rewrite !app_nil_r.
  repeat split; try assumption; try reflexivity.
  - eexists; eexists; reflexivity.
  - apply route_after_add; [reflexivity | assumption].
Qed.

Lemma Owned_add_circle n m mk rt ov mks pls cis l :
  is_circle l = true ->
  Owned n m mk rt ov mks pls cis ->
  Owned (S n) (addLayer n l m) mk rt (ov ++ [n]) mks pls (cis ++ [(n, l)]).
Proof.
  intros Hl (Hnd & Hb & Hm & Hp & Hc & Hk & Hr & Ho).
  destruct (addLayer_fresh n l m Hnd Hb) as [Hnd' Hb'].
  assert (Hlm : is_marker l = false) by (destruct l; simpl in *; congruence).
  assert (Hlp : is_polyline l = false) by (destruct l; simpl in *; congruence).
  unfold Owned. rewrite !of_kind_addLayer, Hm, Hp, Hc, Hl, Hlm, Hlp.
  rewrite !app_nil_r.
  repeat split; try assumption; try reflexivity.
  - apply route_after_add; assumption.
  - rewrite handles_app, Ho. reflexivity.
Qed.

Lemma Owned_add_route n m mk rt ov mks cis pts o :
  Owned n m mk rt ov mks [] cis ->
  Owned (S n) (addLayer n (Polyline pts o) m) mk (Some n) ov mks
        [(n, Polyline pts o)] cis.
Proof.
  intros (Hnd & Hb & Hm & Hp & Hc & Hk & Hr & Ho).
  destruct (addLayer_fresh n (Polyline pts o) m Hnd Hb) as [Hnd' Hb'].
  unfold Owned. rewrite !of_kind_addLayer, Hm, Hp, Hc. simpl.
  rewrite !app_nil_r.
  repeat split; try assumption; try reflexivity; try lia.
  left. eexists; eexists; reflexivity.
Qed.

Lemma Owned_tile n url centre z :
  Owned (S n)
        (addLayer n (TileLayer url)
           {| layers := []; view_center := centre; view_zoom := z |})
        None None [] [] [] [].
Proof.
  unfold Owned, addLayer, of_kind; simpl.
  repeat split; try reflexivity.
  - repeat constructor. simpl; tauto.
  - repeat constructor.
Qed.

(** ** Removing layers *)

Lemma handles_filter_incl (f : nat * Layer -> bool) ls h :
  In h (handles (filter f ls)) -> In h (handles ls).
Proof.
  unfold handles. rewrite !in_map_iff.
  intros (e & He & Hin). apply filter_In in Hin.
  exists e. tauto.
Qed.

Lemma handles_filter_NoDup (f : nat * Layer -> bool) ls :
  NoDup (handles ls) -> NoDup (handles (filter f ls)).
Proof.
  induction ls as [|e ls IH]; simpl; intros Hnd; [constructor|].
  inversion Hnd as [|? ? Hnot Hnd']; subst.
  destruct (f e); simpl; [constructor|]; auto.
  intros Hin. apply Hnot. eapply handles_filter_incl. exact Hin.
Qed.

Lemma bound_filter (f : nat * Layer -> bool) n ls :
  Forall (fun e => fst e < n) ls ->
  Forall (fun e => fst e < n) (filter f ls).
Proof.
  rewrite !Forall_forall. intros H e He. apply filter_In in He. apply H, He.
Qed.

Lemma removed_not_in h hs (ls : list (nat * Layer)) :
  In h hs -> ~ In h (handles (filter (keep hs) ls)).
Proof.
  intros Hh Hin. unfold handles in Hin. apply in_map_iff in Hin.
  destruct Hin as (e & He & Hin). apply filter_In in Hin.
  destruct Hin as [_ Hk]. apply keep_true_iff in Hk. subst h. contradiction.
Qed.

(** Removing the handles of layers of one kind leaves the layers of a
    kind [k] that excludes it alone. *)
Lemma remove_foreign (k k' : Layer -> bool) hs m :
  NoDup (handles (layers m)) ->
  (forall l, k' l = true -> k l = false) ->
  (forall h, In h hs ->
             In h (handles (of_kind k' m)) \/ ~ In h (handles (layers m))) ->
  filter (keep hs) (of_kind k m) = of_kind k m.
Proof.
  intros Hnd Hex Hhs. apply filter_keep_id.
  intros [h l] He Hin. simpl in Hin.
  apply in_of_kind in He. destruct He as [Hl Hk]. simpl in Hk.
  destruct (Hhs h Hin) as [Hk'|Hout].
  - unfold handles in Hk'. apply in_map_iff in Hk'.
    destruct Hk' as ([h' l'] & Heq & Hl'). simpl in Heq. subst h'.
    apply in_of_kind in Hl'. destruct Hl' as [Hl' Hkl']. simpl in Hkl'.
    assert (l = l') by (eapply NoDup_handles_inj; eassumption). subst l'.
    rewrite (Hex l Hkl') in Hk. discriminate.
  - apply Hout. unfold handles. apply in_map_iff. exists (h, l). auto.
Qed.

(** The handle of a route ref is that of a polyline or of nothing. *)
Lemma route_ref_foreign n m h pls :
  of_kind is_polyline m = pls ->
  h < n
  /\ ((exists pts o, pls = [(h, Polyline pts o)])
      \/ (pls = [] /\ ~ In h (handles (layers m)))) ->
  forall h', In h' [h] ->
    In h' (handles (of_kind is_polyline m)) \/ ~ In h' (handles (layers m)).
Proof.
  intros Hp (_ & [(pts & o & Hpl)|[_ Hout]]) h' [<-|[]].
  - left. rewrite Hp, Hpl. simpl. auto.
  - right; assumption.
Qed.

Lemma Owned_remove_route n m mk h ov mks pls cis :
  Owned n m mk (Some h) ov mks pls cis ->
  Owned n (removeLayer h m) mk (Some h) ov mks [] cis.
Proof.
  intros (Hnd & Hb & Hm & Hp & Hc & Hk & Hr & Ho).
  assert (Hf := route_ref_foreign n m h pls Hp Hr).
  unfold Owned. rewrite !of_kind_removeLayer, removeLayer_layers.
  repeat split.
  - apply handles_filter_NoDup; assumption.
  - apply bound_filter; assumption.
  - rewrite <- Hm.
    apply remove_foreign with (k' := is_polyline); try assumption.
    intros l Hl. destruct l; simpl in *; congruence.
  - rewrite Hp. destruct Hr as (_ & [(pts & o & ->)|[-> _]]); simpl.
    + unfold keep; simpl. rewrite Nat.eqb_refl. reflexivity.
    + reflexivity.
  - rewrite <- Hc.
    apply remove_foreign with (k' := is_polyline); try assumption.
    intros l Hl. destruct l; simpl in *; congruence.
  - assumption.
  - tauto.
  - right. split; [reflexivity|]. apply removed_not_in. left; reflexivity.
  - assumption.
Qed.

Lemma Owned_remove_marker n m mk rt ov mks pls cis :
  Owned n m mk rt ov mks pls cis ->
  Owned n (match mk with Some h => removeLayer h m | None => m end)
        None rt ov [] pls cis.
Proof.
  intros (Hnd & Hb & Hm & Hp & Hc & Hk & Hr & Ho).
  destruct mk as [h|].
  - destruct Hk as (pos & ic & ->).
    assert (Hf : forall h', In h' [h] ->
               In h' (handles (of_kind is_marker m))
               \/ ~ In h' (handles (layers m))).
    { intros h' [<-|[]]. left. rewrite Hm. simpl. auto. }
    unfold Owned. rewrite !of_kind_removeLayer, removeLayer_layers.
    repeat split.
    + apply handles_filter_NoDup; assumption.
    + apply bound_filter; assumption.
    + rewrite Hm. simpl. unfold keep; simpl. rewrite Nat.eqb_refl.
      reflexivity.
    + rewrite <- Hp.
      apply remove_foreign with (k' := is_marker); try assumption.
      intros l Hl. destruct l; simpl in *; congruence.
    + rewrite <- Hc.
      apply remove_foreign with (k' := is_marker); try assumption.
      intros l Hl. destruct l; simpl in *; congruence.
    + destruct rt as [h'|]; [|assumption].
      destruct Hr as (Hlt & [Hpl|[Hpl Hout]]); split; auto.
      right. split; [assumption|].
      intros Hin. apply Hout. eapply handles_filter_incl. exact Hin.
    + assumption.
  - subst mks. unfold Owned. repeat split; assumption.
Qed.

Lemma Owned_remove_overlays n m mk rt ov mks pls cis :
  Owned n m mk rt ov mks pls cis ->
  Owned n (fold_left (fun m' h => removeLayer h m') ov m) mk rt [] mks pls [].
Proof.
  intros (Hnd & Hb & Hm & Hp & Hc & Hk & Hr & Ho).
  assert (Hf : forall h', In h' ov ->
             In h' (handles (of_kind is_circle m))
             \/ ~ In h' (handles (layers m))).
  { intros h' Hin. left. rewrite Hc, Ho. assumption. }
  unfold Owned. rewrite !of_kind_removeAll, removeAll_layers.
  repeat split.
  - apply handles_filter_NoDup; assumption.
  - apply bound_filter; assumption.
  - rewrite <- Hm.
    apply remove_foreign with (k' := is_circle); try assumption.
    intros l Hl. destruct l; simpl in *; congruence.
  - rewrite <- Hp.
    apply remove_foreign with (k' := is_circle); try assumption.
    intros l Hl. destruct l; simpl in *; congruence.
  - apply filter_keep_nil. intros e He. rewrite <- Ho, <- Hc.
    unfold handles. apply in_map. assumption.
  - assumption.
  - destruct rt as [h'|]; [|assumption].
    destruct Hr as (Hlt & [Hpl|[Hpl Hout]]); split; auto.
    right. split; [assumption|].
    intros Hin. apply Hout. eapply handles_filter_incl. exact Hin.
Qed.

(** ** Moving the marker *)

Lemma moved_fst h pos e : fst (moved h pos e) = fst e.
Proof.
  destruct e as [h' l]. unfold moved. simpl.
  destruct (h' =? h); [|reflexivity]. destruct l; reflexivity.
Qed.

Lemma moved_other h pos e : is_marker (snd e) = false -> moved h pos e = e.
Proof.
  destruct e as [h' l]. unfold moved. simpl. intros H.
  destruct (h' =? h); [|reflexivity]. destruct l; simpl in H; congruence.
Qed.

Lemma moved_marker h pos e :
  is_marker (snd (moved h pos e)) = is_marker (snd e).
Proof.
  destruct e as [h' l]. unfold moved. simpl.
  destruct (h' =? h); [|reflexivity]. destruct l; reflexivity.
Qed.

Lemma of_kind_setLatLng_marker h pos m :
  of_kind is_marker (setLatLng h pos m)
  = map (moved h pos) (of_kind is_marker m).
Proof.
  unfold of_kind, setLatLng. simpl. fold (moved h pos).
  induction (layers m) as [|e ls IH]; simpl; [reflexivity|].
  rewrite moved_marker. destruct (is_marker (snd e)); simpl; rewrite IH;
    reflexivity.
Qed.

Lemma of_kind_setLatLng_other k h pos m :
  (forall l, k l = true -> is_marker l = false) ->
  of_kind k (setLatLng h pos m) = of_kind k m.
Proof.
  intros Hk. unfold of_kind, setLatLng. simpl. fold (moved h pos).
  induction (layers m) as [|e ls IH]; simpl; [reflexivity|].
  destruct (is_marker (snd e)) eqn:Hm.
  - assert (k (snd e) = false).
    { destruct (k (snd e)) eqn:Hke; [|reflexivity].
      rewrite (Hk _ Hke) in Hm. discriminate. }
    assert (k (snd (moved h pos e)) = false).
    { destruct (k (snd (moved h pos e))) eqn:Hke; [|reflexivity].
      apply Hk in Hke. rewrite moved_marker in Hke. congruence. }
    rewrite H, H0. exact IH.
  - rewrite (moved_other h pos e Hm). rewrite IH. reflexivity.
Qed.

Lemma handles_setLatLng h pos m :
  handles (layers (setLatLng h pos m)) = handles (layers m).
Proof.
  unfold handles, setLatLng. simpl. fold (moved h pos).
  rewrite map_map. apply map_ext. apply moved_fst.
Qed.

Lemma Owned_move_marker n m h rt ov mks pls cis pos :
  Owned n m (Some h) rt ov mks pls cis ->
  exists pos0 ic,
    mks = [(h, Marker pos0 ic)]
    /\ Owned n (setLatLng h pos m) (Some h) rt ov [(h, Marker pos ic)] pls cis.
Proof.
  intros (Hnd & Hb & Hm & Hp & Hc & (pos0 & ic & Hk) & Hr & Ho).
  exists pos0, ic. split; [assumption|].
  unfold Owned. rewrite handles_setLatLng, of_kind_setLatLng_marker.
  rewrite !of_kind_setLatLng_other
    by (intros l Hl; destruct l; simpl in *; congruence).
  repeat split; try assumption.
  - unfold setLatLng. simpl. fold (moved h pos).
    rewrite Forall_forall in *. intros e He. apply in_map_iff in He.
    destruct He as (e0 & <- & He0). rewrite moved_fst. apply Hb, He0.
  - rewrite Hm, Hk. simpl. unfold moved. simpl. rewrite Nat.eqb_refl.
    reflexivity.
  - eexists; eexists; reflexivity.
Qed.

(** ** The React reconciler, block by block *)

Lemma ensureMap_inv container p c :
  inv c -> inv (ensureMap container p c).
Proof.
  unfold inv, ensureMap. destruct (leafletMap c) as [m|] eqn:Hm.
  - rewrite Hm. auto.
  - destruct container; [|rewrite Hm; auto].
    intros (Hu & Hr & Ht). simpl.
    exists [], [], []. split; [reflexivity|]. simpl.
    rewrite Hu, Hr, Ht. apply Owned_tile.
Qed.

Lemma syncMarker_owned p c m mks pls cis :
  owned c m mks pls cis ->
  exists m',
    owned (syncMarker p c) m' [marker_after p (next c) mks] pls cis
    /\ next c <= next (syncMarker p c).
Proof.
  intros [Hmap Ho]. unfold syncMarker. rewrite Hmap.
  destruct (userMarkerRef c) as [h|] eqn:Hu.
  - destruct (Owned_move_marker _ _ _ _ _ _ _ _ (center p) Ho)
      as (pos0 & ic & -> & Ho').
    eexists. split; [split; [reflexivity|]|simpl; lia].
    simpl. exact Ho'.
  - assert (mks = []) by (destruct Ho as (_ & _ & _ & _ & _ & H & _); exact H).
    subst mks.
    eexists. split; [split; [reflexivity|]|simpl; lia].
    simpl. apply Owned_add_marker. exact Ho.
Qed.

Lemma route_after_nil p n : effectivePoints p = [] -> route_after p n = [].
Proof. unfold route_after. intros ->. reflexivity. Qed.

Lemma syncRoute_owned p c m mks pls cis :
  owned c m mks pls cis ->
  exists m',
    owned (syncRoute p c) m' mks (route_after p (next c)) cis
    /\ next c <= next (syncRoute p c)
    /\ (forall h, routeLayerRef c = Some h ->
                  ~ In h (handles (layers m'))).
Proof.
  intros [Hmap Ho]. unfold syncRoute. rewrite Hmap.
  set (m1 := match routeLayerRef c with
             | Some h => removeLayer h m
             | None => m
             end).
  assert (Ho1 : Owned (next c) m1 (userMarkerRef c) (routeLayerRef c)
                      (threatLayersRef c) mks [] cis).
  { unfold m1. destruct (routeLayerRef c) as [h|] eqn:Hr.
    - apply Owned_remove_route with pls. exact Ho.
    - assert (pls = [])
        by (destruct Ho as (_ & _ & _ & _ & _ & _ & H & _); exact H).
      subst pls. exact Ho. }
  assert (Hstale : forall h, routeLayerRef c = Some h ->
                             ~ In h (handles (layers m1))).
  { intros h Hh. unfold m1. rewrite Hh, removeLayer_layers.
    apply removed_not_in. left; reflexivity. }
  unfold route_after.
  destruct (effectivePoints p) as [|pt pts] eqn:Hpts.
  - exists m1. split; [split; [reflexivity | exact Ho1]|].
    split; [simpl; lia | exact Hstale].
  - eexists. split; [split; [reflexivity|]|].
    + simpl. eapply Owned_add_route. exact Ho1.
    + split; [simpl; lia|]. intros h Hh.
      apply stale_after_add; [|exact (Hstale h Hh)].
      destruct Ho as (_ & _ & _ & _ & _ & _ & Hr & _).
      rewrite Hh in Hr. tauto.
Qed.

Lemma addZones_owned zones :
  forall c m mks pls cis,
    owned c m mks pls cis ->
    exists m',
      owned (fold_left addZone zones c) m' mks pls
            (cis ++ combine (seq (next c) (List.length zones))
                            (map zoneCircle zones))
      /\ next (fold_left addZone zones c) = next c + List.length zones
      /\ routeLayerRef (fold_left addZone zones c) = routeLayerRef c
      /\ layers m'
         = layers m ++ combine (seq (next c) (List.length zones))
                               (map zoneCircle zones).
Proof.
  induction zones as [|z zones IH]; intros c m mks pls cis [Hmap Ho].
  - simpl. exists m. rewrite !app_nil_r.
    split; [split; assumption|]. repeat split; try reflexivity. lia.
  - cbn [fold_left List.length seq map combine].
    assert (Hstep : owned (addZone c z)
                          (addLayer (next c) (zoneCircle z) m)
                          mks pls (cis ++ [(next c, zoneCircle z)])).
    { unfold addZone. rewrite Hmap. split; [reflexivity|]. simpl.
      apply Owned_add_circle; [reflexivity | exact Ho]. }
    destruct (IH _ _ _ _ _ Hstep) as (m' & Ho' & Hn & Hr & Hl).
    assert (Hnext : next (addZone c z) = S (next c))
      by (unfold addZone; rewrite Hmap; reflexivity).
    assert (Hroute : routeLayerRef (addZone c z) = routeLayerRef c)
      by (unfold addZone; rewrite Hmap; reflexivity).
    rewrite Hnext in Ho', Hn, Hl. rewrite Hroute in Hr.
    exists m'. rewrite <- app_assoc in Ho'.
    split; [exact Ho'|]. split; [lia|]. split; [exact Hr|].
    rewrite Hl. unfold addLayer. simpl. rewrite <- app_assoc. reflexivity.
Qed.

Lemma syncThreats_owned p c m mks pls cis :
  owned c m mks pls cis ->
  exists m',
    owned (syncThreats p c) m' mks pls (circles_after p (next c))
    /\ next c <= next (syncThreats p c)
    /\ (forall h, h < next c ->
                  In h (threatLayersRef c) \/ ~ In h (handles (layers m)) ->
                  ~ In h (handles (layers m'))).
Proof.
  intros [Hmap Ho]. unfold syncThreats. rewrite Hmap.
  set (m0 := fold_left (fun m' layer => removeLayer layer m')
                       (threatLayersRef c) m).
  set (cleared := {| next := next c; leafletMap := Some m0;
                     userMarkerRef := userMarkerRef c;
                     routeLayerRef := routeLayerRef c;
                     threatLayersRef := [] |}).
  assert (Hc : owned cleared m0 mks pls []).
  { split; [reflexivity|]. simpl. apply Owned_remove_overlays with cis.
    exact Ho. }
  assert (Hgone : forall h,
             In h (threatLayersRef c) \/ ~ In h (handles (layers m)) ->
             ~ In h (handles (layers m0))).
  { intros h [Hh|Hh]; unfold m0; rewrite removeAll_layers.
    - apply removed_not_in. exact Hh.
    - intros Hin. apply Hh. eapply handles_filter_incl. exact Hin. }
  unfold circles_after. destruct (showThreats p).
  - destruct (addZones_owned (threatZones p) _ _ _ _ _ Hc) as (m' & Ho' & Hn & _ & Hl).
    exists m'. simpl in Ho'. split; [exact Ho'|].
    split; [rewrite Hn; simpl; lia|].
    intros h Hlt Hh Hin. rewrite Hl, handles_app in Hin.
    apply in_app_or in Hin. destruct Hin as [Hin|Hin].
    + exact (Hgone h Hh Hin).
    + unfold handles in Hin. apply in_map_iff in Hin.
      destruct Hin as ([h' l] & Heq & Hin). simpl in Heq. subst h'.
      apply in_combine_l in Hin. apply in_seq in Hin.
      simpl in Hin. lia.
  - exists m0. split; [exact Hc|]. split; [simpl; lia|].
    intros h _ Hh. exact (Hgone h Hh).
Qed.

(** Handles in the refs are below the allocation counter. *)
Lemma owned_overlays_bound c m mks pls cis h :
  owned c m mks pls cis -> In h (threatLayersRef c) -> h < next c.
Proof.
  intros [_ (_ & Hb & _ & _ & Hci & _ & _ & Hov)] Hh.
  rewrite <- Hov, <- Hci in Hh. unfold handles in Hh.
  apply in_map_iff in Hh. destruct Hh as (e & <- & He).
  apply in_of_kind in He. rewrite Forall_forall in Hb. apply Hb. tauto.
Qed.

Lemma owned_route_bound c m mks pls cis h :
  owned c m mks pls cis -> routeLayerRef c = Some h -> h < next c.
Proof.
  intros [_ (_ & _ & _ & _ & _ & _ & Hr & _)] Hh.
  rewrite Hh in Hr. tauto.
Qed.

(** One run of the effect on a map that exists once the first block
    is through. *)
Lemma effect_owned container p c m0 mks pls cis :
  owned (ensureMap container p c) m0 mks pls cis ->
  exists m' n1 n2,
    owned (effect true container p c) m'
          [marker_after p (next (ensureMap container p c)) mks]
          (route_after p n1) (circles_after p n2)
    /\ next (ensureMap container p c) <= n1 /\ n1 <= n2
    /\ n2 <= next (effect true container p c)
    /\ (forall h, routeLayerRef (ensureMap container p c) = Some h ->
                  ~ In h (handles (layers m')))
    /\ (forall h, In h (threatLayersRef (ensureMap container p c)) ->
                  ~ In h (handles (layers m'))).
Proof.
  intros H0. unfold effect. simpl.
  set (c0 := ensureMap container p c) in *.
  destruct (syncMarker_owned p _ _ _ _ _ H0) as (m1 & H1 & Hn1).
  destruct (syncRoute_owned p _ _ _ _ _ H1) as (m2 & H2 & Hn2 & Hr2).
  destruct (syncThreats_owned p _ _ _ _ _ H2) as (m3 & H3 & Hn3 & Hgone).
  assert (Hrefs1 : routeLayerRef (syncMarker p c0) = routeLayerRef c0
                   /\ threatLayersRef (syncMarker p c0) = threatLayersRef c0).
  { unfold syncMarker. destruct (leafletMap c0); [|auto].
    destruct (userMarkerRef c0); auto. }
  assert (Hrefs2 : threatLayersRef (syncRoute p (syncMarker p c0))
                   = threatLayersRef c0).
  { destruct Hrefs1 as [_ <-]. unfold syncRoute.
    destruct (leafletMap (syncMarker p c0)); [|reflexivity].
    destruct (effectivePoints p); reflexivity. }
  exists m3, (next (syncMarker p c0)), (next (syncRoute p (syncMarker p c0))).
  split; [exact H3|]. repeat split; try lia.
  - intros h Hh. destruct Hrefs1 as [Hr1 _]. rewrite <- Hr1 in Hh.
    apply Hgone.
    + pose proof (owned_route_bound _ _ _ _ _ h H1 Hh). lia.
    + right. apply Hr2. exact Hh.
  - intros h Hh. apply Hgone.
    + pose proof (owned_overlays_bound _ _ _ _ _ h H0 Hh). lia.
    + left. rewrite Hrefs2. exact Hh.
Qed.

Lemma effect_inv L_loaded container p c :
  inv c -> inv (effect L_loaded container p c).
Proof.
  intros Hinv. destruct L_loaded; [|exact Hinv].
  apply (ensureMap_inv container p) in Hinv.
  unfold inv in Hinv.
  destruct (leafletMap (ensureMap container p c)) as [m0|] eqn:Hm0.
  - destruct Hinv as (mks & pls & cis & H0).
    destruct (effect_owned _ _ _ _ _ _ _ H0) as (m' & n1 & n2 & H' & _).
    unfold inv. destruct H' as [Hmap H']. rewrite Hmap.
    eexists; eexists; eexists. split; [exact Hmap | exact H'].
  - assert (Heq : effect true container p c = ensureMap container p c).
    { unfold effect. simpl. unfold syncThreats, syncRoute, syncMarker.
      rewrite Hm0. rewrite Hm0. rewrite Hm0. reflexivity. }
    rewrite Heq. unfold inv. rewrite Hm0. exact Hinv.
Qed.

Lemma reachable_inv c : reachable c -> inv c.
Proof.
  induction 1 as [|L_loaded container p c _ IH].
  - unfold inv. simpl. auto.
  - apply effect_inv. exact IH.
Qed.

Lemma ensureMap_next container p c :
  MapComponent.next c <= MapComponent.next (ensureMap container p c).
Proof.
  unfold ensureMap. destruct (leafletMap c); [lia|].
  destruct container; simpl; lia.
Qed.

Lemma ensureMap_refs container p c :
  routeLayerRef (ensureMap container p c) = routeLayerRef c
  /\ threatLayersRef (ensureMap container p c) = threatLayersRef c
  /\ userMarkerRef (ensureMap container p c) = userMarkerRef c.
Proof.
  unfold ensureMap. destruct (leafletMap c); [auto|].
  destruct container; auto.
Qed.

(** A run that ends with a map went through [ensureMap] with one. *)
Lemma effect_has_map container p c m' :
  inv c ->
  leafletMap (effect true container p c) = Some m' ->
  exists m0 mks pls cis, owned (ensureMap container p c) m0 mks pls cis.
Proof.
  intros Hinv Hm'. apply (ensureMap_inv container p) in Hinv.
  unfold inv in Hinv.
  destruct (leafletMap (ensureMap container p c)) as [m0|] eqn:Hm0.
  - destruct Hinv as (mks & pls & cis & H0). eauto.
  - exfalso. unfold effect in Hm'. simpl in Hm'.
    unfold syncThreats, syncRoute, syncMarker in Hm'.
    rewrite Hm0 in Hm'. rewrite Hm0 in Hm'. rewrite Hm0 in Hm'.
    congruence.
Qed.

(** ** The standalone reconciler *)

Lemma vaddZones_owned zones :
  forall m n mk rt ov mks pls cis,
    Owned n m mk rt ov mks pls cis ->
    exists m' ov',
      fold_left Vanilla.addZone zones (m, n, ov)
      = (m', n + List.length zones, ov')
      /\ Owned (n + List.length zones) m' mk rt ov' mks pls
               (cis ++ combine (seq n (List.length zones))
                               (map Vanilla.zoneCircle zones))
      /\ layers m'
         = layers m ++ combine (seq n (List.length zones))
                               (map Vanilla.zoneCircle zones).
Proof.
  induction zones as [|z zones IH]; intros m n mk rt ov mks pls cis Ho.
  - simpl. exists m, ov. rewrite !app_nil_r, Nat.add_0_r. auto.
  - cbn [fold_left List.length seq map combine Vanilla.addZone].
    assert (Hstep := Owned_add_circle n m mk rt ov mks pls cis
                       (Vanilla.zoneCircle z) eq_refl Ho).
    destruct (IH _ _ _ _ _ _ _ _ Hstep) as (m' & ov' & Hf & Ho' & Hl).
    exists m', ov'. replace (n + S (List.length zones))
      with (S n + List.length zones) by lia.
    split; [exact Hf|]. rewrite <- app_assoc in Ho'. split; [exact Ho'|].
    rewrite Hl. unfold addLayer. simpl. rewrite <- app_assoc. reflexivity.
Qed.

Lemma updateMap_owned s m mks pls cis :
  vowned s m mks pls cis ->
  exists m' n,
    vowned (Vanilla.updateMap s) m'
           [(Vanilla.next s,
             Marker (Vanilla.currentLocation s)
                    (Vanilla.icon (Vanilla.isSOSActive s)))]
           (vroute_after s (S (Vanilla.next s)))
           (combine (seq n (List.length (Vanilla.threatZones s)))
                    (map Vanilla.zoneCircle (Vanilla.threatZones s)))
    /\ Vanilla.next s < n
    /\ (forall h, h < Vanilla.next s -> 
                  Vanilla.userMarker s = Some h
                  \/ Vanilla.routeLine s = Some h
                  \/ In h (Vanilla.threatOverlays s) ->
                  ~ In h (handles (layers m')))
    /\ Vanilla.isSOSActive (Vanilla.updateMap s) = Vanilla.isSOSActive s
    /\ Vanilla.currentLocation (Vanilla.updateMap s)
       = Vanilla.currentLocation s
    /\ Vanilla.safeRoute (Vanilla.updateMap s) = Vanilla.safeRoute s
    /\ Vanilla.threatZones (Vanilla.updateMap s) = Vanilla.threatZones s.
Proof.
  intros [Hmap Ho]. unfold Vanilla.updateMap. rewrite Hmap.
  set (m1 := Vanilla.remove_opt (Vanilla.userMarker s) m).
  set (m2 := Vanilla.remove_opt (Vanilla.routeLine s) m1).
  set (m3 := fold_left (fun m' o => removeLayer o m')
                       (Vanilla.threatOverlays s) m2).
  set (hm := Vanilla.next s).
  set (mk := Marker (Vanilla.currentLocation s)
                    (Vanilla.icon (Vanilla.isSOSActive s))).
  assert (H1 : Owned hm m1 None (Vanilla.routeLine s)
                     (Vanilla.threatOverlays s) [] pls cis).
  { apply (Owned_remove_marker _ _ _ _ _ _ _ _ Ho). }
  assert (H2 : Owned hm m2 None (Vanilla.routeLine s)
                     (Vanilla.threatOverlays s) [] [] cis).
  { unfold m2, Vanilla.remove_opt.
    destruct (Vanilla.routeLine s) as [h|] eqn:Hr.
    - apply Owned_remove_route with pls. exact H1.
    - assert (pls = [])
        by (destruct H1 as (_ & _ & _ & _ & _ & _ & H & _); exact H).
      subst pls. exact H1. }
  assert (H3 : Owned hm m3 None (Vanilla.routeLine s) [] [] [] []).
  { apply Owned_remove_overlays with cis. exact H2. }
  assert (H4 := Owned_add_marker hm m3 (Vanilla.routeLine s) [] [] []
                  (Vanilla.currentLocation s)
                  (Vanilla.icon (Vanilla.isSOSActive s)) H3).
  fold mk in H4.
  assert (Hgone3 : forall h,
             Vanilla.userMarker s = Some h \/ Vanilla.routeLine s = Some h
             \/ In h (Vanilla.threatOverlays s) ->
             ~ In h (handles (layers m3))).
  { intros h Hh Hin. unfold m3 in Hin. rewrite removeAll_layers in Hin.
    destruct Hh as [Hh|[Hh|Hh]].
    - apply handles_filter_incl in Hin. unfold m2, Vanilla.remove_opt in Hin.
      assert (Hin1 : In h (handles (layers m1))).
      { destruct (Vanilla.routeLine s); [|exact Hin].
        rewrite removeLayer_layers in Hin.
        eapply handles_filter_incl; exact Hin. }
      unfold m1, Vanilla.remove_opt in Hin1. rewrite Hh in Hin1.
      rewrite removeLayer_layers in Hin1.
      revert Hin1. apply removed_not_in. left; reflexivity.
    - apply handles_filter_incl in Hin. unfold m2, Vanilla.remove_opt in Hin.
      rewrite Hh, removeLayer_layers in Hin.
      revert Hin. apply removed_not_in. left; reflexivity.
    - revert Hin. apply removed_not_in. exact Hh. }
  unfold vroute_after.
  destruct (Vanilla.safeRoute s) as [pts|] eqn:Hsr.
  - assert (H5 := Owned_add_route (S hm) _ _ _ _ _ _ pts
                    (Vanilla.routeOptions (Vanilla.isSOSActive s)) H4).
    destruct (vaddZones_owned (Vanilla.threatZones s) _ _ _ _ _ _ _ _ H5)
      as (m6 & ov6 & Hf & H6 & Hl).
    rewrite Hf. simpl in H6.
    exists m6, (S (S hm)).
    split; [split; [reflexivity | exact H6]|].
    split; [unfold hm; lia|]. split; [|simpl; rewrite ?Hsr; auto].
    intros h Hlt Hh Hin. rewrite Hl, handles_app in Hin.
    apply in_app_or in Hin. destruct Hin as [Hin|Hin].
    + unfold addLayer in Hin. simpl in Hin.
      rewrite !handles_app in Hin. simpl in Hin.
      apply in_app_or in Hin. destruct Hin as [Hin|[Hin|[]]].
      * apply in_app_or in Hin. destruct Hin as [Hin|[Hin|[]]].
        -- exact (Hgone3 h Hh Hin).
        -- unfold hm in Hin. lia.
      * unfold hm in Hin. lia.
    + unfold handles in Hin. apply in_map_iff in Hin.
      destruct Hin as ([h' l] & Heq & Hin). simpl in Heq. subst h'.
      apply in_combine_l in Hin. apply in_seq in Hin. unfold hm in Hin.
      simpl in Hin. lia.
  - destruct (vaddZones_owned (Vanilla.threatZones s) _ _ _ _ _ _ _ _ H4)
      as (m6 & ov6 & Hf & H6 & Hl).
    rewrite Hf. simpl in H6.
    exists m6, (S hm).
    split; [split; [reflexivity | exact H6]|].
    split; [unfold hm; lia|]. split; [|simpl; rewrite ?Hsr; auto].
    intros h Hlt Hh Hin. rewrite Hl, handles_app in Hin.
    apply in_app_or in Hin. destruct Hin as [Hin|Hin].
    + unfold addLayer in Hin. simpl in Hin.
      rewrite !handles_app in Hin. simpl in Hin.
      apply in_app_or in Hin. destruct Hin as [Hin|[Hin|[]]].
      * exact (Hgone3 h Hh Hin).
      * unfold hm in Hin. lia.
    + unfold handles in Hin. apply in_map_iff in Hin.
      destruct Hin as ([h' l] & Heq & Hin). simpl in Heq. subst h'.
      apply in_combine_l in Hin. apply in_seq in Hin. unfold hm in Hin.
      simpl in Hin. lia.
Qed.

Lemma vinv_ext s s' :
  Vanilla.map s' = Vanilla.map s ->
  Vanilla.next s' = Vanilla.next s ->
  Vanilla.userMarker s' = Vanilla.userMarker s ->
  Vanilla.routeLine s' = Vanilla.routeLine s ->
  Vanilla.threatOverlays s' = Vanilla.threatOverlays s ->
  vinv s -> vinv s'.
Proof.
  unfold vinv, vowned. intros -> -> -> -> ->. auto.
Qed.

Lemma updateMap_inv s : vinv s -> vinv (Vanilla.updateMap s).
Proof.
  intros Hinv. unfold vinv in Hinv.
  destruct (Vanilla.map s) as [m|] eqn:Hm.
  - destruct Hinv as (mks & pls & cis & H0).
    destruct (updateMap_owned _ _ _ _ _ H0) as (m' & n & H' & _).
    unfold vinv. destruct H' as [Hmap H']. rewrite Hmap.
    eexists; eexists; eexists. split; [exact Hmap | exact H'].
  - unfold Vanilla.updateMap. rewrite Hm. unfold vinv. rewrite Hm.
    exact Hinv.
Qed.

Lemma vanilla_reachable_inv s : Vanilla.reachable s -> vinv s.
Proof.
  induction 1 as [|container s _ IH|s _ IH|s _ IH|route zones s _ IH].
  - unfold vinv. simpl. auto.
  - unfold Vanilla.initMap. destruct container; [|exact IH]. simpl.
    destruct (Vanilla.map s) as [m|] eqn:Hm; [exact IH|].
    apply updateMap_inv. unfold vinv in *. rewrite Hm in IH. simpl.
    destruct IH as (Hu & Hr & Ht).
    exists [], [], []. split; [reflexivity|]. simpl.
    rewrite Hu, Hr, Ht. apply Owned_tile.
  - apply updateMap_inv. exact IH.
  - unfold Vanilla.triggerSOS.
    match goal with
    | |- vinv (match Vanilla.map ?x with _ => _ end) =>
        assert (Hs : vinv x) by (revert IH; apply vinv_ext; reflexivity);
        destruct (Vanilla.map x)
    end.
    + apply updateMap_inv. exact Hs.
    + exact Hs.
  - revert IH. apply vinv_ext; reflexivity.
Qed.

(** ** What is on the map *)

Lemma combine_snd {A B} (l : list A) (l' : list B) :
  List.length l = List.length l' -> map snd (combine l l') = l'.
Proof.
  revert l'. induction l as [|a l IH]; intros [|b l'] H; simpl in *;
    try discriminate; [reflexivity|].
  f_equal. apply IH. lia.
Qed.

Lemma combine_fst {A B} (l : list A) (l' : list B) :
  List.length l = List.length l' -> map fst (combine l l') = l.
Proof.
  revert l'. induction l as [|a l IH]; intros [|b l'] H; simpl in *;
    try discriminate; [reflexivity|].
  f_equal. apply IH. lia.
Qed.

Lemma circles_after_content p n :
  map snd (circles_after p n)
  = if showThreats p then map zoneCircle (threatZones p) else [].
Proof.
  unfold circles_after. destruct (showThreats p); [|reflexivity].
  apply combine_snd. rewrite length_seq, length_map. reflexivity.
Qed.

Lemma circles_after_handles p n :
  handles (circles_after p n)
  = if showThreats p then seq n (List.length (threatZones p)) else [].
Proof.
  unfold circles_after, handles. destruct (showThreats p); [|reflexivity].
  apply combine_fst. rewrite length_seq, length_map. reflexivity.
Qed.

Lemma route_after_content p n :
  map snd (route_after p n)
  = match effectivePoints p with
    | [] => []
    | pts => [Polyline pts (routeOptions (isDistress p))]
    end.
Proof. unfold route_after. destruct (effectivePoints p); reflexivity. Qed.

(** One run of the effect from a state of the component that ends
    with a map: what is on the map, who holds it, what is gone. *)
Lemma effect_spec container p c m' :
  MapComponent.reachable c ->
  leafletMap (effect true container p c) = Some m' ->
  exists mks n1 n2,
    owned (effect true container p c) m'
          [marker_after p (MapComponent.next (ensureMap container p c)) mks]
          (route_after p n1) (circles_after p n2)
    /\ (forall m, leafletMap c = Some m -> of_kind is_marker m = mks)
    /\ (leafletMap c = None -> mks = [])
    /\ MapComponent.next c <= n1 /\ n1 <= n2
    /\ (forall h, routeLayerRef c = Some h -> ~ In h (handles (layers m')))
    /\ (forall h, In h (threatLayersRef c) -> ~ In h (handles (layers m'))).
Proof.
  intros Hreach Hm'. apply reachable_inv in Hreach.
  destruct (effect_has_map _ _ _ _ Hreach Hm') as (m0 & mks & pls & cis & H0).
  destruct (effect_owned _ _ _ _ _ _ _ H0)
    as (m1 & n1 & n2 & H1 & Hn1 & Hn2 & _ & Hr & Ht).
  assert (m1 = m') by (destruct H1 as [Hmap _]; congruence). subst m1.
  destruct (ensureMap_refs container p c) as (Er & Et & _).
  rewrite Er in Hr. rewrite Et in Ht.
  pose proof (ensureMap_next container p c).
  exists mks, n1, n2. split; [exact H1|]. repeat split; try lia; auto.
  - intros m Hm. destruct H0 as [Hmap0 (_ & _ & Hk & _)].
    unfold ensureMap in Hmap0. rewrite Hm in Hmap0. congruence.
  - intros Hnone. destruct H0 as [Hmap0 (_ & _ & Hk & _)].
    unfold ensureMap in Hmap0. rewrite Hnone in Hmap0.
    destruct container; [|simpl in Hmap0; congruence].
    simpl in Hmap0. inversion Hmap0; subst m0. rewrite <- Hk. reflexivity.
Qed.

Lemma marker_after_shape p n mks :
  exists h ic, marker_after p n mks = (h, Marker (center p) ic).
Proof.
  destruct mks as [|[h l] rest]; [|destruct l]; simpl; eauto.
Qed.

Lemma ensureMap_id container p c m :
  leafletMap c = Some m -> ensureMap container p c = c.
Proof. intros H. unfold ensureMap. rewrite H. reflexivity. Qed.

(** C6.  A run of the effect that ends with a map draws the route
    line from the supplied route points when there are any, else from
    the current location to the destination when there is one, else
    draws none; a line on the map is a newly created object held by the
    route ref; and the line of the run before is off the map. *)
Theorem route_line_recreated (container : bool) (p : Props) (c : Refs)
        (m' : LMap) :
  MapComponent.reachable c ->
  leafletMap (effect true container p c) = Some m' ->
  let style := routeOptions (isDistress p) in
  (routePoints p <> [] ->
   map snd (of_kind is_polyline m') = [Polyline (routePoints p) style])
  /\ (forall d, routePoints p = [] -> destination p = Some d ->
                map snd (of_kind is_polyline m')
                = [Polyline [center p; d] style])
  /\ (routePoints p = [] -> destination p = None ->
      of_kind is_polyline m' = [])
  /\ (forall h l, In (h, l) (of_kind is_polyline m') ->
                  MapComponent.next c <= h
                  /\ routeLayerRef (effect true container p c) = Some h)
  /\ (forall h, routeLayerRef c = Some h -> ~ In h (handles (layers m'))).
Proof.
  intros Hreach Hm' style.
  destruct (effect_spec _ _ _ _ Hreach Hm')
    as (mks & n1 & n2 & [_ Ho] & _ & _ & Hn1 & _ & Hr & _).
  destruct Ho as (_ & _ & _ & Hp & _ & _ & Href & _).
  rewrite Hp. rewrite route_after_content.
  split; [|split; [|split; [|split]]].
  - intros Hne. unfold effectivePoints.
    destruct (routePoints p); [congruence | reflexivity].
  - intros d Hnil Hd. unfold effectivePoints. rewrite Hnil, Hd. reflexivity.
  - intros Hnil Hd. unfold route_after, effectivePoints.
    rewrite Hnil, Hd. reflexivity.
  - intros h l Hin. unfold route_after in *.
    destruct (effectivePoints p) as [|pt pts]; [contradiction|].
    destruct Hin as [Heq|[]]. inversion Heq; subst h l.
    split; [exact Hn1|].
    destruct (routeLayerRef (effect true container p c)) as [h'|];
      [|discriminate].
    destruct Href as (_ & [(pts' & o & Heq')|[Heq' _]]); [|discriminate].
    inversion Heq'. reflexivity.
  - exact Hr.
Qed.

(** Who holds what is on a map the refs own. *)
Lemma owned_no_leak n m mk rt ov mks pls cis :
  Owned n m mk rt ov mks pls cis ->
  (forall e, mks = [e] -> mk = Some (fst e))
  /\ (forall h, In h (handles pls) -> rt = Some h)
  /\ handles cis = ov
  /\ List.length pls <= 1.
Proof.
  intros (_ & _ & _ & _ & _ & Hk & Hr & Ho).
  split; [|split; [|split]].
  - intros e ->. destruct mk as [h|]; [|discriminate].
    destruct Hk as (pos & ic & Heq). inversion Heq. reflexivity.
  - intros h Hin. destruct rt as [h'|]; [|subst pls; contradiction].
    destruct Hr as (_ & [(pts & o & ->)|[-> _]]); [|contradiction].
    destruct Hin as [<-|[]]. reflexivity.
  - exact Ho.
  - destruct rt as [h'|]; [|subst pls; simpl; lia].
    destruct Hr as (_ & [(pts & o & ->)|[-> _]]); simpl; lia.
Qed.

Lemma circles_after_length p n :
  List.length (circles_after p n)
  = if showThreats p then List.length (threatZones p) else 0.
Proof.
  rewrite <- (length_map snd), circles_after_content.
  destruct (showThreats p); [apply length_map | reflexivity].
Qed.

(** C7, as the code has it.  Two runs of a reconciler on the same
    state leave one marker, at most one route line and one overlay per
    threat zone (none when the React component's [showThreats] is off),
    each held by its ref, with distinct handles, and the second run
    shows what the first showed.  This holds for the React effect and
    for [updateMap] of the standalone script, which has no such
    switch. *)
Theorem reconcile_twice :
  (forall (container : bool) (p : Props) (c : Refs) (m1 : LMap),
      MapComponent.reachable c ->
      let c1 := effect true container p c in
      let c2 := effect true container p c1 in
      leafletMap c1 = Some m1 ->
      exists m2,
        leafletMap c2 = Some m2
        /\ List.length (of_kind is_marker m2) = 1
        /\ List.length (of_kind is_polyline m2) <= 1
        /\ List.length (of_kind is_circle m2)
           = (if showThreats p then List.length (threatZones p) else 0)
        /\ (exists h, userMarkerRef c2 = Some h
                      /\ handles (of_kind is_marker m2) = [h])
        /\ (forall h, In h (handles (of_kind is_polyline m2)) ->
                      routeLayerRef c2 = Some h)
        /\ handles (of_kind is_circle m2) = threatLayersRef c2
        /\ NoDup (handles (layers m2))
        /\ visible m2 = visible m1)
  /\ (forall (s : Vanilla.State) (m : LMap),
         Vanilla.reachable s ->
         Vanilla.map s = Some m ->
         let s1 := Vanilla.updateMap s in
         let s2 := Vanilla.updateMap s1 in
         exists m1 m2,
           Vanilla.map s1 = Some m1 /\ Vanilla.map s2 = Some m2
           /\ List.length (of_kind is_marker m2) = 1
           /\ List.length (of_kind is_polyline m2) <= 1
           /\ List.length (of_kind is_circle m2)
              = List.length (Vanilla.threatZones s)
           /\ (exists h, Vanilla.userMarker s2 = Some h
                         /\ handles (of_kind is_marker m2) = [h])
           /\ (forall h, In h (handles (of_kind is_polyline m2)) ->
                         Vanilla.routeLine s2 = Some h)
           /\ handles (of_kind is_circle m2) = Vanilla.threatOverlays s2
           /\ NoDup (handles (layers m2))
           /\ visible m2 = visible m1).
Proof.
  split.
  - intros container p c m1 Hreach c1 c2 Hm1.
    destruct (effect_spec _ _ _ _ Hreach Hm1)
      as (mks & n1 & n2 & H1 & _).
    destruct (marker_after_shape p (MapComponent.next (ensureMap container p c))
                                 mks) as (h & ic & Hmk).
    rewrite Hmk in H1. fold c1 in H1.
    assert (He : ensureMap container p c1 = c1)
      by (eapply ensureMap_id; exact Hm1).
    assert (H1' := H1). rewrite <- He in H1'.
    destruct (effect_owned _ _ _ _ _ _ _ H1')
      as (m2 & n1' & n2' & H2 & _).
    fold c2 in H2. simpl in H2.
    exists m2. destruct H2 as [Hm2 Ho2]. split; [exact Hm2|].
    destruct (owned_no_leak _ _ _ _ _ _ _ _ Ho2) as (Lm & Lp & Lc & Ll).
    destruct Ho2 as (Hnd & _ & Hk & Hp & Hc & _).
    destruct H1 as [_ (_ & _ & Hk1 & Hp1 & Hc1 & _)].
    rewrite Hk, Hp, Hc.
    split; [reflexivity|]. split; [exact Ll|].
    split; [apply circles_after_length|].
    split; [exists h; split; [apply (Lm _ eq_refl) | reflexivity]|].
    split; [exact Lp|]. split; [exact Lc|]. split; [exact Hnd|].
    unfold visible. rewrite Hk, Hp, Hc, Hk1, Hp1, Hc1.
    rewrite !route_after_content, !circles_after_content. reflexivity.
  - intros s m Hreach Hm s1 s2.
    apply vanilla_reachable_inv in Hreach. unfold vinv in Hreach.
    rewrite Hm in Hreach. destruct Hreach as (mks & pls & cis & H0).
    destruct (updateMap_owned _ _ _ _ _ H0)
      as (m1 & n & H1 & _ & _ & Es & El & Er & Ez).
    fold s1 in H1, Es, El, Er, Ez.
    destruct (updateMap_owned _ _ _ _ _ H1) as (m2 & n' & H2 & _).
    fold s2 in H2.
    exists m1, m2. destruct H1 as [Hm1 Ho1]. destruct H2 as [Hm2 Ho2].
    split; [exact Hm1|]. split; [exact Hm2|].
    destruct (owned_no_leak _ _ _ _ _ _ _ _ Ho2) as (Lm & Lp & Lc & Ll).
    destruct Ho2 as (Hnd & _ & Hk & Hp & Hc & _).
    destruct Ho1 as (_ & _ & Hk1 & Hp1 & Hc1 & _).
    rewrite Hk, Hp, Hc.
    split; [reflexivity|]. split; [exact Ll|].
    split.
    { rewrite length_combine, length_seq, length_map, Ez. apply Nat.min_id. }
    split; [eexists; split; [apply (Lm _ eq_refl) | reflexivity]|].
    split; [exact Lp|]. split; [exact Lc|]. split; [exact Hnd|].
    unfold visible. rewrite Hk, Hp, Hc, Hk1, Hp1, Hc1.
    rewrite Es, El, Ez. unfold vroute_after. rewrite Er, Es.
    rewrite !combine_snd by (rewrite length_seq, length_map; reflexivity).
    destruct (Vanilla.safeRoute s); reflexivity.
Qed.

Local Open Scope string_scope.

(** C8, as the code has it.  A run of the React effect that ends with
    a map takes every overlay of the run before off the map and, when
    [showThreats] is on, draws one new circle per threat zone, in
    order, centred at the zone's coordinate with the zone's radius,
    red for High, amber for Medium and blue for Low; when [showThreats]
    is off it draws none.  [updateMap] of the standalone script always
    draws one circle per zone, red for High and amber for any other
    intensity. *)
Theorem overlays_replaced :
  (forall (container : bool) (p : Props) (c : Refs) (m' : LMap),
      MapComponent.reachable c ->
      leafletMap (effect true container p c) = Some m' ->
      (forall h, In h (threatLayersRef c) -> ~ In h (handles (layers m')))
      /\ map snd (of_kind is_circle m')
         = (if showThreats p then map zoneCircle (threatZones p) else [])
      /\ handles (of_kind is_circle m')
         = threatLayersRef (effect true container p c)
      /\ Forall (fun h => MapComponent.next c <= h)
                (threatLayersRef (effect true container p c)))
  /\ (forall z,
         zoneCircle z
         = Circle (zone_lat z, zone_lng z) (zone_radius z) (zoneOptions z)
         /\ color (zoneOptions z) = zoneColor z
         /\ fillColor (zoneOptions z) = Some (zoneColor z)
         /\ (intensity z = "High" -> zoneColor z = "#ef4444")
         /\ (intensity z = "Medium" -> zoneColor z = "#f59e0b")
         /\ (intensity z = "Low" -> zoneColor z = "#3b82f6"))
  /\ (forall (s : Vanilla.State) (m : LMap),
         Vanilla.reachable s ->
         Vanilla.map s = Some m ->
         exists m',
           Vanilla.map (Vanilla.updateMap s) = Some m'
           /\ (forall h, In h (Vanilla.threatOverlays s) ->
                         ~ In h (handles (layers m')))
           /\ map snd (of_kind is_circle m')
              = map Vanilla.zoneCircle (Vanilla.threatZones s)
           /\ handles (of_kind is_circle m')
              = Vanilla.threatOverlays (Vanilla.updateMap s))
  /\ (forall z,
         (exists o,
             Vanilla.zoneCircle z
             = Circle (zone_lat z, zone_lng z) (zone_radius z) o
             /\ color o = Vanilla.zoneColor z
             /\ fillColor o = Some (Vanilla.zoneColor z))
         /\ (intensity z = "High" -> Vanilla.zoneColor z = "#ef4444")
         /\ (intensity z <> "High" -> Vanilla.zoneColor z = "#f59e0b")).
Proof.
  split; [|split; [|split]].
  - intros container p c m' Hreach Hm'.
    destruct (effect_spec _ _ _ _ Hreach Hm')
      as (mks & n1 & n2 & [_ Ho] & _ & _ & Hn1 & Hn2 & _ & Ht).
    destruct Ho as (_ & _ & _ & _ & Hc & _ & _ & Hov).
    split; [exact Ht|]. rewrite Hc.
    split; [apply circles_after_content|]. split; [exact Hov|].
    rewrite <- Hov, circles_after_handles.
    destruct (showThreats p); [|constructor].
    apply Forall_forall. intros h Hh. apply in_seq in Hh. lia.
  - intros z. unfold zoneColor.
    repeat split; intros H; rewrite H; reflexivity.
  - intros s m Hreach Hm.
    pose proof (vanilla_reachable_inv _ Hreach) as Hinv.
    unfold vinv in Hinv. rewrite Hm in Hinv.
    destruct Hinv as (mks & pls & cis & H0).
    destruct (updateMap_owned _ _ _ _ _ H0)
      as (m' & n & [Hm' Ho] & _ & Hgone & _).
    exists m'. split; [exact Hm'|].
    destruct Ho as (_ & _ & _ & _ & Hc & _ & _ & Hov).
    split.
    + intros h Hh. apply Hgone; [|auto].
      destruct H0 as [_ (_ & Hb & _ & _ & Hci & _ & _ & Hov0)].
      rewrite <- Hov0, <- Hci in Hh. unfold handles in Hh.
      apply in_map_iff in Hh. destruct Hh as (e & <- & He).
      apply in_of_kind in He. rewrite Forall_forall in Hb. apply Hb. tauto.
    + rewrite Hc. split; [|exact Hov].
      apply combine_snd. rewrite length_seq, length_map. reflexivity.
  - intros z. unfold Vanilla.zoneCircle, Vanilla.zoneColor.
    split; [eexists; repeat split|split].
    + intros H. rewrite H. reflexivity.
    + intros H. destruct (String.eqb_spec (intensity z) "High");
        [contradiction | reflexivity].
Qed.

(** C10.  After a run of the React effect that ends with a map, with
    [showThreats] off no circle is on the map, the overlay refs are
    empty and the overlays of the run before are off the map, whatever
    the threat zones are, so that the number of circles differs from
    the number of zones unless there is none; with [showThreats] on
    there is one circle per zone. *)
Theorem showThreats_gate (container : bool) (p : Props) (c : Refs)
        (m' : LMap) :
  MapComponent.reachable c ->
  leafletMap (effect true container p c) = Some m' ->
  (showThreats p = false ->
   of_kind is_circle m' = []
   /\ threatLayersRef (effect true container p c) = []
   /\ (forall h, In h (threatLayersRef c) -> ~ In h (handles (layers m')))
   /\ (threatZones p <> [] ->
       List.length (of_kind is_circle m') <> List.length (threatZones p)))
  /\ (showThreats p = true ->
      List.length (of_kind is_circle m') = List.length (threatZones p)).
Proof.
  intros Hreach Hm'.
  destruct (effect_spec _ _ _ _ Hreach Hm')
    as (mks & n1 & n2 & [_ Ho] & _ & _ & _ & _ & _ & Ht).
  destruct Ho as (_ & _ & _ & _ & Hc & _ & _ & Hov).
  split; intros Hshow.
  - assert (Hnil : of_kind is_circle m' = []).
    { rewrite Hc. unfold circles_after. rewrite Hshow. reflexivity. }
    split; [exact Hnil|].
    split; [rewrite <- Hov, <- Hc, Hnil; reflexivity|].
    split; [exact Ht|].
    intros Hne. rewrite Hnil. simpl.
    destruct (threatZones p); [congruence | discriminate].
  - rewrite Hc, circles_after_length, Hshow. reflexivity.
Qed.

(** The effect after the distress flag was flipped: the marker keeps
    its handle, position and icon; the line keeps its points and takes
    the style of the new flag. *)
Lemma toggle_keeps_marker (container : bool) (p : Props) (c : Refs)
      (m1 : LMap) :
  MapComponent.reachable c ->
  leafletMap (effect true container p c) = Some m1 ->
  exists m2,
    leafletMap (effect true container (toggleDistress p)
                       (effect true container p c)) = Some m2
    /\ of_kind is_marker m2 = of_kind is_marker m1
    /\ map snd (of_kind is_polyline m2)
       = match effectivePoints p with
         | [] => []
         | pts => [Polyline pts (routeOptions (negb (isDistress p)))]
         end.
Proof.
  intros Hreach Hm1.
  destruct (effect_spec _ _ _ _ Hreach Hm1) as (mks & n1 & n2 & H1 & _).
  destruct (marker_after_shape p (MapComponent.next (ensureMap container p c))
                               mks) as (h & ic & Hmk).
  rewrite Hmk in H1.
  set (c1 := effect true container p c) in *.
  assert (He : ensureMap container (toggleDistress p) c1 = c1)
    by (eapply ensureMap_id; exact Hm1).
  assert (H1' := H1). rewrite <- He in H1'.
  destruct (effect_owned _ _ _ _ _ _ _ H1') as (m2 & n1' & n2' & H2 & _).
  exists m2. destruct H2 as [Hm2 (_ & _ & Hk & Hp & _)].
  destruct H1 as [_ (_ & _ & Hk1 & _)].
  split; [exact Hm2|]. rewrite Hk, Hk1, Hp, route_after_content.
  split; reflexivity.
Qed.

(** The standalone script does restyle its marker: [triggerSOS] with a
    map recreates it with the icon of the flipped flag. *)
Lemma triggerSOS_restyles_marker (s : Vanilla.State) (m : LMap) :
  Vanilla.reachable s ->
  Vanilla.map s = Some m ->
  exists m',
    Vanilla.map (Vanilla.triggerSOS s) = Some m'
    /\ map snd (of_kind is_marker m')
       = [Marker (Vanilla.currentLocation s)
                 (Vanilla.icon (negb (Vanilla.isSOSActive s)))].
Proof.
  intros Hreach Hm.
  pose proof (vanilla_reachable_inv _ Hreach) as Hinv.
  unfold Vanilla.triggerSOS. simpl. rewrite Hm.
  match goal with
  | |- context [Vanilla.updateMap ?x] =>
      assert (Hs : vinv x) by (revert Hinv; apply vinv_ext; simpl; auto);
      set (s' := x) in *
  end.
  unfold vinv in Hs. replace (Vanilla.map s') with (Some m) in Hs
    by (unfold s'; reflexivity).
  destruct Hs as (mks & pls & cis & H0).
  destruct (updateMap_owned _ _ _ _ _ H0) as (m' & n & [Hm' Ho] & _).
  exists m'. split; [exact Hm'|].
  destruct Ho as (_ & _ & Hk & _). rewrite Hk. reflexivity.
Qed.

Lemma demo_script_reachable : Vanilla.reachable Demo.script.
Proof. repeat constructor. Defined.

(** Scenario A of the specification: the line runs from the current
    location to the destination. *)
Lemma route_line_recreated_witness :
  exists m',
    leafletMap (effect true true Demo.scenarioA mounted) = Some m'
    /\ map snd (of_kind is_polyline m')
       = [Polyline [Demo.here; Demo.dest] (routeOptions false)].
Proof.
  destruct (leafletMap (effect true true Demo.scenarioA mounted))
    as [m'|] eqn:Hm; [|vm_compute in Hm; discriminate Hm].
  exists m'. split; [reflexivity|].
  destruct (route_line_recreated true Demo.scenarioA mounted m'
              reach_mounted Hm) as (_ & Hdest & _).
  exact (Hdest Demo.dest eq_refl eq_refl).
Defined.

Lemma reconcile_twice_witness :
  (exists m2,
      leafletMap (effect true true (Demo.threats true)
                         (effect true true (Demo.threats true) mounted))
      = Some m2
      /\ List.length (of_kind is_marker m2) = 1
      /\ List.length (of_kind is_circle m2) = 3)
  /\ (exists m2,
         Vanilla.map (Vanilla.updateMap (Vanilla.updateMap Demo.script))
         = Some m2
         /\ List.length (of_kind is_marker m2) = 1
         /\ List.length (of_kind is_circle m2) = 3).
Proof.
  destruct reconcile_twice as [Hreact Hscript]. split.
  - destruct (leafletMap (effect true true (Demo.threats true) mounted))
      as [m1|] eqn:Hm1; [|vm_compute in Hm1; discriminate Hm1].
    destruct (Hreact true (Demo.threats true) mounted m1 reach_mounted Hm1)
      as (m2 & Hm2 & Hmk & _ & Hci & _).
    exists m2. auto.
  - destruct (Vanilla.map Demo.script) as [m|] eqn:Hm;
      [|vm_compute in Hm; discriminate Hm].
    destruct (Hscript Demo.script m demo_script_reachable Hm)
      as (m1 & m2 & _ & Hm2 & Hmk & _ & Hci & _).
    exists m2. auto.
Defined.

(** C7 as stated fails: with [showThreats] off and three zones, two
    runs of the React effect leave no overlay. *)
Lemma hidden_threats_no_overlays :
  exists m2,
    leafletMap (effect true true (Demo.threats false)
                       (effect true true (Demo.threats false) mounted))
    = Some m2
    /\ List.length (threatZones (Demo.threats false)) = 3
    /\ List.length (of_kind is_circle m2) = 0.
Proof. eexists. split; [vm_compute; reflexivity|]. split; reflexivity. Qed.

Lemma overlays_replaced_witness :
  (exists m',
      leafletMap (effect true true (Demo.threats true) mounted) = Some m'
      /\ map snd (of_kind is_circle m') = map zoneCircle Demo.zones)
  /\ (exists m',
         Vanilla.map (Vanilla.updateMap Demo.script) = Some m'
         /\ map snd (of_kind is_circle m')
            = map Vanilla.zoneCircle Demo.zones)
  /\ zoneColor (Demo.zone "z3" "Low") = "#3b82f6".
Proof.
  destruct overlays_replaced as (Hreact & Hcolor & Hscript & _).
  split; [|split].
  - destruct (leafletMap (effect true true (Demo.threats true) mounted))
      as [m'|] eqn:Hm; [|vm_compute in Hm; discriminate Hm].
    destruct (Hreact true (Demo.threats true) mounted m' reach_mounted Hm)
      as (_ & Hc & _).
    exists m'. split; [reflexivity | exact Hc].
  - destruct (Vanilla.map Demo.script) as [m|] eqn:Hm;
      [|vm_compute in Hm; discriminate Hm].
    destruct (Hscript Demo.script m demo_script_reachable Hm)
      as (m' & Hm' & _ & Hc & _).
    exists m'. split; [exact Hm' | exact Hc].
  - destruct (Hcolor (Demo.zone "z3" "Low")) as (_ & _ & _ & _ & _ & Hlow).
    apply Hlow. reflexivity.
Defined.

(** C8 as stated fails twice: with [showThreats] off the React effect
    recreates no overlay for the three zones; and the standalone script
    gives Medium and Low the same colour. *)
Lemma overlays_not_per_zone :
  (exists m',
      leafletMap (effect true true (Demo.threats false) mounted) = Some m'
      /\ List.length (threatZones (Demo.threats false)) = 3
      /\ of_kind is_circle m' = [])
  /\ Vanilla.zoneColor (Demo.zone "z2" "Medium")
     = Vanilla.zoneColor (Demo.zone "z3" "Low").
Proof.
  split; [|reflexivity].
  eexists. split; [vm_compute; reflexivity|]. split; reflexivity.
Qed.

Lemma showThreats_gate_witness :
  (exists m',
      leafletMap (effect true true (Demo.threats false)
                         (effect true true (Demo.threats true) mounted))
      = Some m'
      /\ of_kind is_circle m' = []
      /\ List.length (of_kind is_circle m')
         <> List.length (threatZones (Demo.threats false)))
  /\ (exists m',
         leafletMap (effect true true (Demo.threats true) mounted) = Some m'
         /\ List.length (of_kind is_circle m') = 3).
Proof.
  split.
  - destruct (leafletMap (effect true true (Demo.threats false)
                                 (effect true true (Demo.threats true)
                                         mounted)))
      as [m'|] eqn:Hm; [|vm_compute in Hm; discriminate Hm].
    destruct (showThreats_gate true (Demo.threats false)
                (effect true true (Demo.threats true) mounted) m'
                (@reach_effect true true (Demo.threats true) mounted
                               reach_mounted) Hm) as [Hoff _].
    destruct (Hoff eq_refl) as (Hnil & _ & _ & Hne).
    exists m'. split; [reflexivity|]. split; [exact Hnil|].
    apply Hne. discriminate.
  - destruct (leafletMap (effect true true (Demo.threats true) mounted))
      as [m'|] eqn:Hm; [|vm_compute in Hm; discriminate Hm].
    destruct (showThreats_gate true (Demo.threats true) mounted m'
                reach_mounted Hm) as [_ Hon].
    exists m'. split; [reflexivity|]. exact (Hon eq_refl).
Defined.

(** C2 on the code: mounted without distress and run once, then run
    again with the flag set, the component still shows the marker with
    the icon of the first run, at the same place, while the line has
    the same points in the distress style. *)
Theorem distress_toggle_keeps_marker_icon :
  let p := Demo.scenarioA in
  let c1 := effect true true p mounted in
  let c2 := effect true true (toggleDistress p) c1 in
  exists m1 m2,
    leafletMap c1 = Some m1 /\ leafletMap c2 = Some m2
    /\ isDistress (toggleDistress p) = true
    /\ map snd (of_kind is_marker m1) = [Marker Demo.here (userIcon false)]
    /\ map snd (of_kind is_marker m2) = [Marker Demo.here (userIcon false)]
    /\ userIcon true <> userIcon false
    /\ map snd (of_kind is_polyline m1)
       = [Polyline [Demo.here; Demo.dest] (routeOptions false)]
    /\ map snd (of_kind is_polyline m2)
       = [Polyline [Demo.here; Demo.dest] (routeOptions true)].
Proof.
  eexists; eexists.
  split; [vm_compute; reflexivity|]. split; [vm_compute; reflexivity|].
  repeat split; try reflexivity. discriminate.
Qed.
(* ================================================================== *)
(** * Further properties of the service module *)
(* ================================================================== *)

(** ** The executor on any scripted operation *)

Lemma service_withRetry_S env T (fn : M World T) r delay w :
  @Service.withRetry env T fn (S r) delay w =
  match fn w with
  | (Ok a, w1) => (Ok a, w1)
  | (Throw e, w1) =>
      if Service.isRateLimit e then
        @Service.withRetry env T fn r (delay * 2)%Q
          {| requests := requests w1; draws := S (draws w1);
             timers := timers w1 ++ [(delay + random env (draws w1) * 1000)%Q];
             console := console w1 ++ [WarnRetrying delay];
             sessions := sessions w1; sent := sent w1 |}
      else (Throw e, w1)
  end.
Proof.
  cbn [Service.withRetry]. unfold try_catch at 1.
  destruct (fn w) as [[a|e] w1]; [reflexivity|].
  destruct (Service.isRateLimit e); reflexivity.
Qed.

Lemma service_withRetry_O env T (fn : M World T) delay w :
  @Service.withRetry env T fn 0 delay w = fn w.
Proof.
  cbn [Service.withRetry]. unfold try_catch.
  destruct (fn w) as [[a|e] w1]; reflexivity.
Qed.

Lemma service_withRetry_scripted env T req (op : nat -> Outcome T) fn
      retries :
  scripted req op fn ->
  forall delay w,
    let k := retries_taken Service.isRateLimit op
                           (List.length (requests w)) retries in
    let out := @Service.withRetry env T fn retries delay w in
    fst out = op (List.length (requests w) + k)
    /\ requests (snd out) = (requests w ++ repeat req (S k))%list
    /\ timers (snd out)
       = (timers w ++ jittered (random env) (draws w) delay k)%list
    /\ draws (snd out) = draws w + k
    /\ sessions (snd out) = sessions w
    /\ sent (snd out) = sent w.
Proof.
  intros Hfn. induction retries as [|r IH]; intros delay w; cbv zeta;
    destruct (Hfn w) as (Ho & Hr & Hd & Ht & Hs & Hm).
  - rewrite service_withRetry_O. cbn [retries_taken jittered repeat].
    rewrite !Nat.add_0_r, !app_nil_r. auto 10.
  - rewrite service_withRetry_S. cbn [retries_taken]. rewrite <- Ho.
    destruct (fn w) as [[a|e] w1] eqn:Hrun; cbn [fst snd rate_limited] in *.
    + cbn [jittered repeat]. rewrite !Nat.add_0_r, !app_nil_r. auto 10.
    + destruct (Service.isRateLimit e) eqn:Hrl.
      * match goal with
        | |- context [Service.withRetry env fn r ?d ?w0] =>
            pose proof (IH d w0) as IHw;
            remember (Service.withRetry env fn r d w0) as out eqn:Hout
        end.
        clear Hout. cbv zeta in IHw.
        cbn [requests draws timers console sessions sent] in IHw.
        rewrite Hr, Hd, Ht, Hs, Hm in IHw.
        rewrite length_app in IHw. cbn [List.length] in IHw.
        replace (List.length (requests w) + 1)
          with (S (List.length (requests w))) in IHw by lia.
        destruct IHw as (I1 & I2 & I3 & I4 & I5 & I6).
        rewrite I1, I2, I3, I4, I5, I6.
        cbn [jittered repeat]. rewrite <- !app_assoc. cbn [app].
        repeat split; try reflexivity; try lia; f_equal; lia.
      * cbn [fst snd jittered repeat].
        rewrite !Nat.add_0_r, !app_nil_r. auto 10.
Qed.

Lemma retries_taken_stop {T} isRL (op : nat -> Outcome T) retries :
  forall c,
    retries_taken isRL op c retries < retries ->
    rate_limited isRL (op (c + retries_taken isRL op c retries)) = false.
Proof.
  induction retries as [|r IH]; intros c H; cbn [retries_taken] in *.
  - lia.
  - destruct (rate_limited isRL (op c)) eqn:Hc.
    + replace (c + S (retries_taken isRL op (S c) r))
        with (S c + retries_taken isRL op (S c) r) by lia.
      apply IH. lia.
    + rewrite Nat.add_0_r. exact Hc.
Qed.

Lemma retries_taken_all {T} isRL (op : nat -> Outcome T) retries :
  forall c i,
    i < retries_taken isRL op c retries ->
    rate_limited isRL (op (c + i)) = true.
Proof.
  induction retries as [|r IH]; intros c i H; cbn [retries_taken] in *.
  - lia.
  - destruct (rate_limited isRL (op c)) eqn:Hc; [|lia].
    destruct i as [|i]; [rewrite Nat.add_0_r; exact Hc|].
    replace (c + S i) with (S c + i) by lia. apply IH. lia.
Qed.

Lemma parse_response_run env response w :
  Service.parse_response env response w = (response_outcome env response, w).
Proof.
  unfold Service.parse_response, response_outcome, parse_error.
  destruct (text response) as [t|]; [|reflexivity].
  destruct (JSON.parse (Js.trim t)); reflexivity.
Qed.

Lemma plain_attempt_scripted env req :
  scripted req (plain_outcome env)
           (bind (generateContent env req) (Service.parse_response env)).
Proof.
  intros w. unfold bind, generateContent, perform, plain_outcome.
  destruct (service env (List.length (requests w))) as [r|e].
  - rewrite parse_response_run. simpl. auto 10.
  - simpl. auto 10.
Qed.

Lemma score_attempt_scripted env loc :
  scripted (ReqScore loc) (score_outcome env) (Service.score_attempt env loc).
Proof.
  intros w. unfold Service.score_attempt, bind, generateContent, perform,
    score_outcome.
  destruct (service env (List.length (requests w))) as [r|e].
  - unfold Service.parse_score, try_catch. rewrite parse_response_run.
    destruct (response_outcome env r); simpl; auto 10.
  - simpl. auto 10.
Qed.

(** Every stage is the executor, with its defaults, around a scripted
    attempt. *)
Lemma stage_of_scripted env req :
  exists fn,
    scripted req (attempt_outcome env req) fn
    /\ stage_of env req = @Service.withRetry env JSON.value fn 4 2000%Q.
Proof.
  destruct req as [loc|a b|lat lng|lat lng]; cbn [stage_of attempt_outcome].
  - exists (Service.score_attempt env loc).
    split; [apply score_attempt_scripted | reflexivity].
  - exists (Service.route_attempt env a b).
    split; [apply plain_attempt_scripted | reflexivity].
  - exists (Service.trend_attempt env lat lng).
    split; [apply plain_attempt_scripted | reflexivity].
  - exists (Service.zones_attempt env lat lng).
    split; [apply plain_attempt_scripted | reflexivity].
Qed.

Lemma stage_of_run env req w :
  let first := List.length (requests w) in
  let k := retries_taken Service.isRateLimit (attempt_outcome env req)
                         first 4 in
  let out := stage_of env req w in
  k <= 4
  /\ fst out = attempt_outcome env req (first + k)
  /\ requests (snd out) = (requests w ++ repeat req (S k))%list
  /\ timers (snd out)
     = (timers w ++ jittered (random env) (draws w) 2000%Q k)%list
  /\ draws (snd out) = draws w + k
  /\ sessions (snd out) = sessions w
  /\ sent (snd out) = sent w.
Proof.
  cbv zeta. destruct (stage_of_scripted env req) as (fn & Hfn & ->).
  split; [apply retries_taken_le|].
  exact (service_withRetry_scripted env _ req _ fn 4 Hfn 2000%Q w).
Qed.

(** X1.  Each of the four stages makes between one and five attempts,
    every one sending the stage's own request; it returns the
    outcome of the last attempt, the earlier ones having failed with
    the rate-limit signature; it waits once between two attempts, the
    [j]-th time [2000 * 2^j] ms plus the jitter drawn then; and it
    never touches the chat.  An attempt of the score stage fails only
    when the service call fails; an attempt of the other stages fails
    also when the response does not parse. *)
Theorem stages_keep_contract (env : Env) (req : Request) (w : World) :
  let first := List.length (requests w) in
  let out := stage_of env req w in
  exists k,
    k <= 4
    /\ fst out = attempt_outcome env req (first + k)
    /\ (forall i, i < k ->
          rate_limited Service.isRateLimit
                       (attempt_outcome env req (first + i)) = true)
    /\ requests (snd out) = (requests w ++ repeat req (S k))%list
    /\ timers (snd out)
       = (timers w ++ jittered (random env) (draws w) 2000%Q k)%list
    /\ draws (snd out) = draws w + k
    /\ sessions (snd out) = sessions w
    /\ sent (snd out) = sent w.
Proof.
  cbv zeta.
  destruct (stage_of_run env req w) as (H0 & H1 & H2 & H3 & H4 & H5 & H6).
  eexists. split; [exact H0|]. split; [exact H1|].
  split; [intros i Hi; eapply retries_taken_all; exact Hi|].
  auto.
Qed.

(** X2.  The score stage never fails on a response: whatever it
    returns is what the last response parsed to or, when that response
    does not parse, the fallback; and whatever it throws is the error
    of the last service call itself, which carries the rate-limit
    signature only when all five attempts were made. *)
Theorem score_stage_outcomes (env : Env) (loc : string) (w : World) :
  let first := List.length (requests w) in
  let out := Service.analyzeRouteSafety env loc w in
  exists k,
    k <= 4
    /\ requests (snd out) = (requests w ++ repeat (ReqScore loc) (S k))%list
    /\ match fst out with
       | Ok v =>
           exists response,
             service env (first + k) = Ok response
             /\ (parses_to response v
                 \/ (unparseable response /\ v = Service.fallback_score))
       | Throw e =>
           service env (first + k) = Throw e
           /\ (Service.isRateLimit e = true -> k = 4)
       end.
Proof.
  cbv zeta.
  destruct (stage_of_run env (ReqScore loc) w) as (H0 & H1 & H2 & _).
  cbn [stage_of attempt_outcome] in *.
  set (k := retries_taken _ _ _ _) in *.
  exists k. split; [exact H0|]. split; [exact H2|].
  rewrite H1.
  assert (Hstop : k < 4 ->
                  rate_limited Service.isRateLimit
                    (score_outcome env (List.length (requests w) + k))
                  = false)
    by (intros Hk; apply retries_taken_stop; exact Hk).
  unfold score_outcome in *.
  destruct (service env (List.length (requests w) + k)) as [response|e].
  - unfold response_outcome, parses_to, unparseable.
    destruct (text response) as [t|] eqn:Ht.
    + destruct (JSON.parse (Js.trim t)) as [v|] eqn:Hp.
      * exists response. split; [reflexivity|]. left. exists t. auto.
      * exists response. split; [reflexivity|]. right.
        rewrite Ht. auto.
    + exists response. split; [reflexivity|]. right. rewrite Ht. auto.
  - split; [reflexivity|]. intros Hrl.
    destruct (Nat.eq_dec k 4) as [|Hne]; [assumption|].
    cbn [rate_limited] in Hstop. rewrite Hstop in Hrl by lia.
    discriminate.
Qed.

Lemma response_outcome_unparseable env response :
  unparseable response ->
  response_outcome env response = Throw (parse_error env response).
Proof.
  unfold unparseable, response_outcome.
  destruct (text response) as [t|]; [|reflexivity].
  intros ->. reflexivity.
Qed.

(** X3.  A first response that does not parse.  The score stage
    returns the fallback at once.  The zones, route and trend stages
    throw the parse error at once when its message lacks the
    rate-limit signature; when the message the engine gives it carries
    the signature, the stage waits and sends its request again. *)
Theorem malformed_response (env : Env) (req : Request) (w : World)
        (response : Response) :
  service env (List.length (requests w)) = Ok response ->
  unparseable response ->
  let e := parse_error env response in
  let out := stage_of env req w in
  (is_score req = true ->
   out = (Ok Service.fallback_score,
          logged ErrorParseFallback (requested req w)))
  /\ (is_score req = false -> Service.isRateLimit e = false ->
      out = (Throw e, requested req w))
  /\ (is_score req = false -> Service.isRateLimit e = true ->
      exists more rest,
        requests (snd out) = (requests w ++ req :: req :: more)%list
        /\ timers (snd out)
           = (timers w
                ++ (2000 + random env (draws w) * 1000)%Q :: rest)%list).
Proof.
  intros Hsvc Hun e out.
  assert (Hplain : forall r,
             bind (generateContent env r) (Service.parse_response env) w
             = (Throw e, requested r w)).
  { intros r. unfold bind, generateContent, perform. rewrite Hsvc.
    rewrite parse_response_run, response_outcome_unparseable by exact Hun.
    reflexivity. }
  split; [|split].
  - intros Hreq. destruct req as [loc| | |]; try discriminate.
    unfold out. cbn [stage_of]. unfold Service.analyzeRouteSafety.
    unfold Service.default_retries. rewrite service_withRetry_S.
    unfold Service.score_attempt, bind, generateContent, perform.
    rewrite Hsvc. unfold Service.parse_score, try_catch.
    rewrite parse_response_run, response_outcome_unparseable by exact Hun.
    reflexivity.
  - intros Hreq Hrl. unfold out.
    destruct req as [loc|a b|lat lng|lat lng]; try discriminate;
      cbn [stage_of];
      unfold Service.generateSafeRoute, Service.getRiskTrend,
        Service.getThreatZones, Service.default_retries,
        Service.route_attempt, Service.trend_attempt, Service.zones_attempt;
      rewrite service_withRetry_S, Hplain; fold e; rewrite Hrl; reflexivity.
  - intros Hreq Hrl.
    destruct (stage_of_run env req w) as (_ & _ & H2 & H3 & _).
    fold out in H2, H3.
    assert (Hk : exists k', retries_taken Service.isRateLimit
                              (attempt_outcome env req)
                              (List.length (requests w)) 4 = S k').
    { cbn [retries_taken].
      assert (Hfirst : attempt_outcome env req (List.length (requests w))
                       = Throw e).
      { destruct req; try discriminate; cbn [attempt_outcome];
          unfold plain_outcome; rewrite Hsvc;
          apply response_outcome_unparseable; exact Hun. }
      rewrite Hfirst. cbn [rate_limited]. rewrite Hrl. eauto. }
    destruct Hk as (k' & Hk). rewrite Hk in H2, H3.
    cbn [repeat jittered] in H2, H3.
    eexists. eexists. split; [exact H2 | exact H3].
Qed.

Lemma malformed_response_witness :
  let env := SampleEnv.env_quoting "quota exceeded" in
  exists more rest,
    requests (snd (stage_of env (ReqZones 1 2) world0))
    = ([] ++ ReqZones 1 2 :: ReqZones 1 2 :: more)%list
    /\ timers (snd (stage_of env (ReqZones 1 2) world0))
       = ([] ++ (2000 + random env 0 * 1000)%Q :: rest)%list.
Proof.
  cbv zeta.
  refine (proj2 (proj2 (malformed_response
                          (SampleEnv.env_quoting "quota exceeded")
                          (ReqZones 1 2) world0
                          (mkResponse (Some "quota exceeded"))
                          _ _)) _ _);
    vm_compute; reflexivity.
Defined.

(** X4.  A stage gives up with an error that carries the rate-limit
    signature only after five attempts that all failed with the
    signature, and four waits. *)
Theorem rate_limited_failure_spends_budget (env : Env) (req : Request)
        (w : World) (e : JsError) :
  let out := stage_of env req w in
  fst out = Throw e ->
  Service.isRateLimit e = true ->
  requests (snd out) = (requests w ++ repeat req 5)%list
  /\ List.length (timers (snd out)) = List.length (timers w) + 4
  /\ (forall i, i < 5 ->
        rate_limited Service.isRateLimit
          (attempt_outcome env req (List.length (requests w) + i)) = true).
Proof.
  intros out Hthrow Hrl.
  destruct (stage_of_run env req w) as (H0 & H1 & H2 & H3 & _).
  fold out in H1, H2, H3.
  set (k := retries_taken _ _ _ _) in *.
  assert (Hk : k = 4).
  { destruct (Nat.eq_dec k 4) as [|Hne]; [assumption|].
    assert (Hstop := retries_taken_stop Service.isRateLimit
                       (attempt_outcome env req) 4
                       (List.length (requests w))).
    fold k in Hstop. rewrite <- H1, Hthrow in Hstop.
    cbn [rate_limited] in Hstop. rewrite Hstop in Hrl by lia.
    discriminate. }
  rewrite H2, H3, Hk, length_app, jittered_length.
  split; [reflexivity|]. split; [reflexivity|].
  intros i Hi. destruct (Nat.eq_dec i 4) as [->|Hne].
  - rewrite <- Hk, <- H1, Hthrow. exact Hrl.
  - apply (retries_taken_all Service.isRateLimit _ 4). fold k. lia.
Qed.

Lemma rate_limited_failure_spends_budget_witness :
  let env := SampleEnv.env_throttled in
  let out := stage_of env (ReqTrend 1 2) world0 in
  fst out = Throw Sample.quota_error
  /\ Service.isRateLimit Sample.quota_error = true
  /\ requests (snd out) = ([] ++ repeat (ReqTrend 1 2) 5)%list.
Proof.
  cbv zeta. split; [reflexivity|]. split; [reflexivity|].
  refine (proj1 (rate_limited_failure_spends_budget
                   SampleEnv.env_throttled (ReqTrend 1 2) world0
                   Sample.quota_error _ _)); reflexivity.
Defined.

(** ** The total waiting time *)

Lemma total_cons x l : total (x :: l) = (x + total l)%Q.
Proof. reflexivity. Qed.

Lemma total_nil : total [] = 0%Q.
Proof. reflexivity. Qed.

Lemma total_app l1 l2 : (total (l1 ++ l2) == total l1 + total l2)%Q.
Proof.
  induction l1 as [|x l1 IH]; cbn [app].
  - rewrite total_nil. lra.
  - rewrite !total_cons, IH. lra.
Qed.

Lemma inject_nat_S k :
  (inject_Z (Z.of_nat (S k)) == inject_Z (Z.of_nat k) + 1)%Q.
Proof. rewrite Nat2Z.inj_succ, <- Z.add_1_r, inject_Z_plus. reflexivity. Qed.

Lemma total_jittered rnd k :
  (forall i, 0 <= rnd i /\ rnd i < 1)%Q ->
  forall d delay,
    (delay * (pow2 k - 1) <= total (jittered rnd d delay k)
     /\ total (jittered rnd d delay k)
        <= delay * (pow2 k - 1) + 1000 * inject_Z (Z.of_nat k))%Q.
Proof.
  intros Hr. induction k as [|k IH]; intros d delay.
  - cbn [jittered]. rewrite total_nil, pow2_0.
    change (inject_Z (Z.of_nat 0)) with 0%Q. split; lra.
  - cbn [jittered]. rewrite total_cons.
    destruct (IH (S d) (delay * 2)%Q) as [Hlo Hhi].
    destruct (Hr d) as [H0 H1].
    rewrite pow2_S, inject_nat_S.
    set (t := total _) in *. set (x := pow2 k) in *.
    set (n := inject_Z (Z.of_nat k)) in *.
    split; nra.
Qed.

Lemma total_jittered_lt rnd k :
  (forall i, 0 <= rnd i /\ rnd i < 1)%Q ->
  forall d delay,
    (total (jittered rnd d delay (S k))
     < delay * (pow2 (S k) - 1) + 1000 * inject_Z (Z.of_nat (S k)))%Q.
Proof.
  intros Hr d delay. cbn [jittered]. rewrite total_cons.
  destruct (total_jittered rnd k Hr (S d) (delay * 2)%Q) as [_ Hhi].
  destruct (Hr d) as [H0 H1].
  rewrite pow2_S, inject_nat_S.
  set (t := total _) in *. set (x := pow2 k) in *.
  set (n := inject_Z (Z.of_nat k)) in *.
  nra.
Qed.


Lemma stage_waits_lt rnd k d :
  (forall i, 0 <= rnd i /\ rnd i < 1)%Q ->
  k <= 4 ->
  (total (jittered rnd d 2000 k) < 34000)%Q.
Proof.
  intros Hr Hk. destruct k as [|k].
  - cbn [jittered]. rewrite total_nil. lra.
  - eapply Qlt_le_trans; [apply total_jittered_lt; exact Hr|].
    assert (Hk' : k = 0 \/ k = 1 \/ k = 2 \/ k = 3) by lia.
    destruct Hk' as [-> | [-> | [-> | ->]]]; vm_compute; discriminate.
Qed.



(** ** The rate-limit signature *)

Lemma toLowerCase_app a b :
  Js.toLowerCase (a ++ b) = Js.toLowerCase a ++ Js.toLowerCase b.
Proof.
  induction a as [|c a IH]; cbn [append Js.toLowerCase];
    [|rewrite IH]; reflexivity.
Qed.

Lemma toLowerCase_split m :
  forall x y,
    Js.toLowerCase m = x ++ y ->
    exists u v, m = u ++ v /\ Js.toLowerCase u = x /\ Js.toLowerCase v = y.
Proof.
  induction m as [|c m IH]; intros x y H.
  - destruct x; [|discriminate]. cbn in H. subst y.
    exists EmptyString, EmptyString. auto.
  - destruct x as [|c' x].
    + exists EmptyString, (String c m). cbn [append] in *. auto.
    + cbn [append Js.toLowerCase] in H. injection H as Hc Hm.
      destruct (IH x y Hm) as (u & v & -> & Hu & Hv).
      exists (String c u), v. cbn [append Js.toLowerCase].
      rewrite Hc, Hu. auto.
Qed.

Lemma prefix_iff t : forall s,
  String.prefix t s = true <-> exists b, s = t ++ b.
Proof.
  induction t as [|c t IH]; intros s.
  - destruct s; cbn; split; eauto.
  - destruct s as [|c' s]; cbn [String.prefix append].
    + split; [discriminate | intros (b & H); discriminate].
    + destruct (ascii_dec c c') as [->|Hne].
      * rewrite IH. split; intros (b & H); exists b.
        -- rewrite H. reflexivity.
        -- injection H as H. exact H.
      * split; [discriminate|]. intros (b & H). injection H as H _.
        congruence.
Qed.

Lemma includes_iff t : forall s,
  Js.includes s t = true <-> exists a b, s = a ++ t ++ b.
Proof.
  induction s as [|c s IH]; cbn [Js.includes].
  - destruct (String.prefix t EmptyString) eqn:Hp.
    + apply prefix_iff in Hp. destruct Hp as (b & Hb).
      split; [|reflexivity]. intros _. exists EmptyString, b. exact Hb.
    + split; [discriminate|]. intros (a & b & H).
      destruct a; [|discriminate]. cbn [append] in H.
      assert (String.prefix t EmptyString = true)
        by (apply prefix_iff; eauto).
      congruence.
  - destruct (String.prefix t (String c s)) eqn:Hp.
    + apply prefix_iff in Hp. destruct Hp as (b & Hb).
      split; [|reflexivity]. intros _. exists EmptyString, b. exact Hb.
    + rewrite IH. split.
      * intros (a & b & ->). exists (String c a), b. reflexivity.
      * intros (a & b & H). destruct a as [|c' a].
        -- cbn [append] in H.
           assert (String.prefix t (String c s) = true)
             by (apply prefix_iff; eauto).
           congruence.
        -- cbn [append] in H. injection H as _ H. eauto.
Qed.

Lemma isRateLimit_iff e :
  Service.isRateLimit e = true
  <-> exists m sig, message e = Some m /\ In sig signatures
                    /\ Js.includes (Js.toLowerCase m) sig = true.
Proof.
  unfold Service.isRateLimit, signatures. split.
  - destruct (message e) as [m|].
    + intros H. apply orb_true_iff in H. destruct H as [H|H];
        [apply orb_true_iff in H; destruct H as [H|H]|];
        eexists; eexists; (split; [reflexivity|]);
        (split; [|exact H]); cbn; auto.
    + cbn. discriminate.
  - intros (m & sig & -> & Hin & H). cbn in Hin.
    destruct Hin as [<-|[<-|[<-|[]]]]; rewrite H;
      rewrite ?orb_true_r; reflexivity.
Qed.

Lemma mentions429_isRateLimit e :
  App.mentions429 e = true -> Service.isRateLimit e = true.
Proof.
  intros H. unfold App.mentions429 in H.
  destruct (message e) as [m|] eqn:Hm; [|discriminate].
  apply isRateLimit_iff. exists m, "429".
  split; [exact Hm|]. split; [cbn; auto|].
  apply includes_iff in H. destruct H as (a & b & ->).
  apply includes_iff. rewrite !toLowerCase_app.
  exists (Js.toLowerCase a), (Js.toLowerCase b). reflexivity.
Qed.

(** X6.  The rate-limit signature is one of the texts 429, quota and
    exhausted anywhere in the message of the error, in any mix of
    upper and lower case, and nothing else; an error without a message
    never has it; the executor of the standalone script recognises the
    same errors; and whatever the orchestrator reports as rate limited
    has the signature, but not the other way round. *)
Theorem rate_limit_signature :
  (forall e,
      Service.isRateLimit e = true
      <-> exists a s b,
            message e = Some (a ++ s ++ b)
            /\ In (Js.toLowerCase s) signatures)
  /\ Service.isRateLimit (mkError None) = false
  /\ (forall e, Vanilla.isRateLimit e = Service.isRateLimit e)
  /\ (forall e, App.mentions429 e = true -> Service.isRateLimit e = true)
  /\ (exists e, Service.isRateLimit e = true /\ App.mentions429 e = false).
Proof.
  split; [|split; [|split; [|split]]].
  - intros e. rewrite isRateLimit_iff. split.
    + intros (m & sig & Hm & Hin & Hinc).
      apply includes_iff in Hinc. destruct Hinc as (x & y & Hxy).
      apply toLowerCase_split in Hxy.
      destruct Hxy as (a & r & -> & Ha & Hr).
      apply toLowerCase_split in Hr.
      destruct Hr as (s & b & -> & Hs & Hb).
      exists a, s, b. rewrite Hs. auto.
    + intros (a & s & b & Hm & Hin).
      exists (a ++ s ++ b), (Js.toLowerCase s).
      split; [exact Hm|]. split; [exact Hin|].
      apply includes_iff. rewrite !toLowerCase_app. eauto.
  - reflexivity.
  - reflexivity.
  - exact mentions429_isRateLimit.
  - exists (mkError (Some "Quota exceeded")). split; reflexivity.
Qed.




(* ================================================================== *)
(** * Further properties of the orchestrator and the chat adapter *)
(* ================================================================== *)

Lemma stages_run env s : App.stages env s = stages_result env s.
Proof.
  unfold App.stages, stages_result.
  erewrite bind_ok by reflexivity.
  erewrite bind_ok by reflexivity.
  destruct (Service.analyzeRouteSafety env "Chelsea District" (App.world s))
    as [[score|e] w1] eqn:H1.
  2: { erewrite bind_throw by (apply io_run; exact H1). reflexivity. }
  erewrite bind_ok by (apply io_run; exact H1).
  erewrite bind_ok by reflexivity.
  erewrite bind_ok by (apply io_run; apply sleep_run).
  cbn [App.app App.world].
  destruct (Service.getThreatZones env _ _ (slept 2000 w1))
    as [[zones|e] w2] eqn:H2.
  2: { erewrite bind_throw by (apply io_run; exact H2). reflexivity. }
  erewrite bind_ok by (apply io_run; exact H2).
  erewrite bind_ok by reflexivity.
  erewrite bind_ok by (apply io_run; apply sleep_run).
  cbn [App.app App.world].
  destruct (Service.generateSafeRoute env _ _ (slept 2000 w2))
    as [[route|e] w3] eqn:H3.
  2: { erewrite bind_throw by (apply io_run; exact H3). reflexivity. }
  erewrite bind_ok by (apply io_run; exact H3).
  erewrite bind_ok by reflexivity.
  erewrite bind_ok by (apply io_run; apply sleep_run).
  cbn [App.app App.world].
  destruct (Service.getRiskTrend env _ _ (slept 2000 w3))
    as [[trend|e] w4] eqn:H4.
  2: { erewrite bind_throw by (apply io_run; exact H4). reflexivity. }
  erewrite bind_ok by (apply io_run; exact H4).
  reflexivity.
Qed.

Lemma init_run env s : App.init env s = (Ok tt, init_result env s).
Proof.
  unfold App.init, init_result.
  erewrite bind_ok by reflexivity.
  erewrite bind_ok by reflexivity.
  unfold try_finally, try_catch.
  change (App.stages env ?x) with (App.stages env (init_entry s)).
  match goal with
  | |- context [App.stages env ?x] => change x with (init_entry s)
  end.
  rewrite stages_run.
  destruct (stages_result env (init_entry s)) as [[[]|e] s'].
  - reflexivity.
  - erewrite bind_ok by reflexivity.
    destruct (App.mentions429 e); reflexivity.
Qed.

Lemma stage_facts env req w o w' :
  stage_of env req w = (o, w') ->
  exists k,
    k <= 4
    /\ o = attempt_outcome env req (List.length (requests w) + k)
    /\ requests w' = (requests w ++ repeat req (S k))%list
    /\ timers w' = (timers w ++ jittered (random env) (draws w) 2000%Q k)%list
    /\ draws w' = draws w + k
    /\ sessions w' = sessions w
    /\ sent w' = sent w
    /\ (forall e, o = Throw e -> Service.isRateLimit e = true -> k = 4).
Proof.
  intros Hrun.
  destruct (stage_of_run env req w) as (H0 & H1 & H2 & H3 & H4 & H5 & H6).
  rewrite Hrun in *. cbn [fst snd] in *.
  eexists. repeat (split; [eassumption|]).
  intros e He Hrl.
  set (k := retries_taken _ _ _ _) in *.
  destruct (Nat.eq_dec k 4) as [|Hne]; [assumption|].
  assert (Hstop := retries_taken_stop Service.isRateLimit
                     (attempt_outcome env req) 4
                     (List.length (requests w))).
  fold k in Hstop. rewrite <- H1, He in Hstop.
  cbn [rate_limited] in Hstop. rewrite Hstop in Hrl by lia. discriminate.
Qed.

Lemma stage_first_ok env req w response v :
  service env (List.length (requests w)) = Ok response ->
  parses_to response v ->
  stage_of env req w = (Ok v, requested req w).
Proof.
  intros Hsvc (t & Ht & Hp).
  assert (Hro : response_outcome env response = Ok v)
    by (unfold response_outcome; rewrite Ht, Hp; reflexivity).
  destruct req as [loc|a b|lat lng|lat lng]; cbn [stage_of];
    unfold Service.analyzeRouteSafety, Service.generateSafeRoute,
      Service.getRiskTrend, Service.getThreatZones,
      Service.default_retries, Service.score_attempt,
      Service.route_attempt, Service.trend_attempt, Service.zones_attempt;
    rewrite service_withRetry_S;
    unfold bind, generateContent, perform; rewrite Hsvc;
    unfold Service.parse_score, try_catch;
    rewrite parse_response_run, Hro; reflexivity.
Qed.

Lemma stage_first_fatal env req w e :
  service env (List.length (requests w)) = Throw e ->
  Service.isRateLimit e = false ->
  stage_of env req w = (Throw e, requested req w).
Proof.
  intros Hsvc Hrl.
  destruct req as [loc|a b|lat lng|lat lng]; cbn [stage_of];
    unfold Service.analyzeRouteSafety, Service.generateSafeRoute,
      Service.getRiskTrend, Service.getThreatZones,
      Service.default_retries, Service.score_attempt,
      Service.route_attempt, Service.trend_attempt, Service.zones_attempt;
    rewrite service_withRetry_S;
    unfold bind, generateContent, perform; rewrite Hsvc, Hrl; reflexivity.
Qed.

(** X8.  A run of [init] always ends normally, whatever the service
    does, with the loading flag cleared; it leaves the locations, the
    threat and SOS switches, the chat transcript, its input box and
    its session as they were; it creates no chat session and sends no
    chat message; and it only adds to the request log and to the
    timers. *)
Theorem init_always_completes (env : Env) (s : App.St) :
  let out := App.init env s in
  fst out = Ok tt
  /\ App.isLoading (App.app (snd out)) = false
  /\ bystanders (App.app (snd out)) = bystanders (App.app s)
  /\ sessions (App.world (snd out)) = sessions (App.world s)
  /\ sent (App.world (snd out)) = sent (App.world s)
  /\ (exists reqs,
         requests (App.world (snd out))
         = (requests (App.world s) ++ reqs)%list)
  /\ (exists waits,
         timers (App.world (snd out)) = (timers (App.world s) ++ waits)%list).
Proof.
  cbv zeta. rewrite init_run. cbn [fst snd].
  split; [reflexivity|].
  unfold init_result, stages_result, init_entry. cbn [App.app App.world].
  destruct (Service.analyzeRouteSafety env _ (App.world s))
    as [o1 w1] eqn:H1.
  apply (stage_facts env (ReqScore _)) in H1.
  destruct H1 as (k1 & _ & _ & R1 & T1 & _ & S1 & M1 & _).
  destruct o1 as [score|e].
  2: { destruct (App.mentions429 e); cbn;
       rewrite S1, M1, R1, T1; repeat split; eauto. }
  destruct (Service.getThreatZones env _ _ (slept 2000 w1))
    as [o2 w2] eqn:H2.
  apply (stage_facts env (ReqZones _ _)) in H2.
  destruct H2 as (k2 & _ & _ & R2 & T2 & _ & S2 & M2 & _).
  cbn [slept requests timers sessions sent draws] in *.
  destruct o2 as [zones|e].
  2: { destruct (App.mentions429 e); cbn;
       rewrite S2, M2, R2, T2, S1, M1, R1, T1, <- ?app_assoc;
       repeat split; eauto. }
  destruct (Service.generateSafeRoute env _ _ (slept 2000 w2))
    as [o3 w3] eqn:H3.
  apply (stage_facts env (ReqRoute _ _)) in H3.
  destruct H3 as (k3 & _ & _ & R3 & T3 & _ & S3 & M3 & _).
  cbn [slept requests timers sessions sent draws] in *.
  destruct o3 as [route|e].
  2: { destruct (App.mentions429 e); cbn;
       rewrite S3, M3, R3, T3, S2, M2, R2, T2, S1, M1, R1, T1,
         <- ?app_assoc;
       repeat split; eauto. }
  destruct (Service.getRiskTrend env _ _ (slept 2000 w3))
    as [o4 w4] eqn:H4.
  apply (stage_facts env (ReqTrend _ _)) in H4.
  destruct H4 as (k4 & _ & _ & R4 & T4 & _ & S4 & M4 & _).
  cbn [slept requests timers sessions sent draws] in *.
  destruct o4 as [trend|e].
  2: { destruct (App.mentions429 e); cbn;
       rewrite S4, M4, R4, T4, S3, M3, R3, T3, S2, M2, R2, T2,
         S1, M1, R1, T1, <- ?app_assoc;
       repeat split; eauto. }
  cbn. rewrite S4, M4, R4, T4, S3, M3, R3, T3, S2, M2, R2, T2,
         S1, M1, R1, T1, <- ?app_assoc.
  repeat split; eauto.
Qed.

(** X9.  When the next four answers of the service parse, [init]
    stores the four values, ends with both flags cleared, sends the
    score, zones, route and trend requests once each in that order,
    waits 2000 ms three times, draws no random number and logs
    nothing. *)
Theorem init_happy_path (env : Env) (s : App.St)
        (r1 r2 r3 r4 : Response) (score zones route trend : JSON.value) :
  let n := List.length (requests (App.world s)) in
  let here := App.currentLocation (App.app s) in
  let dest := App.destinationCoord (App.app s) in
  service env n = Ok r1 -> parses_to r1 score ->
  service env (n + 1) = Ok r2 -> parses_to r2 zones ->
  service env (n + 2) = Ok r3 -> parses_to r3 route ->
  service env (n + 3) = Ok r4 -> parses_to r4 trend ->
  let out := App.init env s in
  inferred (App.app (snd out)) = (score, zones, trend, route, false, false)
  /\ requests (App.world (snd out))
     = (requests (App.world s)
          ++ [ReqScore "Chelsea District";
              ReqZones (fst here) (snd here);
              ReqRoute here dest;
              ReqTrend (fst here) (snd here)])%list
  /\ timers (App.world (snd out))
     = (timers (App.world s) ++ [2000; 2000; 2000]%Q)%list
  /\ draws (App.world (snd out)) = draws (App.world s)
  /\ console (App.world (snd out)) = console (App.world s).
Proof.
  intros n here dest S1 P1 S2 P2 S3 P3 S4 P4 out.
  unfold out. rewrite init_run. cbn [fst snd].
  unfold init_result, stages_result, init_entry. cbn [App.app App.world].
  set (w := App.world s) in *.
  assert (E1 := stage_first_ok env (ReqScore "Chelsea District") w r1 score
                  S1 P1).
  cbn [stage_of] in E1. rewrite E1.
  set (w1 := slept 2000 (requested _ w)).
  assert (L1 : List.length (requests w1) = n + 1)
    by (unfold w1; cbn; rewrite length_app; reflexivity).
  assert (E2 := stage_first_ok env (ReqZones (fst here) (snd here)) w1
                  r2 zones).
  rewrite L1 in E2. specialize (E2 S2 P2).
  cbn [stage_of] in E2. cbn [App.currentLocation App.with_isLoading
    App.with_isRateLimited App.destinationCoord]. fold here dest.
  rewrite E2.
  set (w2 := slept 2000 (requested _ w1)).
  assert (L2 : List.length (requests w2) = n + 2)
    by (unfold w2; cbn [slept requested requests];
        rewrite length_app, L1; cbn; lia).
  assert (E3 := stage_first_ok env (ReqRoute here dest) w2 r3 route).
  rewrite L2 in E3. specialize (E3 S3 P3).
  cbn [stage_of] in E3. rewrite E3.
  set (w3 := slept 2000 (requested _ w2)).
  assert (L3 : List.length (requests w3) = n + 3)
    by (unfold w3; cbn [slept requested requests];
        rewrite length_app, L2; cbn; lia).
  assert (E4 := stage_first_ok env (ReqTrend (fst here) (snd here)) w3
                  r4 trend).
  rewrite L3 in E4. specialize (E4 S4 P4).
  cbn [stage_of] in E4. rewrite E4.
  unfold w3, w2, w1. cbn. rewrite <- !app_assoc. cbn [app].
  repeat split; reflexivity.
Qed.

Lemma init_happy_path_witness :
  let env := SampleText.answering SampleText.good in
  let out := App.init env Scenario.boot in
  inferred (App.app (snd out))
  = (SampleText.score_value 64, SampleText.score_value 64,
     SampleText.score_value 64, SampleText.score_value 64, false, false)
  /\ requests (App.world (snd out))
     = ([] ++ [ReqScore "Chelsea District";
               ReqZones (fst Scenario.here) (snd Scenario.here);
               ReqRoute Scenario.here Scenario.dest;
               ReqTrend (fst Scenario.here) (snd Scenario.here)])%list
  /\ timers (App.world (snd out)) = ([] ++ [2000; 2000; 2000]%Q)%list
  /\ draws (App.world (snd out)) = 0
  /\ console (App.world (snd out)) = [].
Proof.
  cbv zeta.
  refine (init_happy_path (SampleText.answering SampleText.good)
            Scenario.boot SampleText.good SampleText.good SampleText.good
            SampleText.good _ _ _ _ _ _ _ _ _ _ _ _);
    first [ reflexivity
          | eexists; split; [reflexivity | vm_compute; reflexivity] ].
Defined.

Lemma init_world (env : Env) (s : App.St) :
  let out := App.init env s in
  let here := App.currentLocation (App.app s) in
  let dest := App.destinationCoord (App.app s) in
  exists a b c d waits,
    requests (App.world (snd out))
    = (requests (App.world s)
         ++ repeat (ReqScore "Chelsea District") a
         ++ repeat (ReqZones (fst here) (snd here)) b
         ++ repeat (ReqRoute here dest) c
         ++ repeat (ReqTrend (fst here) (snd here)) d)%list
    /\ 1 <= a <= 5 /\ b <= 5 /\ c <= 5 /\ d <= 5
    /\ (b = 0 -> c = 0) /\ (c = 0 -> d = 0)
    /\ timers (App.world (snd out)) = (timers (App.world s) ++ waits)%list
    /\ (random_ok env -> (total waits < 142000)%Q).
Proof.
  cbv zeta. rewrite init_run. cbn [fst snd].
  unfold init_result, stages_result, init_entry. cbn [App.app App.world].
  cbn [App.currentLocation App.with_isLoading App.with_isRateLimited
         App.destinationCoord].
  set (here := App.currentLocation (App.app s)).
  set (dest := App.destinationCoord (App.app s)).
  destruct (Service.analyzeRouteSafety env _ (App.world s))
    as [o1 w1] eqn:H1.
  apply (stage_facts env (ReqScore _)) in H1.
  destruct H1 as (k1 & K1 & _ & R1 & T1 & D1 & _).
  pose proof (fun H => stage_waits_lt (random env) k1
                         (draws (App.world s)) H K1) as B1.
  set (J1 := jittered _ _ _ k1) in *.
  destruct o1 as [score|e].
  2: { exists (S k1), 0, 0, 0, J1.
       destruct (App.mentions429 e); cbn; rewrite R1, T1, ?app_nil_r;
         repeat split; try lia; intros Hr; specialize (B1 Hr); lra. }
  destruct (Service.getThreatZones env _ _ (slept 2000 w1))
    as [o2 w2] eqn:H2.
  apply (stage_facts env (ReqZones _ _)) in H2.
  destruct H2 as (k2 & K2 & _ & R2 & T2 & D2 & _).
  cbn [slept requests timers draws] in R2, T2, D2.
  pose proof (fun H => stage_waits_lt (random env) k2 (draws w1) H K2) as B2.
  set (J2 := jittered _ _ _ k2) in *.
  destruct o2 as [zones|e].
  2: { exists (S k1), (S k2), 0, 0, (J1 ++ 2000%Q :: J2)%list.
       destruct (App.mentions429 e); cbn [App.world App.app logged requests
         timers]; rewrite R2, T2, R1, T1, ?app_nil_r, <- ?app_assoc;
         (repeat split; try lia; try reflexivity);
         intros Hr; specialize (B1 Hr); specialize (B2 Hr);
         rewrite total_app, total_cons; lra. }
  destruct (Service.generateSafeRoute env _ _ (slept 2000 w2))
    as [o3 w3] eqn:H3.
  apply (stage_facts env (ReqRoute _ _)) in H3.
  destruct H3 as (k3 & K3 & _ & R3 & T3 & D3 & _).
  cbn [slept requests timers draws] in R3, T3, D3.
  pose proof (fun H => stage_waits_lt (random env) k3 (draws w2) H K3) as B3.
  set (J3 := jittered _ _ _ k3) in *.
  destruct o3 as [route|e].
  2: { exists (S k1), (S k2), (S k3), 0,
         (J1 ++ 2000%Q :: J2 ++ 2000%Q :: J3)%list.
       destruct (App.mentions429 e); cbn [App.world App.app logged requests
         timers]; rewrite R3, T3, R2, T2, R1, T1, ?app_nil_r, <- ?app_assoc;
         (repeat split; try lia; try reflexivity);
         intros Hr; specialize (B1 Hr); specialize (B2 Hr);
         specialize (B3 Hr);
         rewrite total_app, total_cons, total_app, total_cons; lra. }
  destruct (Service.getRiskTrend env _ _ (slept 2000 w3))
    as [o4 w4] eqn:H4.
  apply (stage_facts env (ReqTrend _ _)) in H4.
  destruct H4 as (k4 & K4 & _ & R4 & T4 & D4 & _).
  cbn [slept requests timers draws] in R4, T4, D4.
  pose proof (fun H => stage_waits_lt (random env) k4 (draws w3) H K4) as B4.
  set (J4 := jittered _ _ _ k4) in *.
  exists (S k1), (S k2), (S k3), (S k4),
    (J1 ++ 2000%Q :: J2 ++ 2000%Q :: J3 ++ 2000%Q :: J4)%list.
  destruct o4 as [trend|e]; [|destruct (App.mentions429 e)];
    cbn [App.world App.app logged requests timers];
    rewrite R4, T4, R3, T3, R2, T2, R1, T1, <- ?app_assoc;
    (repeat split; try lia; try reflexivity);
    intros Hr; specialize (B1 Hr); specialize (B2 Hr);
    specialize (B3 Hr); specialize (B4 Hr);
    rewrite total_app, total_cons, total_app, total_cons, total_app,
      total_cons; lra.
Qed.

(** X10.  The traffic of one run of [init]: between one and five score
    requests, then at most five zones requests, at most five route
    requests and at most five trend requests, in that order, a later
    kind only when every earlier kind was sent; so never more than
    twenty requests. *)
Theorem init_traffic (env : Env) (s : App.St) :
  let out := App.init env s in
  let here := App.currentLocation (App.app s) in
  let dest := App.destinationCoord (App.app s) in
  exists a b c d,
    requests (App.world (snd out))
    = (requests (App.world s)
         ++ repeat (ReqScore "Chelsea District") a
         ++ repeat (ReqZones (fst here) (snd here)) b
         ++ repeat (ReqRoute here dest) c
         ++ repeat (ReqTrend (fst here) (snd here)) d)%list
    /\ 1 <= a <= 5 /\ b <= 5 /\ c <= 5 /\ d <= 5
    /\ (b = 0 -> c = 0) /\ (c = 0 -> d = 0)
    /\ List.length (requests (App.world (snd out)))
       <= List.length (requests (App.world s)) + 20.
Proof.
  cbv zeta.
  destruct (init_world env s)
    as (a & b & c & d & waits & R & Ha & Hb & Hc & Hd & Hbc & Hcd & _).
  exists a, b, c, d. repeat (split; [assumption|]).
  rewrite R, !length_app, !repeat_length. lia.
Qed.



(** X12.  [init] raises the rate-limited flag only when one of its
    stages gave up after five attempts: the run then ends with five
    requests of one kind, made at least four waits, and logged an
    error whose message contains 429. *)
Theorem rate_limited_flag (env : Env) (s : App.St) :
  let out := App.init env s in
  App.isRateLimited (App.app (snd out)) = true ->
  exists e req before log,
    App.mentions429 e = true
    /\ Service.isRateLimit e = true
    /\ console (App.world (snd out))
       = (log ++ [ErrorInitialization e])%list
    /\ requests (App.world (snd out)) = (before ++ repeat req 5)%list
    /\ List.length (timers (App.world s)) + 4
       <= List.length (timers (App.world (snd out))).
Proof.
  cbv zeta. rewrite init_run. cbn [fst snd].
  unfold init_result, stages_result, init_entry. cbn [App.app App.world].
  destruct (Service.analyzeRouteSafety env _ (App.world s))
    as [o1 w1] eqn:H1.
  apply (stage_facts env (ReqScore _)) in H1.
  destruct H1 as (k1 & _ & _ & R1 & T1 & _ & _ & _ & G1).
  destruct o1 as [score|e].
  2: { destruct (App.mentions429 e) eqn:Hm; cbn; [|discriminate].
       intros _. pose proof (mentions429_isRateLimit e Hm) as Hrl.
       rewrite (G1 e eq_refl Hrl) in *.
       exists e. eexists. eexists. eexists.
       split; [exact Hm|]. split; [exact Hrl|].
       split; [reflexivity|]. split; [exact R1|].
       rewrite T1, length_app, jittered_length. lia. }
  destruct (Service.getThreatZones env _ _ (slept 2000 w1))
    as [o2 w2] eqn:H2.
  apply (stage_facts env (ReqZones _ _)) in H2.
  destruct H2 as (k2 & _ & _ & R2 & T2 & _ & _ & _ & G2).
  cbn [slept requests timers draws] in R2, T2.
  destruct o2 as [zones|e].
  2: { destruct (App.mentions429 e) eqn:Hm; cbn; [|discriminate].
       intros _. pose proof (mentions429_isRateLimit e Hm) as Hrl.
       rewrite (G2 e eq_refl Hrl) in *.
       exists e. eexists. eexists. eexists.
       split; [exact Hm|]. split; [exact Hrl|].
       split; [reflexivity|]. split; [exact R2|].
       rewrite T2, T1, !length_app, !jittered_length. lia. }
  destruct (Service.generateSafeRoute env _ _ (slept 2000 w2))
    as [o3 w3] eqn:H3.
  apply (stage_facts env (ReqRoute _ _)) in H3.
  destruct H3 as (k3 & _ & _ & R3 & T3 & _ & _ & _ & G3).
  cbn [slept requests timers draws] in R3, T3.
  destruct o3 as [route|e].
  2: { destruct (App.mentions429 e) eqn:Hm; cbn; [|discriminate].
       intros _. pose proof (mentions429_isRateLimit e Hm) as Hrl.
       rewrite (G3 e eq_refl Hrl) in *.
       exists e. eexists. eexists. eexists.
       split; [exact Hm|]. split; [exact Hrl|].
       split; [reflexivity|]. split; [exact R3|].
       rewrite T3, T2, T1, !length_app, !jittered_length. lia. }
  destruct (Service.getRiskTrend env _ _ (slept 2000 w3))
    as [o4 w4] eqn:H4.
  apply (stage_facts env (ReqTrend _ _)) in H4.
  destruct H4 as (k4 & _ & _ & R4 & T4 & _ & _ & _ & G4).
  cbn [slept requests timers draws] in R4, T4.
  destruct o4 as [trend|e]; [cbn; discriminate|].
  destruct (App.mentions429 e) eqn:Hm; cbn; [|discriminate].
  intros _. pose proof (mentions429_isRateLimit e Hm) as Hrl.
  rewrite (G4 e eq_refl Hrl) in *.
  exists e. eexists. eexists. eexists.
  split; [exact Hm|]. split; [exact Hrl|].
  split; [reflexivity|]. split; [exact R4|].
  rewrite T4, T3, T2, T1, !length_app, !jittered_length. lia.
Qed.

Lemma rate_limited_flag_witness :
  let out := App.init SampleEnv.env_throttled Scenario.boot in
  App.isRateLimited (App.app (snd out)) = true
  /\ exists e req before log,
       App.mentions429 e = true
       /\ Service.isRateLimit e = true
       /\ console (App.world (snd out))
          = (log ++ [ErrorInitialization e])%list
       /\ requests (App.world (snd out)) = (before ++ repeat req 5)%list
       /\ List.length (timers (App.world Scenario.boot)) + 4
          <= List.length (timers (App.world (snd out))).
Proof.
  cbv zeta. split; [reflexivity|].
  exact (rate_limited_flag SampleEnv.env_throttled Scenario.boot eq_refl).
Defined.

(** X13.  A service that refuses the first five requests with one
    error carrying the rate-limit signature: [init] sends the score
    request five times and nothing else, waits four times, stores
    nothing, and reports the run as rate limited exactly when the
    message of the error contains 429, so not for an error that only
    speaks of a quota. *)
Theorem init_throttled (env : Env) (s : App.St) (e : JsError) :
  let n := List.length (requests (App.world s)) in
  (forall i, i < 5 -> service env (n + i) = Throw e) ->
  Service.isRateLimit e = true ->
  let out := App.init env s in
  inferred (App.app (snd out))
  = (App.safetyScore (App.app s), App.threatZones (App.app s),
     App.riskTrend (App.app s), App.safeRoute (App.app s),
     false, App.mentions429 e)
  /\ requests (App.world (snd out))
     = (requests (App.world s) ++ repeat (ReqScore "Chelsea District") 5)%list
  /\ timers (App.world (snd out))
     = (timers (App.world s)
          ++ jittered (random env) (draws (App.world s)) 2000 4)%list
  /\ console (App.world (snd out))
     = (console (App.world s)
          ++ warnings 2000 4 ++ [ErrorInitialization e])%list.
Proof.
  intros n Hsvc Hrl out. unfold out. rewrite init_run. cbn [fst snd].
  unfold init_result, stages_result, init_entry. cbn [App.app App.world].
  assert (Hrun :
    Service.analyzeRouteSafety env "Chelsea District" (App.world s)
    = (Throw e,
       {| requests := requests (App.world s)
                        ++ repeat (ReqScore "Chelsea District") 5;
          draws := draws (App.world s) + 4;
          timers := timers (App.world s)
                      ++ jittered (random env) (draws (App.world s)) 2000 4;
          console := console (App.world s) ++ warnings 2000 4;
          sessions := sessions (App.world s);
          sent := sent (App.world s) |})).
  { unfold Service.analyzeRouteSafety, Service.default_retries,
      Service.default_delay.
    destruct (App.world s) as [rq dr tm cs ss sn]. cbn [requests] in *.
    fold n in Hsvc |- *.
    assert (Hstep : forall w, 
               List.length (requests w) < n + 5 ->
               n <= List.length (requests w) ->
               Service.score_attempt env "Chelsea District" w
               = (Throw e, requested (ReqScore "Chelsea District") w)).
    { intros w Hlt Hle. unfold Service.score_attempt, bind, generateContent,
        perform.
      replace (List.length (requests w))
        with (n + (List.length (requests w) - n)) by lia.
      rewrite Hsvc by lia. reflexivity. }
    do 4 (rewrite service_withRetry_S, Hstep, Hrl
            by (cbn [requests requested]; rewrite ?length_app;
                cbn [List.length]; fold n; lia);
          unfold requested;
          cbn [requests draws timers console sessions sent]).
    rewrite service_withRetry_O, Hstep
      by (cbn [requests requested]; rewrite ?length_app;
          cbn [List.length]; fold n; lia).
    unfold requested.
    cbn [requests draws timers console sessions sent jittered
           warnings repeat].
    rewrite <- !app_assoc. cbn [app].
    replace (dr + 4) with (S (S (S (S dr)))) by lia. reflexivity. }
  rewrite Hrun.
  destruct (App.mentions429 e); cbn; rewrite <- ?app_assoc;
    repeat split; reflexivity.
Qed.

Lemma init_throttled_witness :
  let e := mkError (Some "Quota exceeded") in
  let env := {| service := fun _ => Throw e;
                random := random Sample.env0;
                chatReply := chatReply Sample.env0;
                syntaxErrorMessage := syntaxErrorMessage Sample.env0;
                typeErrorMessage := typeErrorMessage Sample.env0 |} in
  let out := App.init env Scenario.boot in
  Service.isRateLimit e = true
  /\ App.isRateLimited (App.app (snd out)) = false
  /\ requests (App.world (snd out))
     = ([] ++ repeat (ReqScore "Chelsea District") 5)%list.
Proof.
  cbv zeta. split; [reflexivity|].
  pose proof (init_throttled
                {| service := fun _ => Throw (mkError (Some "Quota exceeded"));
                   random := random Sample.env0;
                   chatReply := chatReply Sample.env0;
                   syntaxErrorMessage := syntaxErrorMessage Sample.env0;
                   typeErrorMessage := typeErrorMessage Sample.env0 |}
                Scenario.boot (mkError (Some "Quota exceeded"))
                (fun _ _ => eq_refl) eq_refl) as H.
  cbv zeta in H. destruct H as (H1 & H2 & _).
  split; [|exact H2].
  apply (f_equal snd) in H1. exact H1.
Defined.

Lemma transcript_length env ts :
  forall i,
    List.length (transcript env i ts)
    = 2 * List.length (filter sendable ts).
Proof.
  induction ts as [|t ts IH]; intros i; cbn [transcript filter].
  - reflexivity.
  - destruct (sendable t); cbn [List.length]; rewrite IH; lia.
Qed.

Lemma conversation_run env ts :
  forall s,
    let out := App.sendTurns env ts s in
    fst out = Ok tt
    /\ App.chatMessages (App.app (snd out))
       = (App.chatMessages (App.app s)
            ++ transcript env (List.length (sent (App.world s))) ts)%list
    /\ inferred (App.app (snd out)) = inferred (App.app s)
    /\ requests (App.world (snd out)) = requests (App.world s)
    /\ timers (App.world (snd out)) = timers (App.world s)
    /\ draws (App.world (snd out)) = draws (App.world s)
    /\ console (App.world (snd out)) = console (App.world s).
Proof.
  induction ts as [|t ts IH]; intros s; cbv zeta.
  - cbn. rewrite app_nil_r. repeat split; reflexivity.
  - cbn [App.sendTurns transcript].
    destruct (sendable t) eqn:Ht.
    + erewrite bind_ok by (apply sendTurn_sendable; exact Ht).
      destruct (IH (after_turn env t s))
        as (H1 & H2 & H3 & H4 & H5 & H6 & H7).
      rewrite H1, H2, H3, H4, H5, H6, H7.
      unfold after_turn. cbn. rewrite length_app, <- app_assoc. cbn.
      rewrite Nat.add_1_r. repeat split; reflexivity.
    + erewrite bind_ok by (apply sendTurn_blank; exact Ht).
      destruct (IH (after_blank t s))
        as (H1 & H2 & H3 & H4 & H5 & H6 & H7).
      rewrite H1, H2, H3, H4, H5, H6, H7.
      repeat split; reflexivity.
Qed.

(** X14.  A conversation from any state never fails; the transcript
    grows by the user's text and one model entry for every turn that
    is not blank, in order, and by nothing for a blank one; and the
    four inference fields, the two flags of [init], the request log,
    the timers, the random draws and the console stay as they were. *)
Theorem conversation_transcript (env : Env) (ts : list string) (s : App.St) :
  let out := App.sendTurns env ts s in
  fst out = Ok tt
  /\ App.chatMessages (App.app (snd out))
     = (App.chatMessages (App.app s)
          ++ transcript env (List.length (sent (App.world s))) ts)%list
  /\ List.length (App.chatMessages (App.app (snd out)))
     = List.length (App.chatMessages (App.app s))
       + 2 * List.length (filter sendable ts)
  /\ inferred (App.app (snd out)) = inferred (App.app s)
  /\ requests (App.world (snd out)) = requests (App.world s)
  /\ timers (App.world (snd out)) = timers (App.world s)
  /\ draws (App.world (snd out)) = draws (App.world s)
  /\ console (App.world (snd out)) = console (App.world s).
Proof.
  cbv zeta.
  destruct (conversation_run env ts s) as (H1 & H2 & H3 & H4 & H5 & H6 & H7).
  repeat (split; [assumption|]).
  split; [|auto].
  rewrite H2, length_app, transcript_length. reflexivity.
Qed.

(* ================================================================== *)
(** * Further properties of the two reconcilers *)
(* ================================================================== *)

Lemma base_addLayer h l m :
  is_tile l = false -> base (addLayer h l m) = base m.
Proof.
  intros Hl. unfold base. rewrite of_kind_addLayer, Hl, app_nil_r.
  reflexivity.
Qed.

Lemma base_setLatLng h pos m : base (setLatLng h pos m) = base m.
Proof.
  unfold base. rewrite of_kind_setLatLng_other; [reflexivity|].
  intros l Hl; destruct l; simpl in *; congruence.
Qed.

Lemma base_removeAll k' hs m :
  NoDup (handles (layers m)) ->
  (forall l, k' l = true -> is_tile l = false) ->
  (forall h, In h hs ->
             In h (handles (of_kind k' m)) \/ ~ In h (handles (layers m))) ->
  base (fold_left (fun m' h => removeLayer h m') hs m) = base m.
Proof.
  intros Hnd Hk Hf. unfold base.
  rewrite of_kind_removeAll, (remove_foreign is_tile k' hs m Hnd Hk Hf).
  assert (Hv : forall hs m,
             view_center (fold_left (fun m' h => removeLayer h m') hs m)
             = view_center m
             /\ view_zoom (fold_left (fun m' h => removeLayer h m') hs m)
                = view_zoom m).
  { clear. induction hs as [|h hs IH]; intros m; cbn [fold_left]; [auto|].
    destruct (IH (removeLayer h m)) as [-> ->]. auto. }
  destruct (Hv hs m) as [-> ->]. reflexivity.
Qed.

Lemma base_removeLayer k' h m :
  NoDup (handles (layers m)) ->
  (forall l, k' l = true -> is_tile l = false) ->
  (forall h', In h' [h] ->
             In h' (handles (of_kind k' m)) \/ ~ In h' (handles (layers m))) ->
  base (removeLayer h m) = base m.
Proof. intros. apply (base_removeAll k' [h] m); assumption. Qed.

Lemma base_remove_route n m mk h ov mks pls cis :
  Owned n m mk (Some h) ov mks pls cis ->
  base (removeLayer h m) = base m.
Proof.
  intros (Hnd & _ & _ & Hp & _ & _ & Hr & _).
  apply (base_removeLayer is_polyline); [exact Hnd | |].
  - intros l Hl; destruct l; simpl in *; congruence.
  - eapply route_ref_foreign; eassumption.
Qed.

Lemma base_remove_overlays n m mk rt ov mks pls cis :
  Owned n m mk rt ov mks pls cis ->
  base (fold_left (fun m' h => removeLayer h m') ov m) = base m.
Proof.
  intros (Hnd & _ & _ & _ & Hc & _ & _ & Ho).
  apply (base_removeAll is_circle); [exact Hnd | |].
  - intros l Hl; destruct l; simpl in *; congruence.
  - intros h Hh. left. rewrite Hc, Ho. exact Hh.
Qed.

Lemma base_remove_marker n m h rt ov mks pls cis :
  Owned n m (Some h) rt ov mks pls cis ->
  base (removeLayer h m) = base m.
Proof.
  intros (Hnd & _ & Hm & _ & _ & (pos & ic & Hk) & _ & _).
  apply (base_removeLayer is_marker); [exact Hnd | |].
  - intros l Hl; destruct l; simpl in *; congruence.
  - intros h' [<-|[]]. left. rewrite Hm, Hk. simpl. auto.
Qed.

Lemma syncMarker_base p c m mks pls cis m' :
  owned c m mks pls cis ->
  leafletMap (syncMarker p c) = Some m' ->
  base m' = base m.
Proof.
  intros [Hmap _]. unfold syncMarker. rewrite Hmap.
  destruct (userMarkerRef c); cbn [leafletMap]; intros [= <-].
  - apply base_setLatLng.
  - apply base_addLayer. reflexivity.
Qed.

Lemma syncRoute_base p c m mks pls cis m' :
  owned c m mks pls cis ->
  leafletMap (syncRoute p c) = Some m' ->
  base m' = base m.
Proof.
  intros [Hmap Ho]. unfold syncRoute. rewrite Hmap.
  assert (H1 : base (match routeLayerRef c with
                     | Some h => removeLayer h m
                     | None => m
                     end) = base m).
  { destruct (routeLayerRef c) as [h|]; [|reflexivity].
    eapply base_remove_route. exact Ho. }
  destruct (effectivePoints p); cbn [leafletMap]; intros [= <-].
  - exact H1.
  - rewrite base_addLayer by reflexivity. exact H1.
Qed.

Lemma addZones_base zones :
  forall c m m',
    leafletMap c = Some m ->
    leafletMap (fold_left addZone zones c) = Some m' ->
    base m' = base m.
Proof.
  induction zones as [|z zones IH]; intros c m m' Hm; cbn [fold_left].
  - rewrite Hm. intros [= <-]. reflexivity.
  - intros H. unfold addZone at 2 in H. rewrite Hm in H.
    eapply eq_trans; [eapply IH; [|exact H]; reflexivity|].
    apply base_addLayer. reflexivity.
Qed.

Lemma syncThreats_base p c m mks pls cis m' :
  owned c m mks pls cis ->
  leafletMap (syncThreats p c) = Some m' ->
  base m' = base m.
Proof.
  intros [Hmap Ho]. unfold syncThreats. rewrite Hmap.
  pose proof (base_remove_overlays _ _ _ _ _ _ _ _ Ho) as H1.
  destruct (showThreats p).
  - intros H. eapply eq_trans; [eapply addZones_base; [|exact H]|exact H1].
    reflexivity.
  - cbn [leafletMap]. intros [= <-]. exact H1.
Qed.

Lemma effect_base container p c m0 mks pls cis m' :
  owned (ensureMap container p c) m0 mks pls cis ->
  leafletMap (effect true container p c) = Some m' ->
  base m' = base m0.
Proof.
  intros H0 Hm'. unfold effect in Hm'. cbn [negb] in Hm'.
  destruct (syncMarker_owned p _ _ _ _ _ H0) as (m1 & H1 & _).
  destruct (syncRoute_owned p _ _ _ _ _ H1) as (m2 & H2 & _).
  rewrite (syncThreats_base p _ _ _ _ _ m' H2 Hm').
  rewrite (syncRoute_base p _ _ _ _ _ m2 H1 (proj1 H2)).
  apply (syncMarker_base p _ _ _ _ _ m1 H0 (proj1 H1)).
Qed.

Lemma effect_keeps_map L_loaded container p c m :
  inv c ->
  leafletMap c = Some m ->
  exists m',
    leafletMap (effect L_loaded container p c) = Some m'
    /\ base m' = base m.
Proof.
  intros Hinv Hm. destruct L_loaded; [|exists m; auto].
  pose proof Hinv as Hinv'. unfold inv in Hinv'. rewrite Hm in Hinv'.
  destruct Hinv' as (mks & pls & cis & H0).
  rewrite <- (ensureMap_id container p c m Hm) in H0.
  destruct (effect_owned _ _ _ _ _ _ _ H0) as (m' & n1 & n2 & H' & _).
  exists m'. split; [apply H'|].
  eapply effect_base; [exact H0 | apply H'].
Qed.

Lemma effect_creates_map L_loaded container p c m' :
  inv c ->
  leafletMap c = None ->
  leafletMap (effect L_loaded container p c) = Some m' ->
  L_loaded = true /\ container = true
  /\ base m' = ([(MapComponent.next c, TileLayer tiles_url)],
                center p, zoom p).
Proof.
  intros Hinv Hnone Hm'.
  destruct L_loaded; [|cbn in Hm'; congruence].
  destruct (effect_has_map container p c m' Hinv Hm')
    as (m0 & mks & pls & cis & H0).
  rewrite (effect_base container p c m0 mks pls cis m' H0 Hm').
  destruct H0 as [Hmap _]. unfold ensureMap in Hmap. rewrite Hnone in Hmap.
  destruct container; [|congruence].
  cbn [leafletMap] in Hmap. injection Hmap as <-.
  repeat split; reflexivity.
Qed.

Lemma reachable_tile c m :
  MapComponent.reachable c ->
  leafletMap c = Some m ->
  exists h, of_kind is_tile m = [(h, TileLayer tiles_url)].
Proof.
  intros Hr. revert m.
  induction Hr as [|L_loaded container p c Hr IH]; intros m Hm.
  - discriminate.
  - pose proof (reachable_inv c Hr) as Hinv.
    destruct (leafletMap c) as [m0|] eqn:Hm0.
    + destruct (effect_keeps_map L_loaded container p c m0 Hinv Hm0)
        as (m' & Hm' & Hb).
      rewrite Hm in Hm'. injection Hm' as <-.
      destruct (IH m0 eq_refl) as (h & Hh). exists h.
      apply (f_equal (fun b => fst (fst b))) in Hb. cbn in Hb.
      rewrite Hb. exact Hh.
    + destruct (effect_creates_map L_loaded container p c m Hinv Hm0 Hm)
        as (_ & _ & Hb).
      eexists. apply (f_equal (fun b => fst (fst b))) in Hb. exact Hb.
Qed.

(** X15.  The map of the component is created once, by the first run
    of the effect that finds Leaflet and the container, with the dark
    tile layer and the view at the centre and zoom of that run's
    props.  No later run changes the tile layer, the centre of the
    view or its zoom, whatever its props: a new centre moves the
    marker, not the map. *)
Theorem map_created_once (L_loaded container : bool) (p : Props) (c : Refs) :
  MapComponent.reachable c ->
  (forall m, leafletMap c = Some m ->
             (exists h, of_kind is_tile m = [(h, TileLayer tiles_url)])
             /\ exists m',
                 leafletMap (effect L_loaded container p c) = Some m'
                 /\ of_kind is_tile m' = of_kind is_tile m
                 /\ view_center m' = view_center m
                 /\ view_zoom m' = view_zoom m)
  /\ (forall m', leafletMap c = None ->
                 leafletMap (effect L_loaded container p c) = Some m' ->
                 L_loaded = true /\ container = true
                 /\ of_kind is_tile m'
                    = [(MapComponent.next c, TileLayer tiles_url)]
                 /\ view_center m' = center p
                 /\ view_zoom m' = zoom p)
  /\ (leafletMap c = None -> L_loaded && container = true ->
      exists m', leafletMap (effect L_loaded container p c) = Some m').
Proof.
  intros Hr. pose proof (reachable_inv c Hr) as Hinv.
  split; [|split].
  - intros m Hm. split; [apply (reachable_tile c m Hr Hm)|].
    destruct (effect_keeps_map L_loaded container p c m Hinv Hm)
      as (m' & Hm' & Hb).
    exists m'. split; [exact Hm'|].
    unfold base in Hb. injection Hb as H1 H2 H3. auto.
  - intros m' Hnone Hm'.
    destruct (effect_creates_map L_loaded container p c m' Hinv Hnone Hm')
      as (HL & HC & Hb).
    unfold base in Hb. injection Hb as H1 H2 H3. auto.
  - intros Hnone Hlc. apply andb_true_iff in Hlc. destruct Hlc as [-> ->].
    pose proof (ensureMap_inv true p c Hinv) as Hinv0.
    unfold inv in Hinv0.
    assert (Hmap : exists m0, leafletMap (ensureMap true p c) = Some m0)
      by (unfold ensureMap; rewrite Hnone; cbn; eauto).
    destruct Hmap as (m0 & Hm0). rewrite Hm0 in Hinv0.
    destruct Hinv0 as (mks & pls & cis & H0).
    destruct (effect_owned _ _ _ _ _ _ _ H0) as (m' & n1 & n2 & H' & _).
    exists m'. apply H'.
Qed.

Lemma map_created_once_witness :
  let far := {| center := Demo.dest; destination := None;
                routePoints := []; zoom := 3%Q; threatZones := [];
                showThreats := false; safetyScore := 10%Q;
                isDistress := true |} in
  let c := effect true true Demo.scenarioA mounted in
  exists m m',
    leafletMap c = Some m
    /\ leafletMap (effect true true far c) = Some m'
    /\ view_center m = Demo.here
    /\ view_center m' = Demo.here
    /\ view_zoom m' = 14%Q
    /\ of_kind is_tile m' = [(0, TileLayer tiles_url)].
Proof.
  cbv zeta.
  assert (Hr : MapComponent.reachable (effect true true Demo.scenarioA mounted))
    by (apply reach_effect, reach_mounted).
  eexists.
  destruct (proj2 (proj1 (map_created_once true true
                            {| center := Demo.dest; destination := None;
                               routePoints := []; zoom := 3%Q;
                               threatZones := []; showThreats := false;
                               safetyScore := 10%Q; isDistress := true |}
                            _ Hr) _ eq_refl))
    as (m' & Hm' & Ht & Hc & Hz).
  exists m'. split; [reflexivity|]. split; [exact Hm'|].
  split; [reflexivity|]. split; [exact Hc|]. split; [exact Hz | exact Ht].
Defined.

(** ** The marker over the runs *)

Lemma reachable_marker c m :
  MapComponent.reachable c ->
  leafletMap c = Some m ->
  exists h pos ic,
    userMarkerRef c = Some h
    /\ of_kind is_marker m = [(h, Marker pos ic)].
Proof.
  intros Hr. revert m.
  induction Hr as [|L_loaded container p c Hr IH]; intros m Hm.
  - discriminate.
  - destruct L_loaded; [|apply IH; exact Hm].
    destruct (effect_spec container p c m Hr Hm)
      as (mks & n1 & n2 & [_ Ho] & _).
    destruct Ho as (_ & _ & Hk & _ & _ & Hmk & _).
    destruct (userMarkerRef (effect true container p c)) as [h|].
    + destruct Hmk as (pos & ic & Heq). exists h, pos, ic.
      rewrite Hk, Heq. auto.
    + discriminate.
Qed.

(** X16.  Once the component has a map it has one marker, held by the
    marker ref, and every later run keeps that very marker object
    with the icon it was created with; the run only moves it to the
    centre of its props. *)
Theorem marker_persists (container : bool) (p : Props) (c : Refs)
        (m : LMap) :
  MapComponent.reachable c ->
  leafletMap c = Some m ->
  exists h pos ic m',
    userMarkerRef c = Some h
    /\ of_kind is_marker m = [(h, Marker pos ic)]
    /\ leafletMap (effect true container p c) = Some m'
    /\ userMarkerRef (effect true container p c) = Some h
    /\ of_kind is_marker m' = [(h, Marker (center p) ic)].
Proof.
  intros Hr Hm.
  destruct (reachable_marker c m Hr Hm) as (h & pos & ic & Href & Hmk).
  pose proof (reachable_inv c Hr) as Hinv.
  destruct (effect_keeps_map true container p c m Hinv Hm) as (m' & Hm' & _).
  destruct (effect_spec container p c m' Hr Hm')
    as (mks & n1 & n2 & [_ Ho] & Hold & _).
  rewrite <- (Hold m Hm), Hmk in Ho. cbn [marker_after] in Ho.
  destruct Ho as (_ & _ & Hk & _ & _ & Hmk' & _).
  exists h, pos, ic, m'.
  repeat (split; [assumption|]).
  destruct (userMarkerRef (effect true container p c)) as [h'|].
  - destruct Hmk' as (pos' & ic' & Heq). injection Heq as <- _ _.
    split; [reflexivity | exact Hk].
  - discriminate.
Qed.

Lemma marker_persists_witness :
  let c := effect true true Demo.scenarioA mounted in
  let p := toggleDistress (Demo.threats true) in
  exists h m m',
    leafletMap c = Some m
    /\ of_kind is_marker m = [(h, Marker Demo.here (userIcon false))]
    /\ leafletMap (effect true true p c) = Some m'
    /\ of_kind is_marker m' = [(h, Marker Demo.here (userIcon false))].
Proof.
  cbv zeta.
  assert (Hr : MapComponent.reachable (effect true true Demo.scenarioA mounted))
    by (apply reach_effect, reach_mounted).
  destruct (marker_persists true (toggleDistress (Demo.threats true)) _ _
              Hr eq_refl)
    as (h & pos & ic & m' & _ & Hmk & Hm' & _ & Hmk').
  injection Hmk as <- <- <-.
  eexists. eexists. exists m'.
  split; [reflexivity|]. split; [reflexivity|].
  split; [exact Hm' | exact Hmk'].
Defined.

(** ** Counting the layers *)

Lemma layers_partition m :
  List.length (layers m)
  = List.length (of_kind is_tile m) + List.length (of_kind is_marker m)
    + List.length (of_kind is_polyline m)
    + List.length (of_kind is_circle m).
Proof.
  unfold of_kind. induction (layers m) as [|[h l] ls IH]; [reflexivity|].
  cbn [filter snd]. destruct l; cbn [is_tile is_marker is_polyline is_circle
    List.length]; lia.
Qed.

Lemma route_after_length p n :
  List.length (route_after p n) = lines_wanted p.
Proof.
  unfold route_after, lines_wanted. destruct (effectivePoints p); reflexivity.
Qed.

(** ** The standalone script *)

Lemma vaddZones_base zones :
  forall m n ov,
    base (fst (fst (fold_left Vanilla.addZone zones (m, n, ov)))) = base m.
Proof.
  induction zones as [|z zones IH]; intros m n ov; cbn [fold_left].
  - reflexivity.
  - cbn [Vanilla.addZone]. rewrite IH. apply base_addLayer. reflexivity.
Qed.

Lemma updateMap_base s m mks pls cis :
  vowned s m mks pls cis ->
  exists m', Vanilla.map (Vanilla.updateMap s) = Some m' /\ base m' = base m.
Proof.
  intros [Hmap Ho]. unfold Vanilla.updateMap. rewrite Hmap.
  set (m1 := Vanilla.remove_opt (Vanilla.userMarker s) m).
  set (m2 := Vanilla.remove_opt (Vanilla.routeLine s) m1).
  set (m3 := fold_left (fun m' o => removeLayer o m')
                       (Vanilla.threatOverlays s) m2).
  assert (B1 : base m1 = base m).
  { unfold m1, Vanilla.remove_opt.
    destruct (Vanilla.userMarker s); [|reflexivity].
    eapply base_remove_marker. exact Ho. }
  assert (H1 : Owned (Vanilla.next s) m1 None (Vanilla.routeLine s)
                     (Vanilla.threatOverlays s) [] pls cis).
  { apply (Owned_remove_marker _ _ _ _ _ _ _ _ Ho). }
  assert (B2 : base m2 = base m1).
  { unfold m2, Vanilla.remove_opt.
    destruct (Vanilla.routeLine s); [|reflexivity].
    eapply base_remove_route. exact H1. }
  assert (H2 : Owned (Vanilla.next s) m2 None (Vanilla.routeLine s)
                     (Vanilla.threatOverlays s) [] [] cis).
  { unfold m2, Vanilla.remove_opt.
    destruct (Vanilla.routeLine s) as [h|] eqn:Hr.
    - apply Owned_remove_route with pls. exact H1.
    - assert (pls = [])
        by (destruct H1 as (_ & _ & _ & _ & _ & _ & H & _); exact H).
      subst pls. exact H1. }
  assert (B3 : base m3 = base m2).
  { eapply base_remove_overlays. exact H2. }
  destruct (Vanilla.safeRoute s) as [pts|].
  - match goal with
    | |- context [fold_left Vanilla.addZone ?z (?a, ?n, ?o)] =>
        pose proof (vaddZones_base z a n o) as B6;
        destruct (fold_left Vanilla.addZone z (a, n, o)) as [[m6 n6] ov6]
    end.
    cbn [fst] in B6. exists m6. split; [reflexivity|].
    rewrite B6, !base_addLayer by reflexivity. congruence.
  - match goal with
    | |- context [fold_left Vanilla.addZone ?z (?a, ?n, ?o)] =>
        pose proof (vaddZones_base z a n o) as B6;
        destruct (fold_left Vanilla.addZone z (a, n, o)) as [[m6 n6] ov6]
    end.
    cbn [fst] in B6. exists m6. split; [reflexivity|].
    rewrite B6, !base_addLayer by reflexivity. congruence.
Qed.

(** The state [triggerSOS] hands to [updateMap]. *)
Lemma triggerSOS_run s m :
  Vanilla.map s = Some m ->
  exists s',
    Vanilla.triggerSOS s = Vanilla.updateMap s'
    /\ Vanilla.isSOSActive s' = negb (Vanilla.isSOSActive s)
    /\ Vanilla.currentLocation s' = Vanilla.currentLocation s
    /\ Vanilla.safeRoute s' = Vanilla.safeRoute s
    /\ Vanilla.threatZones s' = Vanilla.threatZones s
    /\ Vanilla.map s' = Some m
    /\ (vinv s -> vinv s').
Proof.
  intros Hm.
  exists {| Vanilla.isSOSActive := negb (Vanilla.isSOSActive s);
            Vanilla.currentLocation := Vanilla.currentLocation s;
            Vanilla.safeRoute := Vanilla.safeRoute s;
            Vanilla.threatZones := Vanilla.threatZones s;
            Vanilla.next := Vanilla.next s;
            Vanilla.map := Vanilla.map s;
            Vanilla.userMarker := Vanilla.userMarker s;
            Vanilla.routeLine := Vanilla.routeLine s;
            Vanilla.threatOverlays := Vanilla.threatOverlays s |}.
  split.
  - unfold Vanilla.triggerSOS. cbn [Vanilla.map]. rewrite Hm. reflexivity.
  - cbn [Vanilla.isSOSActive Vanilla.currentLocation Vanilla.safeRoute
           Vanilla.threatZones Vanilla.map].
    repeat (split; [first [reflexivity | assumption]|]).
    apply vinv_ext; reflexivity.
Qed.

Lemma updateMap_fields s :
  Vanilla.isSOSActive (Vanilla.updateMap s) = Vanilla.isSOSActive s
  /\ Vanilla.currentLocation (Vanilla.updateMap s)
     = Vanilla.currentLocation s
  /\ Vanilla.safeRoute (Vanilla.updateMap s) = Vanilla.safeRoute s
  /\ Vanilla.threatZones (Vanilla.updateMap s) = Vanilla.threatZones s.
Proof.
  unfold Vanilla.updateMap. destruct (Vanilla.map s); [|auto].
  destruct (Vanilla.safeRoute s);
    destruct (fold_left Vanilla.addZone _ _) as [[? ?] ?]; auto.
Qed.

Lemma vanilla_reachable_location s :
  Vanilla.reachable s ->
  Vanilla.currentLocation s = Vanilla.currentLocation Vanilla.start.
Proof.
  induction 1 as [|container s _ IH|s _ IH|s _ IH|route zones s _ IH].
  - reflexivity.
  - unfold Vanilla.initMap. destruct container; [|exact IH].
    cbn [negb]. destruct (Vanilla.map s); [exact IH|].
    rewrite (proj1 (proj2 (updateMap_fields _))). exact IH.
  - rewrite (proj1 (proj2 (updateMap_fields _))). exact IH.
  - unfold Vanilla.triggerSOS. cbn [Vanilla.map].
    destruct (Vanilla.map s); [|exact IH].
    rewrite (proj1 (proj2 (updateMap_fields _))). exact IH.
  - exact IH.
Qed.

Lemma vanilla_reachable_base s m :
  Vanilla.reachable s ->
  Vanilla.map s = Some m ->
  exists h,
    base m = ([(h, TileLayer tiles_url)],
              Vanilla.currentLocation Vanilla.start, 14%Q).
Proof.
  intros Hr. revert m.
  induction Hr as [|container s Hr IH|s Hr IH|s Hr IH|route zones s Hr IH];
    intros m Hm.
  - discriminate.
  - pose proof (vanilla_reachable_inv s Hr) as Hinv.
    unfold Vanilla.initMap in Hm. destruct container; [|eauto].
    cbn [negb] in Hm.
    destruct (Vanilla.map s) as [m0|] eqn:Hm0; [apply IH; congruence|].
    match type of Hm with
    | Vanilla.map (Vanilla.updateMap ?x) = _ => set (s0 := x) in *
    end.
    unfold vinv in Hinv. rewrite Hm0 in Hinv.
    destruct Hinv as (Hu & Hrt & Ht).
    assert (H0 : vowned s0 (addLayer (Vanilla.next s) (TileLayer tiles_url)
                              {| layers := [];
                                 view_center := Vanilla.currentLocation s;
                                 view_zoom := 14%Q |}) [] [] []).
    { split; [reflexivity|]. cbn. rewrite Hu, Hrt, Ht. apply Owned_tile. }
    destruct (updateMap_base _ _ _ _ _ H0) as (m' & Hm' & Hb).
    rewrite Hm in Hm'. injection Hm' as <-.
    exists (Vanilla.next s). rewrite Hb. unfold base. cbn.
    rewrite (vanilla_reachable_location s Hr). reflexivity.
  - pose proof (vanilla_reachable_inv s Hr) as Hinv.
    unfold vinv in Hinv.
    destruct (Vanilla.map s) as [m0|] eqn:Hm0.
    + destruct Hinv as (mks & pls & cis & H0).
      destruct (updateMap_base _ _ _ _ _ H0) as (m' & Hm' & Hb).
      rewrite Hm in Hm'. injection Hm' as <-.
      destruct (IH m0 eq_refl) as (h & Hh). exists h. congruence.
    + unfold Vanilla.updateMap in Hm. rewrite Hm0 in Hm. congruence.
  - pose proof (vanilla_reachable_inv s Hr) as Hinv.
    destruct (Vanilla.map s) as [m0|] eqn:Hm0.
    + destruct (triggerSOS_run s m0 Hm0)
        as (s' & Heq & _ & _ & _ & _ & Hm' & Hinv').
      specialize (Hinv' Hinv). unfold vinv in Hinv'. rewrite Hm' in Hinv'.
      destruct Hinv' as (mks & pls & cis & H0).
      destruct (updateMap_base _ _ _ _ _ H0) as (m' & Hm'' & Hb).
      rewrite Heq in Hm. rewrite Hm in Hm''. injection Hm'' as <-.
      destruct (IH m0 eq_refl) as (h & Hh). exists h. congruence.
    + unfold Vanilla.triggerSOS in Hm. cbn [Vanilla.map] in Hm.
      rewrite Hm0 in Hm. cbn in Hm. congruence.
  - apply IH. exact Hm.
Qed.

(** X17.  No layer piles up.  After a run of the effect from any state
    of the component the map holds the tile layer, the marker, one
    line when the props give points or a destination, and one circle
    per threat zone when [showThreats] is set, and nothing else; after
    [updateMap] from any state of the standalone script it holds the
    tile layer, the marker, one line when there is a route, and one
    circle per threat zone. *)
Theorem layer_census :
  (forall (container : bool) (p : Props) (c : Refs) (m' : LMap),
      MapComponent.reachable c ->
      leafletMap (effect true container p c) = Some m' ->
      List.length (layers m') = 2 + lines_wanted p + circles_wanted p)
  /\ (forall (s : Vanilla.State) (m : LMap),
         Vanilla.reachable s ->
         Vanilla.map s = Some m ->
         exists m',
           Vanilla.map (Vanilla.updateMap s) = Some m'
           /\ List.length (layers m')
              = 2 + (match Vanilla.safeRoute s with
                     | Some _ => 1
                     | None => 0
                     end)
                + List.length (Vanilla.threatZones s)).
Proof.
  split.
  - intros container p c m' Hr Hm'.
    assert (Hr' : MapComponent.reachable (effect true container p c))
      by (apply reach_effect; exact Hr).
    destruct (reachable_tile _ _ Hr' Hm') as (h & Ht).
    destruct (effect_spec container p c m' Hr Hm')
      as (mks & n1 & n2 & [_ Ho] & _).
    destruct Ho as (_ & _ & Hk & Hp & Hc & _).
    rewrite layers_partition, Ht, Hk, Hp, Hc.
    rewrite route_after_length, circles_after_length.
    unfold circles_wanted. reflexivity.
  - intros s m Hr Hm.
    pose proof (vanilla_reachable_inv s Hr) as Hinv.
    unfold vinv in Hinv. rewrite Hm in Hinv.
    destruct Hinv as (mks & pls & cis & H0).
    destruct (updateMap_owned _ _ _ _ _ H0) as (m' & n & [Hm' Ho] & _).
    exists m'. split; [exact Hm'|].
    assert (Hr' : Vanilla.reachable (Vanilla.updateMap s))
      by (apply Vanilla.reach_updateMap; exact Hr).
    destruct (vanilla_reachable_base _ _ Hr' Hm') as (h & Hb).
    apply (f_equal (fun b => fst (fst b))) in Hb. cbn [base fst] in Hb.
    destruct Ho as (_ & _ & Hk & Hp & Hc & _).
    rewrite layers_partition, Hb, Hk, Hp, Hc.
    rewrite length_combine, length_seq, length_map, Nat.min_id.
    unfold vroute_after. destruct (Vanilla.safeRoute s); reflexivity.
Qed.

Lemma layer_census_witness :
  exists m',
    leafletMap (effect true true (Demo.threats true)
                       (effect true true Demo.scenarioA mounted)) = Some m'
    /\ List.length (layers m') = 6.
Proof.
  eexists. split; [reflexivity|].
  refine (proj1 layer_census true (Demo.threats true)
                (effect true true Demo.scenarioA mounted) _ _ eq_refl).
  apply reach_effect, reach_mounted.
Defined.

Lemma updateMap_visible s m mks pls cis :
  vowned s m mks pls cis ->
  exists m',
    Vanilla.map (Vanilla.updateMap s) = Some m'
    /\ visible m'
       = ([Marker (Vanilla.currentLocation s)
                  (Vanilla.icon (Vanilla.isSOSActive s))],
          match Vanilla.safeRoute s with
          | Some pts =>
              [Polyline pts (Vanilla.routeOptions (Vanilla.isSOSActive s))]
          | None => []
          end,
          map Vanilla.zoneCircle (Vanilla.threatZones s)).
Proof.
  intros H0.
  destruct (updateMap_owned _ _ _ _ _ H0) as (m' & n & [Hm' Ho] & _).
  exists m'. split; [exact Hm'|].
  destruct Ho as (_ & _ & Hk & Hp & Hc & _).
  unfold visible. rewrite Hk, Hp, Hc.
  rewrite combine_snd by (rewrite length_seq, length_map; reflexivity).
  unfold vroute_after. destruct (Vanilla.safeRoute s); reflexivity.
Qed.

(** X18.  Raising and then cancelling the alarm of the standalone
    script puts the flag back and leaves on the map what a plain
    [updateMap] shows: the same marker, line and circles, with new
    layer objects, on the same tiles and view. *)
Theorem triggerSOS_twice (s : Vanilla.State) (m : LMap) :
  Vanilla.reachable s ->
  Vanilla.map s = Some m ->
  let s2 := Vanilla.triggerSOS (Vanilla.triggerSOS s) in
  exists m1 m2,
    Vanilla.map (Vanilla.updateMap s) = Some m1
    /\ Vanilla.map s2 = Some m2
    /\ Vanilla.isSOSActive s2 = Vanilla.isSOSActive s
    /\ visible m2 = visible m1
    /\ base m2 = base m
    /\ List.length (layers m2) = List.length (layers m1).
Proof.
  intros Hr Hm s2.
  pose proof (vanilla_reachable_inv s Hr) as Hinv.
  pose proof Hinv as Hinv0. unfold vinv in Hinv0. rewrite Hm in Hinv0.
  destruct Hinv0 as (mks & pls & cis & H0).
  destruct (updateMap_visible _ _ _ _ _ H0) as (m1 & Hm1 & V1).
  (* first press *)
  destruct (triggerSOS_run s m Hm)
    as (sa & Ea & Fa & La & Ra & Za & Ma & Ia).
  specialize (Ia Hinv). pose proof Ia as Ia0. unfold vinv in Ia0.
  rewrite Ma in Ia0. destruct Ia0 as (mksa & plsa & cisa & Ha).
  destruct (updateMap_base _ _ _ _ _ Ha) as (ma & Hma & Ba).
  destruct (updateMap_fields sa) as (F1 & L1 & R1 & Z1).
  rewrite <- Ea in Hma, F1, L1, R1, Z1.
  (* second press *)
  assert (Hr1 : Vanilla.reachable (Vanilla.triggerSOS s))
    by (apply Vanilla.reach_triggerSOS; exact Hr).
  pose proof (vanilla_reachable_inv _ Hr1) as Hinv1.
  destruct (triggerSOS_run _ ma Hma)
    as (sb & Eb & Fb & Lb & Rb & Zb & Mb & Ib).
  specialize (Ib Hinv1). pose proof Ib as Ib0. unfold vinv in Ib0.
  rewrite Mb in Ib0. destruct Ib0 as (mksb & plsb & cisb & Hb).
  destruct (updateMap_visible _ _ _ _ _ Hb) as (m2 & Hm2 & V2).
  destruct (updateMap_base _ _ _ _ _ Hb) as (m2' & Hm2' & Bb).
  rewrite Hm2 in Hm2'. injection Hm2' as <-.
  destruct (updateMap_fields sb) as (F2 & _).
  fold s2 in Eb. rewrite <- Eb in Hm2, F2.
  assert (Hsos : Vanilla.isSOSActive sb = Vanilla.isSOSActive s)
    by (rewrite Fb, F1, Fa; apply negb_involutive).
  assert (Hvis : visible m2 = visible m1).
  { rewrite V2, V1, Hsos, Lb, L1, La, Rb, R1, Ra, Zb, Z1, Za. reflexivity. }
  exists m1, m2.
  split; [exact Hm1|]. split; [exact Hm2|].
  split; [rewrite F2; exact Hsos|].
  split; [exact Hvis|].
  split; [congruence|].
  assert (Hr2 : Vanilla.reachable s2)
    by (apply Vanilla.reach_triggerSOS; exact Hr1).
  assert (Hru : Vanilla.reachable (Vanilla.updateMap s))
    by (apply Vanilla.reach_updateMap; exact Hr).
  destruct (vanilla_reachable_base _ _ Hr2 Hm2) as (h2 & T2).
  destruct (vanilla_reachable_base _ _ Hru Hm1) as (h1 & T1).
  apply (f_equal (fun b => fst (fst b))) in T1, T2. cbn [base fst] in T1, T2.
  rewrite !layers_partition, T1, T2.
  unfold visible in Hvis. injection Hvis as Ek Ep Ec.
  apply (f_equal (@List.length _)) in Ek, Ep, Ec.
  rewrite !length_map in Ek, Ep, Ec. cbn [List.length]. lia.
Qed.

Lemma triggerSOS_twice_witness :
  let s2 := Vanilla.triggerSOS (Vanilla.triggerSOS Demo.script) in
  exists m m1 m2,
    Vanilla.map Demo.script = Some m
    /\ Vanilla.map (Vanilla.updateMap Demo.script) = Some m1
    /\ Vanilla.map s2 = Some m2
    /\ Vanilla.isSOSActive s2 = false
    /\ visible m2 = visible m1.
Proof.
  cbv zeta.
  assert (Hr : Vanilla.reachable Demo.script) by (repeat constructor).
  eexists.
  destruct (triggerSOS_twice Demo.script _ Hr eq_refl)
    as (m1 & m2 & H1 & H2 & H3 & H4 & _).
  exists m1, m2.
  split; [reflexivity|]. repeat (split; [assumption|]). exact H4.
Defined.

(** X19.  The map of the standalone script is created by the first
    [initMap] that finds the container, with the dark tile layer and
    the view on the start location at zoom 14; [initMap] does nothing
    without the container or when the map exists; and nothing the
    script does afterwards changes the tile layer or the view. *)
Theorem vanilla_map_created_once (s : Vanilla.State) :
  Vanilla.reachable s ->
  (forall m, Vanilla.map s = Some m ->
             exists h,
               of_kind is_tile m = [(h, TileLayer tiles_url)]
               /\ view_center m = Vanilla.currentLocation Vanilla.start
               /\ view_zoom m = 14%Q)
  /\ (forall container m,
         Vanilla.map s = Some m -> Vanilla.initMap container s = s)
  /\ Vanilla.initMap false s = s
  /\ (Vanilla.map s = None ->
      exists m, Vanilla.map (Vanilla.initMap true s) = Some m).
Proof.
  intros Hr. split; [|split; [|split]].
  - intros m Hm. destruct (vanilla_reachable_base s m Hr Hm) as (h & Hb).
    exists h. unfold base in Hb. injection Hb as H1 H2 H3. auto.
  - intros container m Hm. unfold Vanilla.initMap. rewrite Hm.
    destruct container; reflexivity.
  - reflexivity.
  - intros Hnone.
    unfold Vanilla.initMap. cbn [negb]. rewrite Hnone.
    match goal with
    | |- context [Vanilla.updateMap ?x] => set (s0 := x)
    end.
    pose proof (vanilla_reachable_inv s Hr) as Hinv0.
    unfold vinv in Hinv0. rewrite Hnone in Hinv0.
    destruct Hinv0 as (Hu & Hrt & Ht).
    assert (H0 : vowned s0 (addLayer (Vanilla.next s) (TileLayer tiles_url)
                              {| layers := [];
                                 view_center := Vanilla.currentLocation s;
                                 view_zoom := 14%Q |}) [] [] []).
    { split; [reflexivity|]. cbn. rewrite Hu, Hrt, Ht. apply Owned_tile. }
    destruct (updateMap_base _ _ _ _ _ H0) as (m' & Hm' & _).
    exists m'. exact Hm'.
Qed.

Lemma vanilla_map_created_once_witness :
  exists m h,
    Vanilla.map Demo.script = Some m
    /\ of_kind is_tile m = [(h, TileLayer tiles_url)]
    /\ view_center m = Vanilla.currentLocation Vanilla.start
    /\ view_zoom m = 14%Q.
Proof.
  assert (Hr : Vanilla.reachable Demo.script) by (repeat constructor).
  eexists.
  destruct (proj1 (vanilla_map_created_once Demo.script Hr) _ eq_refl)
    as (h & H).
  exists h. split; [reflexivity | exact H].
Defined.
